(** * The cell aggregation engine of eg/sg.go

    A shallow embedding of the trooper / block / cube containers of
    [eg/sg.go] and of the fill-count state machine [cbox] they share,
    followed by the properties of the attach / detach / reset operations.

    Conventions of the embedding.
    - Go's [int] is a 64-bit two's complement integer.  It is modelled by
      [Z]; arithmetic that can leave the 64-bit range is written with the
      wrapping operations [iadd], [isub], [imul].  The increments and
      decrements of [cbox] are guarded by a comparison against another
      [int] ([ccnt < cmax], [ccnt > 0]) and cannot wrap, so they are
      written with the plain operations of [Z].
    - [float64] is modelled by the exact rationals [Q]: rounding, infinities
      and NaN are not represented.
    - A run-time panic (index out of range, failed type assertion) is the
      result [None]; every operation that can panic returns an [option].
    - A [vu.Part] is modelled by the attributes the code sets on it.  The
      group part of a cube ([c.part]) has exactly the parts of [c.cells] as
      children (both are extended and shrunk together), so only [cells] is
      kept.
    - [sort.Sort] belongs to Go's standard library; it is a parameter
      [gosort] of the definitions that call it. *)

From Stdlib Require Import String ZArith QArith List Bool Lia Lqa Permutation Sorted.
Import ListNotations.

Local Open Scope Z_scope.

(** ** Machine integers *)

Definition int_min : Z := - 2 ^ 63.
Definition int_max : Z := 2 ^ 63 - 1.

Definition wrap (z : Z) : Z := (z + 2 ^ 63) mod 2 ^ 64 - 2 ^ 63.

Definition iadd (a b : Z) : Z := wrap (a + b).
Definition isub (a b : Z) : Z := wrap (a - b).
Definition imul (a b : Z) : Z := wrap (a * b).

(** ** An error monad for panics *)

Notation "x <- e ;; k" :=
  (match e with Some x => k | None => None end)
  (at level 61, e at next level, right associativity).

Notation "' p <- e ;; k" :=
  (match e with Some p => k | None => None end)
  (at level 61, p pattern, e at next level, right associativity).

(** ** Vectors and parts *)

Record V3 := mkV3 { X : Q; Y : Q; Z3 : Q }.

(** Modelled from the spec: [lin.V3.Dot] of the vu math library, which is
    not among the sources; the spec calls it the dot product [v·normal]. *)
Definition Dot (v a : V3) : Q := (X v * X a + Y v * Y a + Z3 v * Z3 a)%Q.

Definition Qltb (a b : Q) : bool := negb (Qle_bool b a).

(** The attributes of a [vu.Part] that the code sets: location, scale and
    the role / mesh / material names. *)
Record Part := mkPart {
  location : V3;
  scale : V3;
  role : string;
  mesh : string;
  material : string }.

(** [AddPart()]: a fresh part.  The code never reads an attribute it did
    not set; the defaults of the engine are taken to be the origin, unit
    scale and no facade. *)
Definition AddPart : Part :=
  mkPart (mkV3 0 0 0) (mkV3 1 1 1) EmptyString EmptyString EmptyString.

Definition SetLocation (x y z : Q) (p : Part) : Part :=
  mkPart (mkV3 x y z) (scale p) (role p) (mesh p) (material p).

Definition SetScale (x y z : Q) (p : Part) : Part :=
  mkPart (location p) (mkV3 x y z) (role p) (mesh p) (material p).

(** [p.SetRole(r).SetMesh(m).SetMaterial(t)] *)
Definition SetFacade (r m t : string) (p : Part) : Part :=
  mkPart (location p) (scale p) r m t.

(** ** cbox: the fill-count state machine *)

Record cbox := mkCbox {
  ccnt : Z;
  cmax : Z;
  cx : Q;
  cy : Q;
  cz : Q;
  csize : Q }.

Definition cbox_set_ccnt (n : Z) (b : cbox) : cbox :=
  mkCbox n (cmax b) (cx b) (cy b) (cz b) (csize b).

Definition cbox_set_csize (s : Q) (b : cbox) : cbox :=
  mkCbox (ccnt b) (cmax b) (cx b) (cy b) (cz b) s.

(** An owner of a [cbox]: the struct that embeds it and that sets the four
    function fields [mergec], [trashc], [addc] and [remc]. *)
Class Box (T : Type) := {
  box : T -> cbox;
  set_ccnt : Z -> T -> T;
  mergec : T -> option T;
  trashc : T -> option T;
  addc : T -> option T;
  remc : T -> option T }.

Section Cbox.
Context {T : Type} `{Box T}.

Definition attach (c : T) : option (T * bool) :=
  if (0 <=? ccnt (box c)) && (ccnt (box c) <? cmax (box c)) then
    let c1 := set_ccnt (ccnt (box c) + 1) c in
    if ccnt (box c1) =? cmax (box c1) then
      c2 <- mergec c1 ;; Some (c2, true)
    else
      c2 <- addc c1 ;; Some (c2, true)
  else Some (c, false).

(** [for cnt := 0; cnt < cellCount; cnt++ { c.attach() }] *)
Fixpoint attach_times (n : nat) (c : T) : option T :=
  match n with
  | O => Some c
  | S n' => '(c1, _) <- attach c ;; attach_times n' c1
  end.

Definition reset (cellCount : Z) (c : T) : option T :=
  c1 <- trashc c ;;
  let c2 := set_ccnt 0 c1 in
  let cellCount := if cellCount >? cmax (box c2) then cmax (box c2) else cellCount in
  attach_times (Z.to_nat cellCount) c2.

Definition detach (c : T) : option (T * bool) :=
  if (ccnt (box c) >? 0) && (ccnt (box c) <=? cmax (box c)) then
    if ccnt (box c) =? cmax (box c) then
      c1 <- reset (cmax (box c) - 1) c ;; Some (c1, true)
    else
      c1 <- remc c ;;
      Some (set_ccnt (ccnt (box c1) - 1) c1, true)
  else Some (c, false).

End Cbox.

(** ** cube *)

Record cube := mkCube {
  cells : list Part;
  centers : list V3;
  cube_box : cbox }.

Definition cube_set_cells (l : list Part) (c : cube) : cube :=
  mkCube l (centers c) (cube_box c).

Definition cube_set_centers (l : list V3) (c : cube) : cube :=
  mkCube (cells c) l (cube_box c).

Definition cube_set_ccnt (n : Z) (c : cube) : cube :=
  mkCube (cells c) (centers c) (cbox_set_ccnt n (cube_box c)).

(** The part made by [addCell] for the center [v]. *)
Definition small_cell (c : cube) (v : V3) : Part :=
  let s := (csize (cube_box c) * (2 # 5))%Q in
  SetScale s s s
    (SetFacade "flat" "cube" "green"
       (SetLocation (X v) (Y v) (Z3 v) AddPart)).

(** The part made by [merge]. *)
Definition merged_cell (c : cube) : Part :=
  let b := cube_box c in
  let s := (csize b - csize b * (3 # 20))%Q in
  SetScale s s s
    (SetFacade "flat" "cube" "green"
       (SetLocation (cx b) (cy b) (cz b) AddPart)).

(** [c.centers[c.ccnt-1]]: a negative or too large index panics. *)
Definition index {A : Type} (l : list A) (i : Z) : option A :=
  if i <? 0 then None else nth_error l (Z.to_nat i).

Definition cube_addCell (c : cube) : option cube :=
  center <- index (centers c) (ccnt (cube_box c) - 1) ;;
  Some (cube_set_cells (cells c ++ [small_cell c center]) c).

(** [c.cells[last-1]] panics on an empty list. *)
Definition cube_removeCell (c : cube) : option cube :=
  match cells c with
  | [] => None
  | _ :: _ => Some (cube_set_cells (removelast (cells c)) c)
  end.

(** [for len(c.cells) > 0 { c.removeCell() }]; the loop runs at most
    [len(c.cells)] times, which is the fuel. *)
Fixpoint cube_trash_loop (fuel : nat) (c : cube) : option cube :=
  match fuel with
  | O => Some c
  | S fuel' =>
      if (0 <? Z.of_nat (length (cells c))) then
        c1 <- cube_removeCell c ;; cube_trash_loop fuel' c1
      else Some c
  end.

Definition cube_trash (c : cube) : option cube :=
  cube_trash_loop (length (cells c)) c.

Definition cube_merge (c : cube) : option cube :=
  c1 <- cube_trash c ;;
  Some (cube_set_cells (cells c1 ++ [merged_cell c1]) c1).

#[export] Instance cube_Box : Box cube := {
  box := cube_box;
  set_ccnt := cube_set_ccnt;
  mergec := cube_merge;
  trashc := cube_trash;
  addc := cube_addCell;
  remc := cube_removeCell }.

Definition newCube (x y z cubeSize : Q) : cube :=
  let qs := (cubeSize * (1 # 4))%Q in
  mkCube []
    [ mkV3 (x - qs) (y - qs) (z - qs);
      mkV3 (x - qs) (y - qs) (z + qs);
      mkV3 (x - qs) (y + qs) (z - qs);
      mkV3 (x - qs) (y + qs) (z + qs);
      mkV3 (x + qs) (y - qs) (z - qs);
      mkV3 (x + qs) (y - qs) (z + qs);
      mkV3 (x + qs) (y + qs) (z - qs);
      mkV3 (x + qs) (y + qs) (z + qs) ]%Q
    (mkCbox 0 8 x y z cubeSize).

(** *** The two orderings of the cell centers *)

Definition csort_Dtoc (v : V3) : Q :=
  (X v * X v + Y v * Y v + Z3 v * Z3 v)%Q.

Definition csort_Less (a b : V3) : bool := Qltb (csort_Dtoc a) (csort_Dtoc b).

Definition ssort_Dtoc (x y z : Q) (v : V3) : Q :=
  let normal := mkV3 x y z in
  let dot := Dot v normal in
  let dx := (X normal * dot)%Q in
  let dy := (Y normal * dot)%Q in
  let dz := (Z3 normal * dot)%Q in
  (dx * dx + dy * dy + dz * dz)%Q.

Definition ssort_Less (x y z : Q) (a b : V3) : bool :=
  Qltb (ssort_Dtoc x y z a) (ssort_Dtoc x y z b).

(** ** block *)

Record block := mkBlock {
  block_lvl : Z;
  slab : option Part;
  cubes : list cube;
  block_box : cbox }.

Definition block_set_slab (s : option Part) (b : block) : block :=
  mkBlock (block_lvl b) s (cubes b) (block_box b).

Definition block_set_cubes (l : list cube) (b : block) : block :=
  mkBlock (block_lvl b) (slab b) l (block_box b).

Definition block_set_box (x : cbox) (b : block) : block :=
  mkBlock (block_lvl b) (slab b) (cubes b) x.

Definition block_set_ccnt (n : Z) (b : block) : block :=
  block_set_box (cbox_set_ccnt n (block_box b)) b.

(** The inner loop of [addCell]: attach to the first cube whose count is
    at most [addeven]; the flag tells whether one was found. *)
Fixpoint addCell_scan (addeven : Z) (cs : list cube) : option (list cube * bool) :=
  match cs with
  | [] => Some ([], false)
  | c :: cs' =>
      if ccnt (box c) <=? addeven then
        '(c1, _) <- attach c ;; Some (c1 :: cs', true)
      else
        '(cs1, found) <- addCell_scan addeven cs' ;; Some (c :: cs1, found)
  end.

(** The outer loop of [addCell], [fuel] rounds from [addeven] on.  When no
    round finds a cube the code only logs a message. *)
Fixpoint addCell_rounds (fuel : nat) (addeven : Z) (cs : list cube) : option (list cube) :=
  match fuel with
  | O => Some cs
  | S fuel' =>
      '(cs1, found) <- addCell_scan addeven cs ;;
      if found then Some cs1 else addCell_rounds fuel' (addeven + 1) cs1
  end.

(** [b.cubes[0].cmax] panics when the block has no cubes. *)
Definition block_addCell (b : block) : option block :=
  match cubes b with
  | [] => None
  | c0 :: _ =>
      cs <- addCell_rounds (Z.to_nat (cmax (box c0))) 0 (cubes b) ;;
      Some (block_set_cubes cs b)
  end.

Fixpoint removeCell_scan (cs : list cube) : option (list cube) :=
  match cs with
  | [] => Some []
  | c :: cs' =>
      '(c1, done) <- detach c ;;
      if done then Some (c1 :: cs')
      else cs1 <- removeCell_scan cs' ;; Some (c1 :: cs1)
  end.

Definition block_removeCell (b : block) : option block :=
  cs <- removeCell_scan (cubes b) ;; Some (block_set_cubes cs b).

Fixpoint reset_cubes (cs : list cube) : option (list cube) :=
  match cs with
  | [] => Some []
  | c :: cs' => c1 <- reset 0 c ;; cs1 <- reset_cubes cs' ;; Some (c1 :: cs1)
  end.

Definition block_trash (b : block) : option block :=
  let b1 := match slab b with Some _ => block_set_slab None b | None => b end in
  cs <- reset_cubes (cubes b1) ;;
  Some (block_set_cubes cs b1).

Definition block_merge (b : block) : option block :=
  b1 <- block_trash b ;;
  let x := block_box b1 in
  let p := SetFacade "flat" "cube" "blue"
             (SetLocation (cx x) (cy x) (cz x) AddPart) in
  let s := (inject_Z (isub (block_lvl b1) 1) * csize x)%Q in
  let p :=
    if (Qltb (cy x) (cx x) && Qltb (cz x) (cx x)) || (Qltb (cx x) (cy x) && Qltb (cx x) (cz x))
    then SetScale (csize x) s s p
    else if (Qltb (cx x) (cy x) && Qltb (cz x) (cy x)) || (Qltb (cy x) (cx x) && Qltb (cy x) (cz x))
    then SetScale s (csize x) s p
    else if (Qltb (cx x) (cz x) && Qltb (cy x) (cz x)) || (Qltb (cz x) (cx x) && Qltb (cz x) (cy x))
    then SetScale s s (csize x) p
    else p in
  Some (block_set_slab (Some p) b1).

#[export] Instance block_Box : Box block := {
  box := block_box;
  set_ccnt := block_set_ccnt;
  mergec := block_merge;
  trashc := block_trash;
  addc := block_addCell;
  remc := block_removeCell }.

Definition newBlock (x y z : Q) (level : Z) : block :=
  mkBlock level None []
    (mkCbox 0 (imul (imul (isub level 1) (isub level 1)) 8) x y z 0).

(** ** The callers of sort.Sort *)

Section GoSort.

(** [sort.Sort] applied to a slice of centers, with the [Less] method of
    the sorted value given on the elements. *)
Variable gosort : (V3 -> V3 -> bool) -> list V3 -> list V3.

Definition edgeSort (startCount : Z) (c : cube) : option cube :=
  reset startCount (cube_set_centers (gosort csort_Less (centers c)) c).

Definition panelSort (rx ry rz : Q) (startCount : Z) (c : cube) : option cube :=
  reset startCount (cube_set_centers (gosort (ssort_Less rx ry rz) (centers c)) c).

Definition addCube (x y z cubeSize : Q) (b : block) : option block :=
  let b := block_set_box (cbox_set_csize cubeSize (block_box b)) b in
  let bx := block_box b in
  let c := newCube x y z (csize bx) in
  c1 <-
    (if (Qltb (cy bx) (cx bx) && Qltb (cz bx) (cx bx)) || (Qltb (cx bx) (cy bx) && Qltb (cx bx) (cz bx))
     then panelSort 1 0 0 4 c
     else if (Qltb (cx bx) (cy bx) && Qltb (cz bx) (cy bx)) || (Qltb (cy bx) (cx bx) && Qltb (cy bx) (cz bx))
     then panelSort 0 1 0 4 c
     else if (Qltb (cx bx) (cz bx) && Qltb (cy bx) (cz bx)) || (Qltb (cz bx) (cx bx) && Qltb (cz bx) (cy bx))
     then panelSort 0 0 1 4 c
     else Some c) ;;
  Some (block_set_cubes (cubes b ++ [c1]) (block_set_ccnt (iadd (ccnt bx) 4) b)).

End GoSort.

(** ** trooper *)

(** A value of the interface [box]: a [*cube] or a [*block]. *)
Inductive bit :=
| BCube (c : cube)
| BBlock (b : block).

Definition bit_box (b : bit) : cbox :=
  match b with BCube c => box c | BBlock p => box p end.

Definition bit_attach (b : bit) : option (bit * bool) :=
  match b with
  | BCube c => '(c1, r) <- attach c ;; Some (BCube c1, r)
  | BBlock p => '(p1, r) <- attach p ;; Some (BBlock p1, r)
  end.

Definition bit_detach (b : bit) : option (bit * bool) :=
  match b with
  | BCube c => '(c1, r) <- detach c ;; Some (BCube c1, r)
  | BBlock p => '(p1, r) <- detach p ;; Some (BBlock p1, r)
  end.

Definition bit_trash (b : bit) : option bit :=
  match b with
  | BCube c => c1 <- cube_trash c ;; Some (BCube c1)
  | BBlock p => p1 <- block_trash p ;; Some (BBlock p1)
  end.

Definition bit_reset (count : Z) (b : bit) : option bit :=
  match b with
  | BCube c => c1 <- reset count c ;; Some (BCube c1)
  | BBlock p => p1 <- reset count p ;; Some (BBlock p1)
  end.

Record trooper := mkTrooper {
  lvl : Z;
  neo : option Part;
  bits : list bit;
  center : option Part;
  mid : Z }.

Definition trooper_set_bits (l : list bit) (tr : trooper) : trooper :=
  mkTrooper (lvl tr) (neo tr) l (center tr) (mid tr).

Definition trooper_set_neo (p : option Part) (tr : trooper) : trooper :=
  mkTrooper (lvl tr) p (bits tr) (center tr) (mid tr).

Definition trooper_set_center (p : option Part) (tr : trooper) : trooper :=
  mkTrooper (lvl tr) (neo tr) (bits tr) p (mid tr).

(** The level transitions that [attach] and [detach] end in when no bit
    takes the cell: one entry per call of [evolve()] or [devolve()]. *)
Inductive signal := Evolve | Devolve.

Definition addCenter (tr : trooper) : trooper :=
  if lvl tr >? 0 then
    let cubeSize := (1 / inject_Z (iadd (lvl tr) 1))%Q in
    let s := (inject_Z (isub (lvl tr) 1) * cubeSize * (9 # 10))%Q in
    trooper_set_center
      (Some (SetFacade "flat" "cube" "red" (SetScale s s s AddPart))) tr
  else tr.

Definition health (tr : trooper) : Z :=
  fold_left (fun total b => iadd total (ccnt (bit_box b))) (bits tr) 0.

Fixpoint trash_bits (bs : list bit) : option (list bit) :=
  match bs with
  | [] => Some []
  | b :: bs' => b1 <- bit_trash b ;; bs1 <- trash_bits bs' ;; Some (b1 :: bs1)
  end.

Definition trooper_trash (tr : trooper) : option trooper :=
  bs <- trash_bits (bits tr) ;;
  Some (trooper_set_neo None (trooper_set_center None (trooper_set_bits bs tr))).

Definition trooper_merge (tr : trooper) : option trooper :=
  tr1 <- trooper_trash tr ;;
  Some (addCenter
          (trooper_set_neo (Some (SetFacade "flat" "cube" "blue" AddPart)) tr1)).

Definition evolve (tr : trooper) : option trooper :=
  match neo tr with
  | None => trooper_merge tr
  | Some _ => Some tr
  end.

Definition devolve (tr : trooper) : option trooper := Some tr.

(** [for _, b := range tr.bits { if b.attach() { return } }]; the flag
    tells whether some bit took the cell. *)
Fixpoint attach_scan (bs : list bit) : option (list bit * bool) :=
  match bs with
  | [] => Some ([], false)
  | b :: bs' =>
      '(b1, done) <- bit_attach b ;;
      if done then Some (b1 :: bs', true)
      else '(bs1, r) <- attach_scan bs' ;; Some (b1 :: bs1, r)
  end.

Definition trooper_attach (tr : trooper) : option (trooper * list signal) :=
  '(bs, done) <- attach_scan (bits tr) ;;
  let tr1 := trooper_set_bits bs tr in
  if done then Some (tr1, [])
  else tr2 <- evolve tr1 ;; Some (tr2, [Evolve]).

Fixpoint detach_scan (bs : list bit) : option (list bit * bool) :=
  match bs with
  | [] => Some ([], false)
  | b :: bs' =>
      '(b1, done) <- bit_detach b ;;
      if done then Some (b1 :: bs', true)
      else '(bs1, r) <- detach_scan bs' ;; Some (b1 :: bs1, r)
  end.

Fixpoint reset_bits (bs : list bit) : option (list bit) :=
  match bs with
  | [] => Some []
  | b :: bs' =>
      b1 <- bit_reset (cmax (bit_box b)) b ;;
      bs1 <- reset_bits bs' ;; Some (b1 :: bs1)
  end.

Definition demerge (tr : trooper) : option trooper :=
  tr1 <- trooper_trash tr ;;
  let tr2 := addCenter tr1 in
  bs <- reset_bits (bits tr2) ;;
  match bs with
  | [] => None
  | b :: bs' => '(b1, _) <- bit_detach b ;; Some (trooper_set_bits (b1 :: bs') tr2)
  end.

Definition trooper_detach (tr : trooper) : option (trooper * list signal) :=
  match neo tr with
  | Some _ => tr1 <- demerge tr ;; Some (tr1, [])
  | None =>
      '(bs, done) <- detach_scan (bits tr) ;;
      let tr1 := trooper_set_bits bs tr in
      if done then Some (tr1, [])
      else tr2 <- devolve tr1 ;; Some (tr2, [Devolve])
  end.

(** [n] calls of [attach] in a row, with the signals they raised. *)
Fixpoint grow (n : nat) (tr : trooper) : option (trooper * list signal) :=
  match n with
  | O => Some (tr, [])
  | S n' =>
      '(tr1, s1) <- trooper_attach tr ;;
      '(tr2, s2) <- grow n' tr1 ;;
      Some (tr2, s1 ++ s2)
  end.

(** Every part the trooper owns, directly or through its bits. *)
Definition opt_part (p : option Part) : list Part :=
  match p with Some x => [x] | None => [] end.

Definition block_parts (b : block) : list Part :=
  opt_part (slab b) ++ flat_map cells (cubes b).

Definition bit_parts (b : bit) : list Part :=
  match b with BCube c => cells c | BBlock p => block_parts p end.

Definition trooper_parts (tr : trooper) : list Part :=
  opt_part (neo tr) ++ opt_part (center tr) ++ flat_map bit_parts (bits tr).

(** A loop [for i := i0; ...; i++ { body; m += 2 }] that runs [n] times. *)
Fixpoint for_lattice {S : Type} (n : nat) (body : Z -> Q -> S -> option S)
    (i : Z) (m : Q) (s : S) : option S :=
  match n with
  | O => Some s
  | S n' => s1 <- body i m s ;; for_lattice n' body (i + 1) (m + 2)%Q s1
  end.

Fixpoint list_set {A : Type} (k : nat) (x : A) (l : list A) : list A :=
  match l, k with
  | [], _ => []
  | _ :: l', O => x :: l'
  | y :: l', S k' => y :: list_set k' x l'
  end.

(** A method call on [tr.bits[k]] asserted to be a block: the index and
    the type assertion can panic. *)
Definition with_panel (k : nat) (f : block -> option block) (tr : trooper) : option trooper :=
  match nth_error (bits tr) k with
  | Some (BBlock b) =>
      b1 <- f b ;; Some (trooper_set_bits (list_set k (BBlock b1) (bits tr)) tr)
  | _ => None
  end.

Section GoSortTrooper.

Variable gosort : (V3 -> V3 -> bool) -> list V3 -> list V3.

(** The body of the innermost loop of [newTrooper]. *)
Definition place (level : Z) (cubeSize centerOffset : Q)
    (cx cy cz : Z) (mx my mz : Q) (tr : trooper) : option trooper :=
  let edge c := (c =? 0) || (c =? level) in
  let x := (mx * centerOffset)%Q in
  let y := (my * centerOffset)%Q in
  let z := (mz * centerOffset)%Q in
  '(tr1, newCells) <-
    (if edge cx && edge cy && edge cz then Some (tr, 1)
     else if (edge cx && edge cy) || (edge cx && edge cz) || (edge cy && edge cz)
     then Some (tr, 2)
     else if (cx =? 0) || (cx =? level) || (cy =? 0) || (cy =? level)
             || (cz =? 0) || (cz =? level)
     then
       tr1 <-
         (if (cx =? level) && Qltb y x && Qltb z x
          then with_panel 0 (addCube gosort x y z cubeSize) tr
          else if (cx =? 0) && Qltb x y && Qltb x z
          then with_panel 1 (addCube gosort x y z cubeSize) tr
          else if (cy =? level) && Qltb x y && Qltb z y
          then with_panel 2 (addCube gosort x y z cubeSize) tr
          else if (cy =? 0) && Qltb y x && Qltb y z
          then with_panel 3 (addCube gosort x y z cubeSize) tr
          else if (cz =? level) && Qltb x z && Qltb y z
          then with_panel 4 (addCube gosort x y z cubeSize) tr
          else if (cz =? 0) && Qltb z x && Qltb z y
          then with_panel 5 (addCube gosort x y z cubeSize) tr
          else Some tr) ;;
       Some (tr1, 0)
     else Some (tr, 0)) ;;
  if newCells >? 0 then
    cube <- edgeSort gosort newCells (newCube x y z cubeSize) ;;
    Some (trooper_set_bits (bits tr1 ++ [BCube cube]) tr1)
  else Some tr1.

Definition newTrooper (level : Z) : option trooper :=
  let l3 := imul (imul level level) level in
  let p := isub level 1 in
  let p3 := imul (imul p p) p in
  let tr := mkTrooper level None [] None (isub (imul l3 8) (imul p3 8)) in
  if lvl tr =? 0 then
    cube <- edgeSort gosort 1 (newCube 0 0 0 1) ;;
    Some (trooper_set_bits (bits tr ++ [BCube cube]) tr)
  else
    let cubeSize := (1 / inject_Z (iadd (lvl tr) 1))%Q in
    let centerOffset := (cubeSize * (1 # 2))%Q in
    let panelCenter := (inject_Z (lvl tr) * centerOffset)%Q in
    let tr := trooper_set_bits
      (bits tr ++
       [ BBlock (newBlock panelCenter 0 0 (lvl tr));
         BBlock (newBlock (- panelCenter) 0 0 (lvl tr));
         BBlock (newBlock 0 panelCenter 0 (lvl tr));
         BBlock (newBlock 0 (- panelCenter) 0 (lvl tr));
         BBlock (newBlock 0 0 panelCenter (lvl tr));
         BBlock (newBlock 0 0 (- panelCenter) (lvl tr)) ]) tr in
    let n := Z.to_nat (lvl tr + 1) in
    let start := inject_Z (- lvl tr) in
    tr1 <-
      for_lattice n (fun cx mx =>
        for_lattice n (fun cy my =>
          for_lattice n (fun cz mz =>
            place (lvl tr) cubeSize centerOffset cx cy cz mx my mz)
            0 start)
          0 start)
        0 start tr ;;
    Some (addCenter tr1).

End GoSortTrooper.

(** ** An instance of sort.Sort: insertion sort

    The sort of Go's library for short slices in recent releases; it is
    used where a run of the program has to be evaluated. *)

Fixpoint insert (less : V3 -> V3 -> bool) (v : V3) (l : list V3) : list V3 :=
  match l with
  | [] => [v]
  | w :: l' => if less v w then v :: l else w :: insert less v l'
  end.

Definition insertion_sort (less : V3 -> V3 -> bool) (l : list V3) : list V3 :=
  fold_left (fun acc v => insert less v acc) l [].

(** A second instance: one Shell pass of gap 6, then insertion sort, as
    earlier releases of Go's library sorted slices of at most 12 elements:
    [for i := a + 6; i < b; i++ { if Less(i, i-6) { Swap(i, i-6) } }]. *)
Fixpoint gap_swap (less : V3 -> V3 -> bool) (a b : list V3) : list V3 * list V3 :=
  match a, b with
  | x :: a', y :: b' =>
      let (a1, b1) := gap_swap less a' b' in
      if less y x then (y :: a1, x :: b1) else (x :: a1, y :: b1)
  | _, _ => (a, b)
  end.

Definition shell_pass (less : V3 -> V3 -> bool) (l : list V3) : list V3 :=
  let (a, b) := gap_swap less (firstn 6 l) (skipn 6 l) in a ++ b.

Definition shell_insertion_sort (less : V3 -> V3 -> bool) (l : list V3) : list V3 :=
  insertion_sort less (shell_pass less l).

(** ** What sort.Sort promises

    [Less] has to be a strict weak order; the result is then a permutation
    of the slice (only [Swap] changes it) in ascending order.  The library
    states that the sort is not guaranteed to be stable. *)

Definition strict_weak (less : V3 -> V3 -> bool) : Prop :=
  (forall a b, less a b = true -> less b a = false) /\
  (forall a b c, less a b = false -> less b c = false -> less a c = false).

Definition ascending (less : V3 -> V3 -> bool) (l : list V3) : Prop :=
  StronglySorted (fun a b => less b a = false) l.

Definition sort_permutes (gosort : (V3 -> V3 -> bool) -> list V3 -> list V3) : Prop :=
  forall less l, Permutation l (gosort less l).

Definition sort_contract (gosort : (V3 -> V3 -> bool) -> list V3 -> list V3) : Prop :=
  sort_permutes gosort /\
  (forall less l, strict_weak less -> ascending less (gosort less l)).

(** Stability: the elements of each key keep their input order. *)
Definition stable (key : V3 -> Q) (l out : list V3) : Prop :=
  forall d : Q,
    filter (fun v => Qeq_bool (key v) d) out = filter (fun v => Qeq_bool (key v) d) l.

(** ** Well-formed nodes *)

(** What the four function fields of an owner guarantee on the states
    [Inv] of that owner: they run without panic where [attach], [detach]
    and [reset] call them, they leave the embedded [cbox] alone, and they
    keep [Inv]. *)
Record BoxLaws {T : Type} `{Box T} (Inv : T -> Prop) : Prop := {
  law_range : forall c, Inv c -> 0 <= ccnt (box c) <= cmax (box c);
  law_set_ccnt : forall n c, box (set_ccnt n c) = cbox_set_ccnt n (box c);
  law_mergec : forall c, Inv c ->
    ccnt (box c) + 1 = cmax (box c) ->
    exists c', mergec (set_ccnt (ccnt (box c) + 1) c) = Some c' /\
               box c' = box (set_ccnt (ccnt (box c) + 1) c) /\ Inv c';
  law_addc : forall c, Inv c ->
    ccnt (box c) + 1 < cmax (box c) ->
    exists c', addc (set_ccnt (ccnt (box c) + 1) c) = Some c' /\
               box c' = box (set_ccnt (ccnt (box c) + 1) c) /\ Inv c';
  law_remc : forall c, Inv c ->
    0 < ccnt (box c) < cmax (box c) ->
    exists c', remc c = Some c' /\ box c' = box c /\
               Inv (set_ccnt (ccnt (box c') - 1) c');
  law_trashc : forall c, Inv c ->
    exists c', trashc c = Some c' /\ box c' = box c /\ Inv (set_ccnt 0 c') }.

(** The cells a cube with count [n] shows: the merged cell when it is
    full, the first [n] small cells otherwise. *)
Definition cube_cells (c : cube) (n : Z) : list Part :=
  if n =? cmax (box c) then [merged_cell c]
  else map (small_cell c) (firstn (Z.to_nat n) (centers c)).

Definition cube_ok (c : cube) : Prop :=
  cmax (box c) = 8 /\ length (centers c) = 8%nat /\
  0 <= ccnt (box c) <= 8 /\ cells c = cube_cells c (ccnt (box c)).

(** A block whose cubes are well formed; [addCell] reads [cubes[0]], so a
    block that can take more than one cell has a cube; the slab exists only
    on a full block. *)
Definition block_ok (b : block) : Prop :=
  0 <= ccnt (box b) <= cmax (box b) /\
  Forall cube_ok (cubes b) /\
  (cubes b = [] -> cmax (box b) <= 1) /\
  (ccnt (box b) < cmax (box b) -> slab b = None).

(** The operations of a node, and a run of them. *)
Inductive op := Attach | Detach | Reset (cellCount : Z).

Definition step {T : Type} `{Box T} (o : op) (c : T) : option T :=
  match o with
  | Attach => '(c1, _) <- attach c ;; Some c1
  | Detach => '(c1, _) <- detach c ;; Some c1
  | Reset k => reset k c
  end.

Fixpoint run {T : Type} `{Box T} (os : list op) (c : T) : option T :=
  match os with
  | [] => Some c
  | o :: os' => c1 <- step o c ;; run os' c1
  end.

(** *** The contracts of the three operations

    They are stated once, for any owner, and proved of cubes and of
    blocks. *)

(** [attach] refuses exactly the full node; otherwise it adds one to the
    count and runs [mergec] when the new count is [cmax], [addc] when it is
    not. *)
Definition attach_contract {T : Type} `{Box T} (c : T) : Prop :=
  ((exists c', attach c = Some (c', false)) <-> ccnt (box c) = cmax (box c)) /\
  (ccnt (box c) = cmax (box c) -> attach c = Some (c, false)) /\
  (ccnt (box c) < cmax (box c) ->
     exists c', attach c = Some (c', true) /\
       ccnt (box c') = ccnt (box c) + 1 /\ cmax (box c') = cmax (box c) /\
       (ccnt (box c') = cmax (box c') ->
          mergec (set_ccnt (ccnt (box c) + 1) c) = Some c') /\
       (ccnt (box c') <> cmax (box c') ->
          addc (set_ccnt (ccnt (box c) + 1) c) = Some c')).

(** [detach] refuses exactly the empty node; on a full node it is
    [reset (cmax - 1)] and leaves [cmax - 1] cells. *)
Definition detach_contract {T : Type} `{Box T} (c : T) : Prop :=
  ((exists c', detach c = Some (c', false)) <-> ccnt (box c) = 0) /\
  (ccnt (box c) = cmax (box c) ->
     exists c', detach c = Some (c', true) /\
       reset (cmax (box c) - 1) c = Some c' /\
       ccnt (box c') = cmax (box c) - 1 /\ cmax (box c') = cmax (box c)).

(** [detach] as the code has it on every node, the empty ones of capacity
    zero included: it refuses exactly the empty node and leaves it as it
    is; on a full node that holds a cell it is [reset (cmax - 1)] and
    leaves [cmax - 1] cells. *)
Definition detach_rule {T : Type} `{Box T} (c : T) : Prop :=
  ((exists c', detach c = Some (c', false)) <-> ccnt (box c) = 0) /\
  (ccnt (box c) = 0 -> detach c = Some (c, false)) /\
  (0 < ccnt (box c) -> ccnt (box c) = cmax (box c) ->
     exists c', detach c = Some (c', true) /\
       reset (cmax (box c) - 1) c = Some c' /\
       ccnt (box c') = cmax (box c) - 1 /\ cmax (box c') = cmax (box c)).

(** [reset k] empties the node with [trashc], zeroes the count and calls
    [attach] once per cell of the clamped target. *)
Definition reset_contract {T : Type} `{Box T} (k : Z) (c : T) : Prop :=
  exists c1 c',
    trashc c = Some c1 /\
    reset k c = Some c' /\
    attach_times (Z.to_nat (Z.min k (cmax (box c)))) (set_ccnt 0 c1) = Some c' /\
    ccnt (box c') = Z.max 0 (Z.min k (cmax (box c))) /\
    cmax (box c') = cmax (box c).

(** What a cube shows for its count: below 8, exactly its first [ccnt]
    small cells; at 8, exactly the merged cell. *)
Definition shows_count (c : cube) : Prop :=
  (ccnt (box c) < 8 ->
     cells c = map (small_cell c) (firstn (Z.to_nat (ccnt (box c))) (centers c)) /\
     Z.of_nat (length (cells c)) = ccnt (box c)) /\
  (ccnt (box c) = 8 -> cells c = [merged_cell c]).

(** A cube that shows its count now and after the run [os], and that
    [trash] then strips of every cell without touching the count. *)
Definition keeps_showing (os : list op) (c0 : cube) : Prop :=
  shows_count c0 /\
  exists c, run os c0 = Some c /\ shows_count c /\
    cube_trash c = Some (cube_set_cells [] c).

(** *** Counting the cubes that [newTrooper] hands to the panels *)

(** The three-way test of [addCube] and [merge] on the center of a block:
    one of the axes dominates. *)
Definition dominant (bx : cbox) : bool :=
  ((Qltb (cy bx) (cx bx) && Qltb (cz bx) (cx bx)) || (Qltb (cx bx) (cy bx) && Qltb (cx bx) (cz bx)))
  || ((Qltb (cx bx) (cy bx) && Qltb (cz bx) (cy bx)) || (Qltb (cy bx) (cx bx) && Qltb (cy bx) (cz bx)))
  || ((Qltb (cx bx) (cz bx) && Qltb (cy bx) (cz bx)) || (Qltb (cz bx) (cx bx) && Qltb (cz bx) (cy bx))).

(** A lattice coordinate strictly between the two faces. *)
Definition inner (level c : Z) : bool := (0 <? c) && (c <? level).

(** The lattice points that go to panel [k]: one test per coordinate. *)
Definition panel_tests (level : Z) (k : nat) : (Z -> bool) * (Z -> bool) * (Z -> bool) :=
  match k with
  | 0%nat => (fun c => c =? level, inner level, inner level)
  | 1%nat => (fun c => c =? 0, inner level, inner level)
  | 2%nat => (inner level, fun c => c =? level, inner level)
  | 3%nat => (inner level, fun c => c =? 0, inner level)
  | 4%nat => (inner level, inner level, fun c => c =? level)
  | 5%nat => (inner level, inner level, fun c => c =? 0)
  | _ => (fun _ => false, fun _ => false, fun _ => false)
  end.

Definition hit (level : Z) (k : nat) (cx cy cz : Z) : Z :=
  let '(A, B, C) := panel_tests level k in
  if A cx && B cy && C cz then 1 else 0.

(** [g i + g (i+1) + ... + g (i+n-1)], in the order of [for_lattice]. *)
Fixpoint sumz (g : Z -> Z) (i : Z) (n : nat) : Z :=
  match n with
  | O => 0
  | S n' => g i + sumz g (i + 1) n'
  end.

(** The state of a panel while [newTrooper] scans the lattice, after [n]
    cubes were added to it. *)
Definition panel_filling (level : Z) (n : Z) (b : block) : Prop :=
  cmax (box b) = 8 * (level - 1) ^ 2 /\
  ccnt (box b) = wrap (4 * n) /\
  dominant (box b) = true /\
  Z.of_nat (length (cubes b)) = n /\
  Forall (fun c => cube_ok c /\ ccnt (box c) = 4) (cubes b) /\
  slab b = None.

Definition panels_filling (level : Z) (cnt : nat -> Z) (tr : trooper) : Prop :=
  (forall k, (k < 6)%nat ->
     exists b, nth_error (bits tr) k = Some (BBlock b) /\
       panel_filling level (cnt k) b) /\
  (forall k b, nth_error (bits tr) k = Some (BBlock b) -> (k < 6)%nat).

(** *** Sample nodes

    The cube of the level 0 trooper before its first cell, and the +x panel
    of the level 2 trooper with its single cube. *)

Definition sample_cube : cube := newCube 0 0 0 1.

Definition sample_panel : block :=
  match addCube insertion_sort (1 # 3) 0 0 (1 # 3) (newBlock (1 # 3) 0 0 2) with
  | Some b => b
  | None => newBlock (1 # 3) 0 0 2
  end.

(** The same two nodes filled up: the cube after [reset 8], the panel
    after [reset 8], its capacity. *)
Definition full_cube : cube :=
  match reset 8 sample_cube with Some c => c | None => sample_cube end.

Definition full_panel : block :=
  match reset 8 sample_panel with Some b => b | None => sample_panel end.

(** ** Measures and shapes of a whole trooper *)

(** What [reset 0] leaves of a cube, [trash] of a block and of a bit. *)
Definition wipe_cube (c : cube) : cube := cube_set_ccnt 0 (cube_set_cells [] c).

Definition wipe_block (b : block) : block :=
  mkBlock (block_lvl b) None (map wipe_cube (cubes b)) (block_box b).

Definition wipe_bit (b : bit) : bit :=
  match b with
  | BCube c => BCube (cube_set_cells [] c)
  | BBlock p => BBlock (wipe_block p)
  end.

(** The counts and the capacities of a list of bits, and the counts of a
    list of cubes, added up in [Z]. *)
Definition sum_ccnt (bs : list bit) : Z :=
  fold_right (fun b s => ccnt (bit_box b) + s) 0 bs.

Definition sum_cmax (bs : list bit) : Z :=
  fold_right (fun b s => cmax (bit_box b) + s) 0 bs.

Definition cube_total (cs : list cube) : Z :=
  fold_right (fun c s => ccnt (box c) + s) 0 cs.

Definition bit_ok (b : bit) : Prop :=
  match b with BCube c => cube_ok c | BBlock p => block_ok p end.

(** What is left of a well-formed cube whatever its cells are: the
    capacity, the eight centers and a count within the bounds. *)
Definition cube_frame (c : cube) : Prop :=
  cmax (box c) = 8 /\ length (centers c) = 8%nat /\ 0 <= ccnt (box c) <= 8.

Definition bit_frame (b : bit) : Prop :=
  match b with BCube c => cube_frame c | BBlock p => block_ok p end.

Definition bit_full (b : bit) : Prop := ccnt (bit_box b) = cmax (bit_box b).

Definition bit_empty (b : bit) : Prop := ccnt (bit_box b) = 0.

(** A panel in step with its cubes: eight cells of capacity per cube; below
    capacity the count is the sum of the counts of the cubes and there is
    no slab; at capacity the cubes are empty and, unless the capacity is
    zero, the slab is there. *)
Definition block_sync (b : block) : Prop :=
  block_ok b /\
  cmax (box b) = 8 * Z.of_nat (length (cubes b)) /\
  (ccnt (box b) < cmax (box b) -> cube_total (cubes b) = ccnt (box b)) /\
  (ccnt (box b) = cmax (box b) ->
     Forall (fun c => ccnt (box c) = 0 /\ cells c = []) (cubes b) /\
     (0 < cmax (box b) -> slab b <> None)).

(** A lattice coordinate on one of the two faces. *)
Definition on_face (level c : Z) : bool := (c =? 0) || (c =? level).

(** The cells that the lattice point brings: 1 for a corner, 2 for an
    edge, 4 for the inside of a face (through [addCube]), 0 inside. *)
Definition gain (level cx cy cz : Z) : Z :=
  if on_face level cx && on_face level cy && on_face level cz then 1
  else if (on_face level cx && on_face level cy)
          || (on_face level cx && on_face level cz)
          || (on_face level cy && on_face level cz) then 2
  else if on_face level cx || on_face level cy || on_face level cz then 4
  else 0.

(** The bits that the lattice point appends: one for a corner or an edge. *)
Definition born (level cx cy cz : Z) : Z :=
  if (on_face level cx && on_face level cy)
     || (on_face level cx && on_face level cz)
     || (on_face level cy && on_face level cz) then 1
  else 0.

(** The state of the trooper while [newTrooper] scans the lattice: the
    panels as [panels_filling] has them under the indices 0 to 5, the cells
    of all bits under 6 (up to wrap-around), the number of bits under 7;
    every cube among the bits is well formed, and the other fields are
    those of the trooper [t0] that the scan started from. *)
Definition scanning (level : Z) (t0 : trooper) (cnt : nat -> Z) (tr : trooper) : Prop :=
  panels_filling level cnt tr /\
  (forall k c, nth_error (bits tr) k = Some (BCube c) -> cube_ok c) /\
  wrap (sum_ccnt (bits tr)) = wrap (cnt 6%nat) /\
  Z.of_nat (length (bits tr)) = cnt 7%nat /\
  trooper_set_bits [] tr = trooper_set_bits [] t0.

Definition tally (level : Z) (k : nat) (cx cy cz : Z) : Z :=
  hit level k cx cy cz
  + (if Nat.eqb k 6 then gain level cx cy cz else 0)
  + (if Nat.eqb k 7 then born level cx cy cz else 0).

(** Three nested sums over the lattice, in the order of the loops. *)
Definition sum3 (n : nat) (g : Z -> Z -> Z -> Z) : Z :=
  sumz (fun x => sumz (fun y => sumz (fun z => g x y z) 0 n) 0 n) 0 n.

(** The number of coordinates below [n] that pass a test, and a weighted
    sum of tests on the three coordinates. *)
Definition count_if (A : Z -> bool) (n : nat) : Z :=
  sumz (fun c => if A c then 1 else 0) 0 n.

Definition weigh (ws : list (Z * (Z -> bool) * (Z -> bool) * (Z -> bool)))
    (x y z : Z) : Z :=
  fold_right
    (fun p acc =>
       let '(w, A, B, C) := p in (if A x && B y && C z then w else 0) + acc)
    0 ws.

Definition weigh_total (n : nat)
    (ws : list (Z * (Z -> bool) * (Z -> bool) * (Z -> bool))) : Z :=
  fold_right
    (fun p acc =>
       let '(w, A, B, C) := p in
       w * (count_if A n * (count_if B n * count_if C n)) + acc)
    0 ws.

(** A trooper to try the operations on: level 1 and level 2, built with
    insertion sort. *)
Definition trooper_or_empty (o : option trooper) : trooper :=
  match o with Some tr => tr | None => mkTrooper 0 None [] None 0 end.

Definition trooper1 : trooper :=
  Eval vm_compute in trooper_or_empty (newTrooper insertion_sort 1).

Definition trooper2 : trooper :=
  Eval vm_compute in trooper_or_empty (newTrooper insertion_sort 2).

(** The +x panel of the level 3 trooper after one [attach]: four cubes of
    5, 4, 4 and 4 cells. *)
Definition panel3 : block := Eval vm_compute in
  match nth_error (bits (trooper_or_empty (newTrooper insertion_sort 3))) 0 with
  | Some (BBlock b) =>
      match attach b with Some (b1, _) => b1 | None => b end
  | _ => sample_panel
  end.

(** The level 1 trooper after 57 calls of [attach]: 56 fill its eight
    cubes, the last one collapses it. *)
Definition collapsed1 : trooper := Eval vm_compute in
  match grow 57 trooper1 with Some (tr, _) => tr | None => trooper1 end.

(** The two keys that [sgtag.attach] and [sgtag.detach] answer, and a
    series of key presses with the signals they raise. *)
Inductive key := Grow | Shrink.

Definition press (k : key) (tr : trooper) : option (trooper * list signal) :=
  match k with
  | Grow => trooper_attach tr
  | Shrink => trooper_detach tr
  end.

Fixpoint presses (ks : list key) (tr : trooper) : option (trooper * list signal) :=
  match ks with
  | [] => Some (tr, [])
  | k :: ks' =>
      '(tr1, s1) <- press k tr ;;
      '(tr2, s2) <- presses ks' tr1 ;;
      Some (tr2, s1 ++ s2)
  end.

(** A trooper between two key presses: it has bits; either it has no
    [neo] and its bits are well formed, or it is collapsed, with [neo],
    and its bits are full and keep their frame. *)
Definition trooper_ok (tr : trooper) : Prop :=
  bits tr <> [] /\
  ((neo tr = None /\ Forall bit_ok (bits tr)) \/
   (neo tr <> None /\ Forall bit_frame (bits tr) /\ Forall bit_full (bits tr))).

(** The part that [block.merge] starts from, before it sets a scale, and
    the width [(lvl - 1) * csize] that it gives a slab across its axis. *)
Definition slab_base (b : block) : Part :=
  SetFacade "flat" "cube" "blue"
    (SetLocation (cx (box b)) (cy (box b)) (cz (box b)) AddPart).

Definition slab_width (b : block) : Q :=
  (inject_Z (isub (block_lvl b) 1) * csize (box b))%Q.

(** Panel 0 of the level 2 trooper one cell short of its capacity. *)
Definition panel7 : block := Eval vm_compute in
  match reset 7 sample_panel with Some b => b | None => sample_panel end.

(** A panel whose cells are spread evenly over its [n] cubes, the fuller
    cubes first: with [k] cells in all, cube [i] holds [k / n] of them, and
    one more when [i < k mod n]. *)
Definition spread (b : block) : Prop :=
  forall i c, nth_error (cubes b) i = Some c ->
    ccnt (box c) =
      ccnt (box b) / Z.of_nat (length (cubes b))
      + (if Z.of_nat i <? ccnt (box b) mod Z.of_nat (length (cubes b)) then 1 else 0).

(** ** The reactions of sgtag

    The keys of [sg.reacts] as [Update] hands them to their reactions:
    [KP+] and [KP-] call [attach] and [detach] of the trooper, a digit from
    0 to 5 calls [setTr] with the number of updates the key has been down,
    and the other keys (W, A, S, D and P) move the camera, spin the part of
    the trooper or log its health, and leave the fields modelled here as
    they are. *)
Inductive digit := D0 | D1 | D2 | D3 | D4 | D5.

Definition digit_level (d : digit) : Z :=
  match d with D0 => 0 | D1 => 1 | D2 => 2 | D3 => 3 | D4 => 4 | D5 => 5 end.

Inductive event := KPplus | KPminus | Digit (d : digit) (down : Z) | OtherKey.

Section GoSortSession.

Variable gosort : (V3 -> V3 -> bool) -> list V3 -> list V3.

(** [sg.tr = newTrooper(sg.eng, sg.scene, 1)] in [create]. *)
Definition create : option trooper := newTrooper gosort 1.

Definition setTr (down lvl : Z) (tr : trooper) : option trooper :=
  if down =? 1 then
    old <- trooper_trash tr ;; newTrooper gosort lvl
  else Some tr.

Definition react (e : event) (tr : trooper) : option trooper :=
  match e with
  | KPplus => '(tr1, _) <- trooper_attach tr ;; Some tr1
  | KPminus => '(tr1, _) <- trooper_detach tr ;; Some tr1
  | Digit d down => setTr down (digit_level d) tr
  | OtherKey => Some tr
  end.

Fixpoint updates (es : list event) (tr : trooper) : option trooper :=
  match es with
  | [] => Some tr
  | e :: es' => tr1 <- react e tr ;; updates es' tr1
  end.

End GoSortSession.

(** The capacity of a trooper of the given level. *)
Definition capacity (level : Z) : Z :=
  if level =? 0 then 8 else 48 * level ^ 2 + 16.

(** * Properties *)

(** ** The state machine, for any owner that keeps the laws *)

Section CboxTheory.
Context {T : Type} `{Box T} (Inv : T -> Prop) (L : BoxLaws Inv).

Lemma box_set_ccnt n c :
  ccnt (box (set_ccnt n c)) = n /\ cmax (box (set_ccnt n c)) = cmax (box c).
Proof. rewrite (law_set_ccnt Inv L). split; reflexivity. Qed.

Lemma attach_full c :
  Inv c -> ccnt (box c) = cmax (box c) -> attach c = Some (c, false).
Proof.
  intros Hi Hc. unfold attach.
  replace (ccnt (box c) <? cmax (box c)) with false
    by (symmetry; apply Z.ltb_ge; lia).
  rewrite andb_false_r. reflexivity.
Qed.

Lemma attach_room c :
  Inv c -> ccnt (box c) < cmax (box c) ->
  exists c', attach c = Some (c', true) /\
    box c' = cbox_set_ccnt (ccnt (box c) + 1) (box c) /\ Inv c' /\
    (if ccnt (box c) + 1 =? cmax (box c)
     then mergec (set_ccnt (ccnt (box c) + 1) c) = Some c'
     else addc (set_ccnt (ccnt (box c) + 1) c) = Some c').
Proof.
  intros Hi Hc. pose proof (law_range Inv L c Hi) as Hr. unfold attach.
  replace (0 <=? ccnt (box c)) with true by (symmetry; apply Z.leb_le; lia).
  replace (ccnt (box c) <? cmax (box c)) with true
    by (symmetry; apply Z.ltb_lt; lia).
  cbn [andb].
  destruct (box_set_ccnt (ccnt (box c) + 1) c) as [E1 E2]. rewrite E1, E2.
  destruct (ccnt (box c) + 1 =? cmax (box c)) eqn:E.
  - apply Z.eqb_eq in E.
    destruct (law_mergec Inv L c Hi E) as (c' & Hm & Hb & Hi').
    rewrite Hm. exists c'. rewrite Hb, (law_set_ccnt Inv L). auto.
  - apply Z.eqb_neq in E.
    destruct (law_addc Inv L c Hi ltac:(lia)) as (c' & Hm & Hb & Hi').
    rewrite Hm. exists c'. rewrite Hb, (law_set_ccnt Inv L). auto.
Qed.

Lemma attach_inv c :
  Inv c -> exists c' r, attach c = Some (c', r) /\ Inv c' /\
    cmax (box c') = cmax (box c) /\
    ccnt (box c') = (if r then ccnt (box c) + 1 else ccnt (box c)) /\
    (r = false <-> ccnt (box c) = cmax (box c)).
Proof.
  intros Hi. pose proof (law_range Inv L c Hi) as Hr.
  destruct (Z.eq_dec (ccnt (box c)) (cmax (box c))) as [E | E].
  - exists c, false. rewrite (attach_full c Hi E). tauto.
  - destruct (attach_room c Hi ltac:(lia)) as (c' & Ha & Hb & Hi' & _).
    exists c', true. rewrite Ha, Hb. cbn.
    repeat split; auto; try discriminate. intros; lia.
Qed.

Lemma attach_times_room n c :
  Inv c -> ccnt (box c) + Z.of_nat n <= cmax (box c) ->
  exists c', attach_times n c = Some c' /\ Inv c' /\
    box c' = cbox_set_ccnt (ccnt (box c) + Z.of_nat n) (box c).
Proof.
  revert c. induction n as [| n IH]; intros c Hi Hn.
  - exists c. cbn. rewrite Z.add_0_r. destruct (box c); auto.
  - destruct (attach_room c Hi ltac:(lia)) as (c1 & Ha & Hb & Hi1 & _).
    cbn [attach_times]. rewrite Ha.
    destruct (IH c1 Hi1) as (c' & Ht & Hi' & Hb').
    { rewrite Hb. cbn. lia. }
    exists c'. split; [exact Ht | split; [exact Hi' |]].
    rewrite Hb', Hb. unfold cbox_set_ccnt. cbn. f_equal. lia.
Qed.

Lemma reset_inv k c :
  Inv c ->
  exists c', reset k c = Some c' /\ Inv c' /\
    box c' = cbox_set_ccnt (Z.max 0 (Z.min k (cmax (box c)))) (box c).
Proof.
  intros Hi. pose proof (law_range Inv L c Hi) as Hr.
  destruct (law_trashc Inv L c Hi) as (c1 & Ht & Hb & Hi1).
  unfold reset. rewrite Ht.
  destruct (box_set_ccnt 0 c1) as [E1 E2]. rewrite E2, Hb.
  set (k' := if k >? cmax (box c) then cmax (box c) else k).
  assert (Hk : Z.of_nat (Z.to_nat k') = Z.max 0 (Z.min k (cmax (box c)))).
  { unfold k'. destruct (Z.gtb_spec k (cmax (box c))); lia. }
  destruct (attach_times_room (Z.to_nat k') (set_ccnt 0 c1) Hi1)
    as (c' & Ha & Hi' & Hb').
  { rewrite E1, E2, Hb. lia. }
  exists c'. rewrite Ha, Hb', E1, (law_set_ccnt Inv L), Hb, Hk.
  repeat split; auto.
Qed.

Lemma detach_empty c :
  Inv c -> ccnt (box c) = 0 -> detach c = Some (c, false).
Proof.
  intros Hi Hc. unfold detach. rewrite Hc. reflexivity.
Qed.

Lemma detach_full c :
  Inv c -> 0 < ccnt (box c) -> ccnt (box c) = cmax (box c) ->
  exists c', detach c = Some (c', true) /\
    reset (cmax (box c) - 1) c = Some c' /\ Inv c' /\
    box c' = cbox_set_ccnt (cmax (box c) - 1) (box c).
Proof.
  intros Hi Hp Hc. unfold detach.
  replace (ccnt (box c) >? 0) with true by (symmetry; apply Z.gtb_lt; lia).
  replace (ccnt (box c) <=? cmax (box c)) with true
    by (symmetry; apply Z.leb_le; lia).
  replace (ccnt (box c) =? cmax (box c)) with true
    by (symmetry; apply Z.eqb_eq; lia).
  cbn [andb].
  destruct (reset_inv (cmax (box c) - 1) c Hi) as (c' & Hr & Hi' & Hb).
  rewrite Hr. exists c'. repeat split; auto.
  rewrite Hb. f_equal. lia.
Qed.

Lemma detach_part c :
  Inv c -> 0 < ccnt (box c) < cmax (box c) ->
  exists c1, remc c = Some c1 /\
    detach c = Some (set_ccnt (ccnt (box c) - 1) c1, true) /\
    Inv (set_ccnt (ccnt (box c) - 1) c1) /\
    box (set_ccnt (ccnt (box c) - 1) c1) = cbox_set_ccnt (ccnt (box c) - 1) (box c).
Proof.
  intros Hi Hc. unfold detach.
  replace (ccnt (box c) >? 0) with true by (symmetry; apply Z.gtb_lt; lia).
  replace (ccnt (box c) <=? cmax (box c)) with true
    by (symmetry; apply Z.leb_le; lia).
  replace (ccnt (box c) =? cmax (box c)) with false
    by (symmetry; apply Z.eqb_neq; lia).
  cbn [andb].
  destruct (law_remc Inv L c Hi Hc) as (c1 & Hr & Hb & Hi1).
  rewrite Hr, Hb. exists c1. rewrite Hb in Hi1.
  repeat split; auto. rewrite (law_set_ccnt Inv L), Hb. reflexivity.
Qed.

Lemma detach_inv c :
  Inv c -> exists c' r, detach c = Some (c', r) /\ Inv c' /\
    cmax (box c') = cmax (box c) /\
    ccnt (box c') = (if r then ccnt (box c) - 1 else ccnt (box c)) /\
    (r = false <-> ccnt (box c) = 0).
Proof.
  intros Hi. pose proof (law_range Inv L c Hi) as Hr.
  destruct (Z.eq_dec (ccnt (box c)) 0) as [E0 | E0].
  - exists c, false. rewrite (detach_empty c Hi E0). tauto.
  - destruct (Z.eq_dec (ccnt (box c)) (cmax (box c))) as [E | E].
    + destruct (detach_full c Hi ltac:(lia) E) as (c' & Hd & _ & Hi' & Hb).
      exists c', true. rewrite Hd, Hb. cbn.
      repeat split; auto; try discriminate; intros; lia.
    + destruct (detach_part c Hi ltac:(lia)) as (c1 & _ & Hd & Hi' & Hb).
      exists (set_ccnt (ccnt (box c) - 1) c1), true. rewrite Hd, Hb. cbn.
      repeat split; auto; try discriminate; intros; lia.
Qed.

Lemma step_inv o c :
  Inv c -> exists c', step o c = Some c' /\ Inv c' /\
    cmax (box c') = cmax (box c).
Proof.
  intros Hi. destruct o as [| | k]; cbn [step].
  - destruct (attach_inv c Hi) as (c' & r & Ha & Hi' & Hm & _).
    rewrite Ha. eauto.
  - destruct (detach_inv c Hi) as (c' & r & Ha & Hi' & Hm & _).
    rewrite Ha. eauto.
  - destruct (reset_inv k c Hi) as (c' & Hr & Hi' & Hb).
    rewrite Hr. exists c'. rewrite Hb. auto.
Qed.

Lemma run_inv os c :
  Inv c -> exists c', run os c = Some c' /\ Inv c' /\
    cmax (box c') = cmax (box c).
Proof.
  revert c. induction os as [| o os IH]; intros c Hi; cbn [run].
  - eauto.
  - destruct (step_inv o c Hi) as (c1 & Hs & Hi1 & Hm1). rewrite Hs.
    destruct (IH c1 Hi1) as (c' & Hr & Hi' & Hm').
    exists c'. rewrite Hr, Hm', Hm1. auto.
Qed.

End CboxTheory.

(** ** Cubes keep the laws *)

Lemma firstn_snoc {A : Type} (l : list A) (n : nat) (v : A) :
  nth_error l n = Some v -> firstn (S n) l = firstn n l ++ [v].
Proof.
  revert n. induction l as [| a l IH]; intros [| n] Hn; cbn in *; try discriminate.
  - injection Hn as ->. reflexivity.
  - rewrite <- (IH n Hn). reflexivity.
Qed.

Lemma index_some {A : Type} (l : list A) (i : Z) :
  0 <= i < Z.of_nat (length l) -> exists v, index l i = Some v /\
    nth_error l (Z.to_nat i) = Some v.
Proof.
  intros Hi. unfold index.
  replace (i <? 0) with false by (symmetry; apply Z.ltb_ge; lia).
  destruct (nth_error l (Z.to_nat i)) as [v |] eqn:E; eauto.
  apply nth_error_None in E. lia.
Qed.

Lemma cube_trash_loop_empties fuel c :
  (length (cells c) <= fuel)%nat ->
  cube_trash_loop fuel c = Some (cube_set_cells [] c).
Proof.
  revert c. induction fuel as [| fuel IH]; intros [cs ctr bx] Hl; cbn in *.
  - destruct cs; [reflexivity | cbn in Hl; lia].
  - destruct cs as [| p cs]; [reflexivity |].
    unfold cube_removeCell. cbn [cells].
    replace (0 <? Z.of_nat (length (p :: cs))) with true
      by (symmetry; apply Z.ltb_lt; cbn [length]; lia).
    rewrite IH; [reflexivity |].
    cbn [cells cube_set_cells]. cbn [length] in Hl.
    assert (length (removelast (p :: cs)) = length cs).
    { rewrite removelast_firstn_len, length_firstn. cbn [length]. lia. }
    lia.
Qed.

Lemma cube_trash_empties c : cube_trash c = Some (cube_set_cells [] c).
Proof. apply cube_trash_loop_empties. lia. Qed.

Lemma cube_merge_merged c :
  cube_merge c = Some (cube_set_cells [merged_cell c] c).
Proof. unfold cube_merge. rewrite cube_trash_empties. reflexivity. Qed.

Lemma cube_laws : BoxLaws cube_ok.
Proof.
  constructor.
  - intros c (Hm & _ & Hr & _). lia.
  - reflexivity.
  - intros [cs ctr [n m x y z sz]] (Hm & Hl & Hr & Hc) Hf. cbn in *. subst m.
    cbn [mergec cube_Box]. rewrite cube_merge_merged.
    eexists. split; [reflexivity |]. split; [reflexivity |].
    unfold cube_ok, cube_cells. cbn. replace (n + 1 =? 8) with true
      by (symmetry; apply Z.eqb_eq; lia).
    repeat split; try lia; reflexivity.
  - intros [cs ctr [n m x y z sz]] (Hm & Hl & Hr & Hc) Hf. cbn in *. subst m.
    cbn [addc cube_Box]. unfold cube_addCell. cbn [centers cube_set_ccnt cube_box ccnt cbox_set_ccnt].
    destruct (index_some ctr (n + 1 - 1)) as (v & Hv & Hn); [lia |].
    rewrite Hv. eexists. split; [reflexivity |]. split; [reflexivity |].
    unfold cube_ok, cube_cells in *. cbn in *.
    replace (n + 1 =? 8) with false by (symmetry; apply Z.eqb_neq; lia).
    replace (n =? 8) with false in Hc by (symmetry; apply Z.eqb_neq; lia).
    repeat split; try lia.
    replace (Z.to_nat (n + 1)) with (S (Z.to_nat n)) by lia.
    replace (n + 1 - 1) with n in Hn by lia.
    rewrite (firstn_snoc _ _ _ Hn), map_app, Hc. reflexivity.
  - intros [cs ctr [n m x y z sz]] (Hm & Hl & Hr & Hc) Hf. cbn in *. subst m.
    cbn [remc cube_Box]. unfold cube_removeCell. cbn [cells].
    unfold cube_cells in Hc. cbn in Hc.
    replace (n =? 8) with false in Hc by (symmetry; apply Z.eqb_neq; lia).
    destruct (index_some ctr (n - 1)) as (v & _ & Hn); [lia |].
    replace (Z.to_nat n) with (S (Z.to_nat (n - 1))) in Hc by lia.
    rewrite (firstn_snoc _ _ _ Hn), map_app in Hc. cbn [map] in Hc.
    destruct cs as [| p cs'] eqn:Ecs.
    { symmetry in Hc. apply app_eq_nil in Hc. destruct Hc; discriminate. }
    rewrite <- Ecs in *. clear Ecs.
    eexists. split; [reflexivity |]. split; [reflexivity |].
    unfold cube_ok, cube_cells. cbn.
    replace (n - 1 =? 8) with false by (symmetry; apply Z.eqb_neq; lia).
    repeat split; try lia.
    rewrite Hc, removelast_last. reflexivity.
  - intros [cs ctr [n m x y z sz]] (Hm & Hl & Hr & Hc). cbn in Hm, Hl, Hr. subst m.
    change (trashc ?c) with (cube_trash c). rewrite cube_trash_empties.
    eexists. split; [reflexivity |]. split; [reflexivity |].
    unfold cube_ok, cube_cells. cbn. repeat split; try lia.
Qed.

(** ** Blocks keep the laws *)

Lemma addCell_scan_ok addeven cs :
  Forall cube_ok cs ->
  exists cs' found, addCell_scan addeven cs = Some (cs', found) /\
    Forall cube_ok cs' /\ length cs' = length cs.
Proof.
  induction 1 as [| c cs Hc Hcs IH]; cbn [addCell_scan].
  - exists [], false. auto.
  - destruct (ccnt (box c) <=? addeven).
    + destruct (attach_inv cube_ok cube_laws c Hc) as (c' & r & Ha & Hc' & _).
      rewrite Ha. exists (c' :: cs), true. auto.
    + destruct IH as (cs' & found & Hs & Hok & Hlen). rewrite Hs.
      exists (c :: cs'), found. cbn. auto.
Qed.

Lemma addCell_rounds_ok fuel addeven cs :
  Forall cube_ok cs ->
  exists cs', addCell_rounds fuel addeven cs = Some cs' /\
    Forall cube_ok cs' /\ length cs' = length cs.
Proof.
  revert addeven cs. induction fuel as [| fuel IH]; intros addeven cs Hcs;
    cbn [addCell_rounds].
  - eauto.
  - destruct (addCell_scan_ok addeven cs Hcs) as (cs1 & found & Hs & Hok & Hlen).
    rewrite Hs. destruct found.
    + eauto.
    + destruct (IH (addeven + 1) cs1 Hok) as (cs' & Hr & Hok' & Hlen').
      exists cs'. rewrite Hr, Hlen', Hlen. auto.
Qed.

Lemma removeCell_scan_ok cs :
  Forall cube_ok cs ->
  exists cs', removeCell_scan cs = Some cs' /\
    Forall cube_ok cs' /\ length cs' = length cs.
Proof.
  induction 1 as [| c cs Hc Hcs IH]; cbn [removeCell_scan].
  - eauto.
  - destruct (detach_inv cube_ok cube_laws c Hc) as (c' & r & Hd & Hc' & _).
    rewrite Hd. destruct r.
    + exists (c' :: cs). auto.
    + destruct IH as (cs' & Hs & Hok & Hlen). rewrite Hs.
      exists (c' :: cs'). cbn. auto.
Qed.

Lemma reset_cubes_ok cs :
  Forall cube_ok cs ->
  exists cs', reset_cubes cs = Some cs' /\
    Forall cube_ok cs' /\ length cs' = length cs /\
    Forall (fun c => ccnt (box c) = 0 /\ cells c = []) cs'.
Proof.
  induction 1 as [| c cs Hc Hcs IH]; cbn [reset_cubes].
  - exists []. auto.
  - destruct (reset_inv cube_ok cube_laws 0 c Hc) as (c' & Hr & Hc' & Hb).
    rewrite Hr. destruct IH as (cs' & Hs & Hok & Hlen & Hz). rewrite Hs.
    exists (c' :: cs'). cbn [length]. repeat split; auto.
    constructor; [| exact Hz].
    assert (E : ccnt (box c') = 0).
    { rewrite Hb. cbn. lia. }
    split; [exact E |].
    destruct Hc' as (Hm' & _ & _ & Hcells). rewrite Hcells, E.
    unfold cube_cells. rewrite Hm'. reflexivity.
Qed.

Lemma block_trash_ok b :
  Forall cube_ok (cubes b) ->
  exists cs', block_trash b = Some (mkBlock (block_lvl b) None cs' (block_box b)) /\
    Forall cube_ok cs' /\ length cs' = length (cubes b) /\
    Forall (fun c => ccnt (box c) = 0 /\ cells c = []) cs'.
Proof.
  intros Hcs. unfold block_trash.
  assert (E : cubes (match slab b with
                     | Some _ => block_set_slab None b | None => b end) = cubes b)
    by (destruct (slab b); reflexivity).
  rewrite E.
  destruct (reset_cubes_ok (cubes b) Hcs) as (cs' & Hr & Hok & Hlen & Hz).
  rewrite Hr. exists cs'. repeat split; auto.
  destruct b as [l [p |] cs bx]; reflexivity.
Qed.

Lemma block_laws : BoxLaws block_ok.
Proof.
  constructor.
  - intros b (Hr & _). exact Hr.
  - reflexivity.
  - intros b (Hr & Hcs & Hne & Hs) Hf.
    change (mergec ?x) with (block_merge x).
    change (set_ccnt ?n ?x) with (block_set_ccnt n x). unfold block_merge.
    destruct (block_trash_ok (block_set_ccnt (ccnt (box b) + 1) b) Hcs)
      as (cs' & Ht & Hok & Hlen & _).
    rewrite Ht. eexists. split; [reflexivity |]. split; [reflexivity |].
    unfold block_ok. cbn in *. split; [lia |]. split; [assumption |]. split.
    + intros ->. apply Hne. destruct (cubes b); [reflexivity | discriminate].
    + intros; lia.
  - intros b (Hr & Hcs & Hne & Hs) Hf.
    change (addc ?x) with (block_addCell x). unfold block_addCell.
    change (set_ccnt ?n ?x) with (block_set_ccnt n x).
    change (cubes (block_set_ccnt (ccnt (box b) + 1) b)) with (cubes b).
    destruct (cubes b) as [| c0 cs0] eqn:Ecs.
    { specialize (Hne eq_refl). lia. }
    destruct (addCell_rounds_ok (Z.to_nat (cmax (box c0))) 0 (c0 :: cs0) Hcs)
      as (cs' & Ha & Hok & Hlen).
    rewrite Ha. eexists. split; [reflexivity |]. split; [reflexivity |].
    unfold block_ok. cbn in *. split; [lia |]. split; [assumption |]. split.
    + intros ->. discriminate.
    + intros _. apply Hs. lia.
  - intros b (Hr & Hcs & Hne & Hs) Hf.
    change (remc ?x) with (block_removeCell x). unfold block_removeCell.
    destruct (removeCell_scan_ok (cubes b) Hcs) as (cs' & Ha & Hok & Hlen).
    rewrite Ha. eexists. split; [reflexivity |]. split; [reflexivity |].
    unfold block_ok. cbn in *. split; [lia |]. split; [assumption |]. split.
    + intros ->. apply Hne. destruct (cubes b); [reflexivity | discriminate].
    + intros _. apply Hs. lia.
  - intros b (Hr & Hcs & Hne & Hs).
    change (trashc ?x) with (block_trash x).
    destruct (block_trash_ok b Hcs) as (cs' & Ht & Hok & Hlen & _).
    rewrite Ht. eexists. split; [reflexivity |]. split; [reflexivity |].
    unfold block_ok. cbn in *. split; [lia |]. split; [assumption |]. split.
    + intros ->. apply Hne. destruct (cubes b); [reflexivity | discriminate].
    + reflexivity.
Qed.

(** ** The contracts, for any owner that keeps the laws *)

Section Contracts.
Context {T : Type} `{Box T} (Inv : T -> Prop) (L : BoxLaws Inv).

Lemma attach_contract_holds c : Inv c -> attach_contract c.
Proof.
  intros Hi. pose proof (law_range Inv L c Hi) as Hr.
  unfold attach_contract. split; [| split].
  - split.
    + intros (c' & Ha).
      destruct (attach_inv Inv L c Hi) as (c2 & r & Ha' & _ & _ & _ & Hiff).
      rewrite Ha in Ha'. injection Ha' as _ <-. apply Hiff. reflexivity.
    + intros E. exists c. apply (attach_full Inv c Hi E).
  - apply (attach_full Inv c Hi).
  - intros Hlt.
    destruct (attach_room Inv L c Hi Hlt) as (c' & Ha & Hb & _ & Hk).
    exists c'. rewrite Hb. cbn [ccnt cmax cbox_set_ccnt].
    split; [exact Ha |]. split; [reflexivity |]. split; [reflexivity |].
    destruct (ccnt (box c) + 1 =? cmax (box c)) eqn:E.
    * apply Z.eqb_eq in E. split; [intros _; exact Hk | intros Hne; lia].
    * apply Z.eqb_neq in E. split; [intros He; lia | intros _; exact Hk].
Qed.

Lemma detach_contract_holds c :
  Inv c -> 0 < cmax (box c) -> detach_contract c.
Proof.
  intros Hi Hpos. pose proof (law_range Inv L c Hi) as Hr.
  unfold detach_contract. split.
  - split.
    + intros (c' & Hd).
      destruct (detach_inv Inv L c Hi) as (c2 & r & Hd' & _ & _ & _ & Hiff).
      rewrite Hd in Hd'. injection Hd' as _ <-. apply Hiff. reflexivity.
    + intros E. exists c. apply (detach_empty Inv c Hi E).
  - intros E.
    destruct (detach_full Inv L c Hi ltac:(lia) E) as (c' & Hd & Hre & _ & Hb).
    exists c'. rewrite Hb. cbn [ccnt cmax cbox_set_ccnt]. auto.
Qed.

Lemma detach_rule_holds c : Inv c -> detach_rule c.
Proof.
  intros Hi. pose proof (law_range Inv L c Hi) as Hr.
  unfold detach_rule. split; [| split].
  - split.
    + intros (c' & Hd).
      destruct (detach_inv Inv L c Hi) as (c2 & r & Hd' & _ & _ & _ & Hiff).
      rewrite Hd in Hd'. injection Hd' as _ <-. apply Hiff. reflexivity.
    + intros E. exists c. apply (detach_empty Inv c Hi E).
  - apply (detach_empty Inv c Hi).
  - intros Hpos E.
    destruct (detach_full Inv L c Hi Hpos E) as (c' & Hd & Hre & _ & Hb).
    exists c'. rewrite Hb. cbn [ccnt cmax cbox_set_ccnt]. auto.
Qed.

Lemma reset_contract_holds k c : Inv c -> reset_contract k c.
Proof.
  intros Hi. pose proof (law_range Inv L c Hi) as Hr.
  destruct (law_trashc Inv L c Hi) as (c1 & Ht & Hb1 & _).
  destruct (reset_inv Inv L k c Hi) as (c' & Hre & _ & Hb).
  exists c1, c'. rewrite Hb. cbn [ccnt cmax cbox_set_ccnt].
  split; [exact Ht |]. split; [exact Hre |]. split; [| auto].
  rewrite <- Hre. unfold reset. rewrite Ht.
  destruct (box_set_ccnt Inv L 0 c1) as [_ E2]. rewrite E2, Hb1.
  destruct (Z.gtb_spec k (cmax (box c))) as [Hgt | Hle].
  - rewrite Z.min_r by lia. reflexivity.
  - rewrite Z.min_l by lia. reflexivity.
Qed.

End Contracts.

Lemma newCube_ok x y z cubeSize : cube_ok (newCube x y z cubeSize).
Proof.
  unfold cube_ok, cube_cells. cbn. split; [reflexivity |].
  split; [reflexivity |]. split; [lia | reflexivity].
Qed.

Lemma sample_panel_ok : block_ok sample_panel.
Proof.
  unfold block_ok. vm_compute.
  split; [split; discriminate |]. split; [| split; [discriminate | reflexivity]].
  repeat constructor; discriminate.
Qed.

(** C1. On every cube and every panel with [0 <= ccnt <= cmax] (a
    well-formed one), [attach] returns false if and only if [ccnt = cmax];
    when there is room it returns true, the count grows by exactly one,
    and the new state is the one made by the merge hook [mergec] exactly
    when the new count equals [cmax], by the add hook [addc] otherwise. *)
Theorem attach_refuses_iff_full (c : cube) (b : block) :
  cube_ok c -> block_ok b -> attach_contract c /\ attach_contract b.
Proof.
  intros Hc Hb. split.
  - apply (attach_contract_holds cube_ok cube_laws c Hc).
  - apply (attach_contract_holds block_ok block_laws b Hb).
Qed.

Lemma attach_refuses_iff_full_witness :
  attach_contract sample_cube /\ attach_contract sample_panel.
Proof.
  apply (attach_refuses_iff_full sample_cube sample_panel).
  - apply newCube_ok.
  - apply sample_panel_ok.
Defined.

(** C2, as stated, fails on a node of capacity zero.  The level 1 trooper
    has six panels without cubes, of capacity [8 (1-1)² = 0]: such a panel
    is full and empty at once, [detach] returns false on it and leaves the
    count at 0, which is not [cmax - 1]. *)
Lemma capacity0_panel_detach :
  exists tr b, newTrooper insertion_sort 1 = Some tr /\
    nth_error (bits tr) 0 = Some (BBlock b) /\
    block_ok b /\
    ccnt (box b) = cmax (box b) /\
    detach b = Some (b, false) /\
    ccnt (box b) <> cmax (box b) - 1 /\
    ~ detach_contract b.
Proof.
  exists trooper1, (newBlock (1 # 4) 0 0 1).
  split; [vm_compute; reflexivity |]. split; [vm_compute; reflexivity |].
  split.
  { unfold block_ok. vm_compute.
    split; [split; discriminate |]. split; [constructor |].
    split; [intros _ H; discriminate H | intros H; discriminate H]. }
  split; [reflexivity |]. split; [reflexivity |].
  split; [vm_compute; discriminate |].
  intros [_ Hfull]. destruct (Hfull eq_refl) as (b' & Hd & _).
  vm_compute in Hd. discriminate Hd.
Qed.

(** C2, amended. On every well-formed cube and panel, [detach] returns
    false if and only if [ccnt = 0], and then leaves the node as it is; on
    a full node that holds a cell ([ccnt = cmax > 0]) it is
    [reset (cmax - 1)], it leaves [ccnt = cmax - 1], and what is left is
    not merged: a cube shows its first seven small cells and a panel has
    no slab.  A panel of capacity zero is refused like every empty node. *)
Theorem detach_refuses_iff_empty (c : cube) (b : block) :
  cube_ok c -> block_ok b ->
  detach_rule c /\ detach_rule b /\
  (ccnt (box c) = cmax (box c) ->
     exists c', detach c = Some (c', true) /\
       cells c' = map (small_cell c') (firstn 7 (centers c')) /\
       length (cells c') = 7%nat) /\
  (0 < cmax (box b) -> ccnt (box b) = cmax (box b) ->
     exists b', detach b = Some (b', true) /\ slab b' = None) /\
  (cmax (box b) = 0 -> detach b = Some (b, false)).
Proof.
  intros Hc Hb.
  assert (Hc8 : cmax (box c) = 8) by apply Hc.
  pose proof (law_range block_ok block_laws b Hb) as Hrb.
  split; [| split; [| split; [| split]]].
  - apply (detach_rule_holds cube_ok cube_laws c Hc).
  - apply (detach_rule_holds block_ok block_laws b Hb).
  - intros E.
    destruct (detach_full cube_ok cube_laws c Hc ltac:(lia) E)
      as (c' & Hd & _ & Hok & Hbx).
    exists c'. split; [exact Hd |].
    destruct Hok as (Hm & Hl & _ & Hcells).
    assert (E7 : ccnt (box c') = 7) by (rewrite Hbx; cbn [ccnt cbox_set_ccnt]; lia).
    rewrite Hcells, E7. unfold cube_cells. rewrite Hm. cbn [Z.eqb Pos.eqb].
    change (Z.to_nat 7) with 7%nat. split; [reflexivity |].
    rewrite length_map, length_firstn, Hl. reflexivity.
  - intros Hpos E.
    destruct (detach_full block_ok block_laws b Hb ltac:(lia) E)
      as (b' & Hd & _ & Hok & Hbx).
    exists b'. split; [exact Hd |].
    destruct Hok as (_ & _ & _ & Hs). apply Hs. rewrite Hbx.
    cbn [ccnt cmax cbox_set_ccnt]. lia.
  - intros E0. apply (detach_empty block_ok b Hb). lia.
Qed.

Lemma full_cube_ok : cube_ok full_cube.
Proof.
  unfold cube_ok. vm_compute.
  split; [reflexivity |]. split; [reflexivity |].
  split; [split; discriminate | reflexivity].
Qed.

Lemma full_panel_ok : block_ok full_panel.
Proof.
  unfold block_ok. vm_compute.
  split; [split; discriminate |]. split; [| split; [discriminate | intros H; discriminate H]].
  repeat constructor; discriminate.
Qed.

Lemma detach_refuses_iff_empty_witness :
  detach_rule full_cube /\ detach_rule full_panel /\
  (ccnt (box full_cube) = cmax (box full_cube) ->
     exists c', detach full_cube = Some (c', true) /\
       cells c' = map (small_cell c') (firstn 7 (centers c')) /\
       length (cells c') = 7%nat) /\
  (0 < cmax (box full_panel) -> ccnt (box full_panel) = cmax (box full_panel) ->
     exists b', detach full_panel = Some (b', true) /\ slab b' = None) /\
  (cmax (box full_panel) = 0 -> detach full_panel = Some (full_panel, false)).
Proof.
  apply (detach_refuses_iff_empty full_cube full_panel).
  - apply full_cube_ok.
  - apply full_panel_ok.
Defined.

(** C3. A cube as [newCube] makes it ([ccnt = 0], [cmax = 8]) and a
    well-formed panel of capacity above zero keep [0 <= ccnt <= cmax]
    through every sequence of [attach], [detach] and [reset]: every run
    ends without panic in a state within the bounds, with [cmax] as it
    was.  The runs of all prefixes are among them. *)
Theorem count_within_bounds (x y z cubeSize : Q) (b : block) (os : list op) :
  block_ok b -> 0 < cmax (box b) ->
  (exists c', run os (newCube x y z cubeSize) = Some c' /\
     0 <= ccnt (box c') <= cmax (box c') /\ cmax (box c') = 8) /\
  (exists b', run os b = Some b' /\
     0 <= ccnt (box b') <= cmax (box b') /\ cmax (box b') = cmax (box b)).
Proof.
  intros Hb Hpos. split.
  - destruct (run_inv cube_ok cube_laws os _ (newCube_ok x y z cubeSize))
      as (c' & Hr & Hok & Hm).
    exists c'. split; [exact Hr |]. split; [| exact Hm].
    apply (law_range cube_ok cube_laws c' Hok).
  - destruct (run_inv block_ok block_laws os b Hb) as (b' & Hr & Hok & Hm).
    exists b'. split; [exact Hr |]. split; [| exact Hm].
    apply (law_range block_ok block_laws b' Hok).
Qed.

Lemma count_within_bounds_witness :
  (exists c', run [Attach; Reset 9; Detach] (newCube 0 0 0 1) = Some c' /\
     0 <= ccnt (box c') <= cmax (box c') /\ cmax (box c') = 8) /\
  (exists b', run [Attach; Reset 9; Detach] sample_panel = Some b' /\
     0 <= ccnt (box b') <= cmax (box b') /\
     cmax (box b') = cmax (box sample_panel)).
Proof.
  apply (count_within_bounds 0 0 0 1 sample_panel [Attach; Reset 9; Detach]).
  - apply sample_panel_ok.
  - vm_compute. reflexivity.
Defined.

(** C4, as stated, fails for a negative target: [reset (-1)] leaves the
    count at 0, which is not [min (-1) cmax]. *)
Lemma reset_negative_target :
  exists c', reset (-1) sample_cube = Some c' /\
    ccnt (box c') = 0 /\
    ccnt (box c') <> Z.min (-1) (cmax (box sample_cube)).
Proof.
  eexists. split; [vm_compute; reflexivity |].
  split; [reflexivity | vm_compute; discriminate].
Qed.

(** C4, amended. On every well-formed cube and panel and for every
    integer [k], [reset k] leaves the count at [max 0 (min k cmax)], which
    is [min k cmax] when [k >= 0] and 0 when [k] is negative: it runs
    [trashc], sets the count to 0 and calls [attach] once per cell of the
    target clamped to [cmax]. *)
Theorem reset_count (k : Z) (c : cube) (b : block) :
  cube_ok c -> block_ok b -> reset_contract k c /\ reset_contract k b.
Proof.
  intros Hc Hb. split.
  - apply (reset_contract_holds cube_ok cube_laws k c Hc).
  - apply (reset_contract_holds block_ok block_laws k b Hb).
Qed.

Lemma reset_count_witness :
  reset_contract 5 sample_cube /\ reset_contract 5 sample_panel.
Proof.
  apply (reset_count 5 sample_cube sample_panel).
  - apply newCube_ok.
  - apply sample_panel_ok.
Defined.

(** ** Cubes: centers, representation, round trip *)

Lemma detach_box {T : Type} `{Box T} (Inv : T -> Prop) (L : BoxLaws Inv) c :
  Inv c -> 0 < ccnt (box c) ->
  exists c', detach c = Some (c', true) /\ Inv c' /\
    box c' = cbox_set_ccnt (ccnt (box c) - 1) (box c).
Proof.
  intros Hi Hp. pose proof (law_range Inv L c Hi) as Hr.
  destruct (Z.eq_dec (ccnt (box c)) (cmax (box c))) as [E | E].
  - destruct (detach_full Inv L c Hi Hp E) as (c' & Hd & _ & Hi' & Hb).
    exists c'. rewrite Hb, E. auto.
  - destruct (detach_part Inv L c Hi ltac:(lia)) as (c1 & _ & Hd & Hi' & Hb).
    eauto.
Qed.

Lemma cube_attach_centers (c c' : cube) r :
  attach c = Some (c', r) -> centers c' = centers c.
Proof.
  unfold attach. destruct (_ && _).
  - destruct (_ =? _).
    + change (mergec ?x) with (cube_merge x). rewrite cube_merge_merged.
      intros E. injection E as <- _. reflexivity.
    + change (addc ?x) with (cube_addCell x). unfold cube_addCell.
      destruct (index _ _); [| discriminate].
      intros E. injection E as <- _. reflexivity.
  - intros E. injection E as <- _. reflexivity.
Qed.

Lemma cube_attach_times_centers n (c c' : cube) :
  attach_times n c = Some c' -> centers c' = centers c.
Proof.
  revert c. induction n as [| n IH]; intros c; cbn [attach_times].
  - intros E. injection E as <-. reflexivity.
  - destruct (attach c) as [[c1 r] |] eqn:Ea; [| discriminate].
    intros E. rewrite (IH c1 E). apply (cube_attach_centers c c1 r Ea).
Qed.

Lemma cube_reset_centers k (c c' : cube) :
  reset k c = Some c' -> centers c' = centers c.
Proof.
  unfold reset. change (trashc ?x) with (cube_trash x).
  rewrite cube_trash_empties. intros E.
  apply cube_attach_times_centers in E. exact E.
Qed.

Lemma cube_detach_centers (c c' : cube) r :
  detach c = Some (c', r) -> centers c' = centers c.
Proof.
  unfold detach. destruct (_ && _).
  - destruct (_ =? _).
    + destruct (reset _ c) as [c1 |] eqn:Er; [| discriminate].
      intros E. injection E as <- _. apply (cube_reset_centers _ c c1 Er).
    + change (remc ?x) with (cube_removeCell x). unfold cube_removeCell.
      destruct (cells c); [discriminate |].
      intros E. injection E as <- _. reflexivity.
  - intros E. injection E as <- _. reflexivity.
Qed.

Lemma cube_ok_eq (c c' : cube) :
  cube_ok c -> cube_ok c' -> box c = box c' -> centers c = centers c' -> c = c'.
Proof.
  destruct c as [cs ctr bx], c' as [cs' ctr' bx'].
  intros (_ & _ & _ & Hc) (_ & _ & _ & Hc') Hb Hctr. cbn in *. subst bx' ctr'.
  rewrite Hc, Hc'. reflexivity.
Qed.

Lemma cube_ok_shows_count c : cube_ok c -> shows_count c.
Proof.
  intros (Hm & Hl & Hr & Hc). unfold shows_count. rewrite Hc at 1 2 3.
  unfold cube_cells. rewrite Hm. split.
  - intros Hlt. replace (ccnt (box c) =? 8) with false
      by (symmetry; apply Z.eqb_neq; lia).
    split; [reflexivity |]. rewrite length_map, length_firstn, Hl. lia.
  - intros ->. reflexivity.
Qed.

(** C6, as stated, fails for panels: [addCell] takes the first cube of the
    lowest fill and [removeCell] the first cube that has a cell.  The +x
    panel of the level 3 trooper, after one [attach], has cubes of 5, 4, 4
    and 4 cells; [attach] then [detach] leaves 4, 5, 4 and 4. *)
Lemma panel_roundtrip_moves_a_cell :
  exists tr b0 b b1 b2,
    newTrooper insertion_sort 3 = Some tr /\
    nth_error (bits tr) 0 = Some (BBlock b0) /\
    attach b0 = Some (b, true) /\
    0 <= ccnt (box b) < cmax (box b) /\
    attach b = Some (b1, true) /\
    detach b1 = Some (b2, true) /\
    ccnt (box b2) = ccnt (box b) /\
    map (fun c => length (cells c)) (cubes b) = [5; 4; 4; 4]%nat /\
    map (fun c => length (cells c)) (cubes b2) = [4; 5; 4; 4]%nat /\
    block_parts b2 <> block_parts b.
Proof.
  eexists. eexists. eexists. eexists. eexists.
  split; [vm_compute; reflexivity |].
  split; [vm_compute; reflexivity |].
  split; [vm_compute; reflexivity |].
  split; [vm_compute; split; [discriminate | reflexivity] |].
  split; [vm_compute; reflexivity |].
  split; [vm_compute; reflexivity |].
  split; [vm_compute; reflexivity |].
  split; [vm_compute; reflexivity |].
  split; [vm_compute; reflexivity |].
  intros E. apply (f_equal (fun l => nth_error l 4)) in E.
  vm_compute in E. discriminate E.
Qed.

(** C6, amended. On every well-formed cube with [0 <= ccnt < cmax],
    [attach] followed by [detach] gives back the very same cube: count,
    centers and cells, also from 7 cells, where [attach] merges and
    [detach] rebuilds the seven small cells.  On a well-formed panel the
    pair restores the count (and the rest of the [cbox]). *)
Theorem attach_detach_roundtrip (c : cube) (b : block) :
  cube_ok c -> block_ok b ->
  (ccnt (box c) < cmax (box c) ->
     exists c1, attach c = Some (c1, true) /\ detach c1 = Some (c, true)) /\
  (ccnt (box b) < cmax (box b) ->
     exists b1 b2, attach b = Some (b1, true) /\ detach b1 = Some (b2, true) /\
       box b2 = box b).
Proof.
  intros Hc Hb. split.
  - intros Hlt. pose proof (law_range cube_ok cube_laws c Hc) as Hr.
    destruct (attach_room cube_ok cube_laws c Hc Hlt) as (c1 & Ha & Hb1 & Hc1 & _).
    destruct (detach_box cube_ok cube_laws c1 Hc1) as (c2 & Hd & Hc2 & Hb2).
    { rewrite Hb1. cbn [ccnt cbox_set_ccnt]. lia. }
    exists c1. split; [exact Ha |]. rewrite Hd. f_equal. f_equal.
    apply cube_ok_eq; auto.
    + rewrite Hb2, Hb1. destruct (box c) as [n m x y z sz].
      unfold cbox_set_ccnt. cbn. f_equal. lia.
    + rewrite (cube_detach_centers c1 c2 true Hd).
      apply (cube_attach_centers c c1 true Ha).
  - intros Hlt. pose proof (law_range block_ok block_laws b Hb) as Hr.
    destruct (attach_room block_ok block_laws b Hb Hlt) as (b1 & Ha & Hb1 & Hk1 & _).
    destruct (detach_box block_ok block_laws b1 Hk1) as (b2 & Hd & Hk2 & Hb2).
    { rewrite Hb1. cbn [ccnt cbox_set_ccnt]. lia. }
    exists b1, b2. split; [exact Ha |]. split; [exact Hd |].
    rewrite Hb2, Hb1. destruct (box b) as [n m x y z sz].
    unfold cbox_set_ccnt. cbn. f_equal. lia.
Qed.

Lemma attach_detach_roundtrip_witness :
  (ccnt (box sample_cube) < cmax (box sample_cube) ->
     exists c1, attach sample_cube = Some (c1, true) /\
       detach c1 = Some (sample_cube, true)) /\
  (ccnt (box sample_panel) < cmax (box sample_panel) ->
     exists b1 b2, attach sample_panel = Some (b1, true) /\
       detach b1 = Some (b2, true) /\ box b2 = box sample_panel).
Proof.
  apply (attach_detach_roundtrip sample_cube sample_panel).
  - apply newCube_ok.
  - apply sample_panel_ok.
Defined.

(** ** The two instances of sort.Sort meet its contract *)

Section InsertionSort.
Variable less : V3 -> V3 -> bool.

Lemma insert_perm v l : Permutation (v :: l) (insert less v l).
Proof.
  induction l as [| w l IH]; cbn [insert].
  - reflexivity.
  - destruct (less v w).
    + reflexivity.
    + rewrite perm_swap. apply perm_skip. exact IH.
Qed.

Lemma fold_insert_perm l acc :
  Permutation (l ++ acc) (fold_left (fun acc v => insert less v acc) l acc).
Proof.
  revert acc. induction l as [| v l IH]; intros acc; cbn [fold_left app].
  - reflexivity.
  - rewrite <- IH. rewrite <- insert_perm. apply Permutation_middle.
Qed.

Lemma insertion_sort_perm l : Permutation l (insertion_sort less l).
Proof.
  unfold insertion_sort. rewrite <- fold_insert_perm, app_nil_r. reflexivity.
Qed.

Hypothesis Hless : strict_weak less.

Lemma insert_ascending v l : ascending less l -> ascending less (insert less v l).
Proof.
  destruct Hless as [Hasym Hneg]. unfold ascending.
  induction 1 as [| w l Hs IH Hw]; cbn [insert].
  - repeat constructor.
  - destruct (less v w) eqn:E.
    + constructor; [constructor; assumption |].
      constructor; [apply Hasym; exact E |].
      rewrite Forall_forall in Hw |- *. intros u Hu.
      apply (Hneg u w v); [apply Hw; exact Hu | apply Hasym; exact E].
    + constructor; [exact IH |].
      rewrite Forall_forall in Hw |- *. intros u Hu.
      apply (Permutation_in _ (Permutation_sym (insert_perm v l))) in Hu.
      destruct Hu as [<- | Hu]; [exact E | apply Hw; exact Hu].
Qed.

Lemma fold_insert_ascending l acc :
  ascending less acc ->
  ascending less (fold_left (fun acc v => insert less v acc) l acc).
Proof.
  revert acc. induction l as [| v l IH]; intros acc Ha; cbn [fold_left].
  - exact Ha.
  - apply IH, insert_ascending, Ha.
Qed.

Lemma insertion_sort_ascending l : ascending less (insertion_sort less l).
Proof. apply fold_insert_ascending. constructor. Qed.

End InsertionSort.

Lemma insertion_sort_contract : sort_contract insertion_sort.
Proof.
  split.
  - intros less l. apply insertion_sort_perm.
  - intros less l Hl. apply insertion_sort_ascending, Hl.
Qed.

Lemma gap_swap_perm less a b :
  Permutation (a ++ b) (fst (gap_swap less a b) ++ snd (gap_swap less a b)).
Proof.
  revert b. induction a as [| x a IH]; intros [| y b]; cbn [gap_swap fst snd];
    try reflexivity.
  specialize (IH b). destruct (gap_swap less a b) as [a1 b1]. cbn [fst snd] in *.
  destruct (less y x); cbn [fst snd app].
  - rewrite <- !Permutation_middle. rewrite perm_swap.
    do 2 apply perm_skip. rewrite <- IH. reflexivity.
  - apply perm_skip. rewrite <- !Permutation_middle.
    apply perm_skip. exact IH.
Qed.

Lemma shell_pass_perm less l : Permutation l (shell_pass less l).
Proof.
  unfold shell_pass.
  pose proof (gap_swap_perm less (firstn 6 l) (skipn 6 l)) as H.
  destruct (gap_swap less (firstn 6 l) (skipn 6 l)) as [a b].
  rewrite firstn_skipn in H. exact H.
Qed.

Lemma shell_insertion_sort_contract : sort_contract shell_insertion_sort.
Proof.
  split.
  - intros less l. unfold shell_insertion_sort.
    rewrite <- insertion_sort_perm. apply shell_pass_perm.
  - intros less l Hl. apply insertion_sort_ascending, Hl.
Qed.

(** ** Sorting the centers of a cube *)

Lemma Qltb_false a b : Qltb a b = false <-> (b <= a)%Q.
Proof.
  unfold Qltb. rewrite negb_false_iff. apply Qle_bool_iff.
Qed.

Lemma Qltb_true a b : Qltb a b = true <-> (a < b)%Q.
Proof.
  unfold Qltb. rewrite negb_true_iff. split.
  - intros E. apply Qnot_le_lt. intros Hle.
    apply Qle_bool_iff in Hle. congruence.
  - intros Hlt. destruct (Qle_bool b a) eqn:E; [| reflexivity].
    apply Qle_bool_iff in E. exfalso. apply (Qlt_not_le _ _ Hlt E).
Qed.

Lemma key_less_strict_weak (key : V3 -> Q) :
  strict_weak (fun a b => Qltb (key a) (key b)).
Proof.
  split.
  - intros a b E. apply Qltb_true in E. apply Qltb_false.
    apply Qlt_le_weak, E.
  - intros a b c E1 E2. apply Qltb_false in E1, E2. apply Qltb_false.
    apply (Qle_trans _ _ _ E2 E1).
Qed.

Lemma key_ascending (key : V3 -> Q) l :
  ascending (fun a b => Qltb (key a) (key b)) l ->
  StronglySorted (fun a b => (key a <= key b)%Q) l.
Proof.
  unfold ascending. induction 1 as [| a l Hs IH Ha]; constructor.
  - exact IH.
  - rewrite Forall_forall in Ha |- *. intros b Hb.
    apply Qltb_false, Ha, Hb.
Qed.

Section SortedCubes.
Variable gosort : (V3 -> V3 -> bool) -> list V3 -> list V3.
Hypothesis gosort_perm : sort_permutes gosort.

Lemma sorted_cube_ok less x y z cubeSize :
  cube_ok (cube_set_centers (gosort less (centers (newCube x y z cubeSize)))
             (newCube x y z cubeSize)).
Proof.
  unfold cube_ok, cube_cells. cbn.
  split; [reflexivity |]. split; [| split; [lia | reflexivity]].
  rewrite <- (Permutation_length (gosort_perm less _)). reflexivity.
Qed.

Lemma sorted_reset_ok less startCount x y z cubeSize :
  exists c,
    reset startCount
      (cube_set_centers (gosort less (centers (newCube x y z cubeSize)))
         (newCube x y z cubeSize)) = Some c /\
    cube_ok c /\
    centers c = gosort less (centers (newCube x y z cubeSize)) /\
    box c = mkCbox (Z.max 0 (Z.min startCount 8)) 8 x y z cubeSize.
Proof.
  destruct (reset_inv cube_ok cube_laws startCount _
              (sorted_cube_ok less x y z cubeSize)) as (c & Hr & Hok & Hb).
  exists c. split; [exact Hr |]. split; [exact Hok |].
  split; [| exact Hb]. apply (cube_reset_centers _ _ _ Hr).
Qed.

End SortedCubes.




(** ** The level 0 trooper *)

Lemma level0_cube (gosort : (V3 -> V3 -> bool) -> list V3 -> list V3) :
  sort_permutes gosort ->
  exists v0 v1 v2 v3 v4 v5 v6 v7,
    newTrooper gosort 0 =
    Some (mkTrooper 0 None
            [BCube (mkCube [small_cell (newCube 0 0 0 1) v0]
                      [v0; v1; v2; v3; v4; v5; v6; v7]
                      (mkCbox 1 8 0 0 0 1))]
            None 8).
Proof.
  intros Hperm.
  destruct (sorted_reset_ok gosort Hperm csort_Less 1 0 0 0 1)
    as (c & Hr & Hok & _ & Hb).
  unfold newTrooper. cbn [lvl Z.eqb]. unfold edgeSort. rewrite Hr.
  destruct c as [cs ctr bx]. destruct Hok as (_ & Hl & _ & Hc).
  cbn in Hb, Hl, Hc. subst bx.
  do 8 (destruct ctr as [| ? ctr]; [discriminate Hl |]).
  destruct ctr; [| discriminate Hl].
  unfold cube_cells, small_cell in Hc. cbn in Hc. subst cs.
  do 8 eexists. reflexivity.
Qed.

(** C5, as stated, fails: the level 0 trooper starts with one cell. *)
Lemma level0_health_is_not_8 :
  exists tr, newTrooper insertion_sort 0 = Some tr /\ health tr = 1 /\ health tr <> 8.
Proof.
  eexists. split; [vm_compute; reflexivity |].
  split; [reflexivity | vm_compute; discriminate].
Qed.

(** C5, amended. Whatever order [sort.Sort] gives the centers, the
    trooper made at level 0 is a single cube of capacity 8 seeded with one
    cell, and [health] is 1. *)
Theorem level0_health (gosort : (V3 -> V3 -> bool) -> list V3 -> list V3) :
  sort_permutes gosort ->
  exists tr c, newTrooper gosort 0 = Some tr /\ bits tr = [BCube c] /\
    cmax (box c) = 8 /\ ccnt (box c) = 1 /\ length (cells c) = 1%nat /\
    health tr = 1.
Proof.
  intros Hperm.
  destruct (level0_cube gosort Hperm)
    as (v0 & v1 & v2 & v3 & v4 & v5 & v6 & v7 & E).
  rewrite E. eexists. eexists. split; [reflexivity |].
  split; [reflexivity |]. repeat split.
Qed.

Lemma level0_health_witness :
  exists tr c, newTrooper insertion_sort 0 = Some tr /\ bits tr = [BCube c] /\
    cmax (box c) = 8 /\ ccnt (box c) = 1 /\ length (cells c) = 1%nat /\
    health tr = 1.
Proof.
  apply (level0_health insertion_sort).
  intros less l. apply insertion_sort_perm.
Defined.

(** C9. From the trooper made at level 0, eight calls of [attach] in a
    row end with exactly one part owned by the trooper, the merged part
    [neo], and raise the evolve signal exactly once, in the eighth call:
    the first seven fill the cube and raise nothing. *)
Theorem grow_8_evolves_once (gosort : (V3 -> V3 -> bool) -> list V3 -> list V3) :
  sort_permutes gosort ->
  exists tr tr7 tr8 p,
    newTrooper gosort 0 = Some tr /\
    grow 7 tr = Some (tr7, []) /\ neo tr7 = None /\
    grow 8 tr = Some (tr8, [Evolve]) /\
    neo tr8 = Some p /\ trooper_parts tr8 = [p].
Proof.
  intros Hperm.
  destruct (level0_cube gosort Hperm)
    as (v0 & v1 & v2 & v3 & v4 & v5 & v6 & v7 & E).
  rewrite E. do 4 eexists.
  split; [reflexivity |].
  split; [vm_compute; reflexivity |].
  split; [reflexivity |].
  split; [vm_compute; reflexivity |].
  split; reflexivity.
Qed.

Lemma grow_8_evolves_once_witness :
  exists tr tr7 tr8 p,
    newTrooper insertion_sort 0 = Some tr /\
    grow 7 tr = Some (tr7, []) /\ neo tr7 = None /\
    grow 8 tr = Some (tr8, [Evolve]) /\
    neo tr8 = Some p /\ trooper_parts tr8 = [p].
Proof.
  apply (grow_8_evolves_once insertion_sort).
  intros less l. apply insertion_sort_perm.
Defined.

(** ** What a cube shows *)

(** C8, as stated, fails after the trooper collapses into [neo]: [evolve]
    trashes every bit and leaves the counts alone, so the cube of the level
    0 trooper then has count 8 and owns no part at all. *)
Lemma collapsed_cube_owns_nothing :
  exists tr tr8 c,
    newTrooper insertion_sort 0 = Some tr /\
    grow 8 tr = Some (tr8, [Evolve]) /\
    bits tr8 = [BCube c] /\ ccnt (box c) = 8 /\ cells c = [] /\
    ~ shows_count c.
Proof.
  do 3 eexists.
  split; [vm_compute; reflexivity |].
  split; [vm_compute; reflexivity |].
  split; [reflexivity |].
  split; [reflexivity |].
  split; [reflexivity |].
  intros [_ H]. specialize (H eq_refl). discriminate H.
Qed.

(** C8, amended. A cube made by [newCube] and [edgeSort] or [panelSort]
    shows its count, and does so after every run of [attach], [detach] and
    [reset]: below 8 it owns exactly its first [ccnt] small cells and no
    merged cell, at 8 exactly the merged cell, never both.  [trash], which
    the trooper calls on its bits when it collapses, removes every cell and
    keeps the count. *)
Theorem cube_shows_count
    (gosort : (V3 -> V3 -> bool) -> list V3 -> list V3)
    (x y z cubeSize rx ry rz : Q) (startCount : Z) (os : list op) :
  sort_permutes gosort ->
  (exists c0, edgeSort gosort startCount (newCube x y z cubeSize) = Some c0 /\
     keeps_showing os c0) /\
  (exists c0, panelSort gosort rx ry rz startCount (newCube x y z cubeSize) = Some c0 /\
     keeps_showing os c0).
Proof.
  intros Hperm.
  assert (Hkeep : forall c0, cube_ok c0 -> keeps_showing os c0).
  { intros c0 Hok. split; [apply cube_ok_shows_count, Hok |].
    destruct (run_inv cube_ok cube_laws os c0 Hok) as (c & Hr & Hok' & _).
    exists c. split; [exact Hr |]. split; [apply cube_ok_shows_count, Hok' |].
    apply cube_trash_empties. }
  split.
  - destruct (sorted_reset_ok gosort Hperm csort_Less startCount x y z cubeSize)
      as (c0 & Hr & Hok & _).
    exists c0. split; [exact Hr | apply Hkeep, Hok].
  - destruct (sorted_reset_ok gosort Hperm (ssort_Less rx ry rz) startCount
                x y z cubeSize) as (c0 & Hr & Hok & _).
    exists c0. split; [exact Hr | apply Hkeep, Hok].
Qed.

Lemma cube_shows_count_witness :
  (exists c0, edgeSort insertion_sort 2 (newCube (-1 # 4) (-1 # 4) 0 (1 # 2)) = Some c0 /\
     keeps_showing [Attach; Reset 8; Detach; Detach] c0) /\
  (exists c0, panelSort insertion_sort 1 0 0 2 (newCube (-1 # 4) (-1 # 4) 0 (1 # 2)) = Some c0 /\
     keeps_showing [Attach; Reset 8; Detach; Detach] c0).
Proof.
  apply (cube_shows_count insertion_sort).
  intros less l. apply insertion_sort_perm.
Defined.

(** ** Sums over the lattice *)

Lemma sumz_ext g h i n :
  (forall c, g c = h c) -> sumz g i n = sumz h i n.
Proof.
  intros E. revert i. induction n as [| n IH]; intros i; cbn [sumz].
  - reflexivity.
  - rewrite E, IH. reflexivity.
Qed.

Lemma sumz_zero i n : sumz (fun _ => 0) i n = 0.
Proof.
  revert i. induction n as [| n IH]; intros i; cbn [sumz]; [| rewrite IH]; reflexivity.
Qed.

Lemma sumz_scale (A : Z -> bool) a i n :
  sumz (fun c => if A c then a else 0) i n =
  a * sumz (fun c => if A c then 1 else 0) i n.
Proof.
  revert i. induction n as [| n IH]; intros i; cbn [sumz].
  - lia.
  - rewrite IH. destruct (A i); lia.
Qed.

Lemma sumz_guard (b : bool) (A : Z -> bool) i n :
  sumz (fun c => if b && A c then 1 else 0) i n =
  if b then sumz (fun c => if A c then 1 else 0) i n else 0.
Proof.
  destruct b; cbn [andb].
  - reflexivity.
  - apply sumz_zero.
Qed.

Lemma sumz_eq a i n :
  sumz (fun c => if c =? a then 1 else 0) i n =
  if (i <=? a) && (a <? i + Z.of_nat n) then 1 else 0.
Proof.
  revert i. induction n as [| n IH]; intros i; cbn [sumz].
  - destruct (Z.leb_spec i a), (Z.ltb_spec a (i + Z.of_nat 0)); cbn; lia.
  - rewrite IH.
    destruct (Z.eqb_spec i a), (Z.leb_spec (i + 1) a),
      (Z.ltb_spec a (i + 1 + Z.of_nat n)), (Z.leb_spec i a),
      (Z.ltb_spec a (i + Z.of_nat (S n))); cbn; lia.
Qed.

Lemma sumz_inner level i n :
  sumz (fun c => if inner level c then 1 else 0) i n =
  Z.max 0 (Z.min (i + Z.of_nat n) level - Z.max i 1).
Proof.
  revert i. induction n as [| n IH]; intros i; cbn [sumz].
  - lia.
  - rewrite IH. unfold inner.
    destruct (Z.ltb_spec 0 i), (Z.ltb_spec i level); cbn [andb]; lia.
Qed.

Lemma sumz_hit level k :
  1 <= level -> (k < 6)%nat ->
  sumz (fun cx =>
    sumz (fun cy =>
      sumz (fun cz => hit level k cx cy cz) 0 (Z.to_nat (level + 1)))
      0 (Z.to_nat (level + 1)))
    0 (Z.to_nat (level + 1)) = (level - 1) ^ 2.
Proof.
  intros Hl Hk.
  assert (Hin : sumz (fun c => if inner level c then 1 else 0) 0
                  (Z.to_nat (level + 1)) = level - 1)
    by (rewrite sumz_inner; lia).
  assert (HeL : sumz (fun c => if c =? level then 1 else 0) 0
                  (Z.to_nat (level + 1)) = 1).
  { rewrite sumz_eq.
    destruct (Z.leb_spec 0 level), (Z.ltb_spec level (0 + Z.of_nat (Z.to_nat (level + 1))));
      cbn; lia. }
  assert (He0 : sumz (fun c => if c =? 0 then 1 else 0) 0
                  (Z.to_nat (level + 1)) = 1).
  { rewrite sumz_eq.
    destruct (Z.ltb_spec 0 (0 + Z.of_nat (Z.to_nat (level + 1)))); cbn; lia. }
  assert (Hgen : forall A B C : Z -> bool,
    sumz (fun cx =>
      sumz (fun cy =>
        sumz (fun cz => if A cx && B cy && C cz then 1 else 0)
          0 (Z.to_nat (level + 1)))
        0 (Z.to_nat (level + 1)))
      0 (Z.to_nat (level + 1)) =
    sumz (fun c => if A c then 1 else 0) 0 (Z.to_nat (level + 1)) *
    (sumz (fun c => if B c then 1 else 0) 0 (Z.to_nat (level + 1)) *
     sumz (fun c => if C c then 1 else 0) 0 (Z.to_nat (level + 1)))).
  { intros A B C.
    set (n := Z.to_nat (level + 1)).
    set (sC := sumz (fun c => if C c then 1 else 0) 0 n).
    set (sB := sumz (fun c => if B c then 1 else 0) 0 n).
    rewrite (sumz_ext _ (fun cx => if A cx then sB * sC else 0)).
    - rewrite sumz_scale. lia.
    - intros cx.
      rewrite (sumz_ext _ (fun cy => if A cx && B cy then sC else 0)).
      + destruct (A cx); cbn [andb].
        * rewrite sumz_scale. fold sB. lia.
        * apply sumz_zero.
      + intros cy. apply sumz_guard. }
  unfold hit.
  do 6 (destruct k as [| k]; [cbn [panel_tests]; rewrite Hgen, ?Hin, ?HeL, ?He0; lia |]).
  lia.
Qed.

(** ** Building the panels *)

Lemma wrap_small z : int_min <= z <= int_max -> wrap z = z.
Proof.
  unfold int_min, int_max, wrap. intros Hz.
  rewrite Z.mod_small by lia. lia.
Qed.

Lemma wrap_add a b : iadd (wrap a) b = wrap (a + b).
Proof.
  unfold iadd, wrap.
  replace ((a + 2 ^ 63) mod 2 ^ 64 - 2 ^ 63 + b + 2 ^ 63)
    with ((a + 2 ^ 63) mod 2 ^ 64 + b) by lia.
  rewrite Zplus_mod_idemp_l. f_equal. f_equal. lia.
Qed.

Lemma scaled_lt (co m1 m2 : Q) (a b : Z) :
  (0 < co)%Q -> (m1 == inject_Z a)%Q -> (m2 == inject_Z b)%Q -> a < b ->
  Qltb (m1 * co) (m2 * co) = true.
Proof.
  intros Hco H1 H2 Hab. apply Qltb_true.
  apply Qmult_lt_compat_r; [exact Hco |].
  rewrite H1, H2. rewrite <- Zlt_Qlt. exact Hab.
Qed.

Lemma coord_cases level c :
  1 <= level -> 0 <= c <= level ->
  ((c =? 0) = true /\ (c =? level) = false /\ inner level c = false /\ c = 0) \/
  ((c =? 0) = false /\ (c =? level) = true /\ inner level c = false /\ c = level) \/
  ((c =? 0) = false /\ (c =? level) = false /\ inner level c = true /\ 0 < c < level).
Proof.
  intros Hl Hc. unfold inner.
  destruct (Z.eqb_spec c 0), (Z.eqb_spec c level), (Z.ltb_spec 0 c),
    (Z.ltb_spec c level); cbn [andb]; try lia; auto 10.
Qed.

Lemma nth_error_list_set_eq {A : Type} (l : list A) k x :
  (k < length l)%nat -> nth_error (list_set k x l) k = Some x.
Proof.
  revert k. induction l as [| y l IH]; intros [| k] Hk; cbn in *; try lia.
  - reflexivity.
  - apply IH. lia.
Qed.

Lemma nth_error_list_set_neq {A : Type} (l : list A) k j x :
  k <> j -> nth_error (list_set k x l) j = nth_error l j.
Proof.
  revert k j. induction l as [| y l IH]; intros [| k] [| j] Hk; cbn;
    try reflexivity; try congruence.
  apply IH. congruence.
Qed.

Lemma panels_filling_ext level cnt cnt' tr :
  (forall k, (k < 6)%nat -> cnt k = cnt' k) ->
  panels_filling level cnt tr -> panels_filling level cnt' tr.
Proof.
  intros E [Hp Hq]. split; [| exact Hq].
  intros k Hk. destruct (Hp k Hk) as (b & Hn & Hf).
  exists b. rewrite <- (E k Hk). auto.
Qed.

Lemma panels_filling_append level cnt tr c :
  panels_filling level cnt tr ->
  panels_filling level cnt (trooper_set_bits (bits tr ++ [BCube c]) tr).
Proof.
  intros [Hp Hq]. split; cbn [bits trooper_set_bits].
  - intros k Hk. destruct (Hp k Hk) as (b & Hn & Hf).
    exists b. split; [| exact Hf].
    rewrite nth_error_app1; [exact Hn |].
    apply nth_error_Some. congruence.
  - intros k b Hn.
    destruct (Nat.lt_ge_cases k (length (bits tr))) as [Hlt | Hge].
    + rewrite nth_error_app1 in Hn by exact Hlt. apply (Hq k b Hn).
    + rewrite nth_error_app2 in Hn by exact Hge.
      destruct (k - length (bits tr))%nat as [| j]; cbn in Hn.
      * discriminate Hn.
      * destruct j; discriminate Hn.
Qed.

Section Panels.
Variable gosort : (V3 -> V3 -> bool) -> list V3 -> list V3.
Hypothesis gosort_perm : sort_permutes gosort.

Lemma panelSort_four rx ry rz x y z cubeSize :
  exists c, panelSort gosort rx ry rz 4 (newCube x y z cubeSize) = Some c /\
    cube_ok c /\ ccnt (box c) = 4.
Proof.
  destruct (sorted_reset_ok gosort gosort_perm (ssort_Less rx ry rz) 4 x y z cubeSize)
    as (c & Hr & Hok & _ & Hb).
  exists c. split; [exact Hr |]. split; [exact Hok |]. rewrite Hb. reflexivity.
Qed.

Lemma addCube_filling level n x y z cubeSize b :
  panel_filling level n b ->
  exists b', addCube gosort x y z cubeSize b = Some b' /\
    panel_filling level (n + 1) b'.
Proof.
  intros (Hm & Hc & Hd & Hl & Hcs & Hs).
  unfold addCube. cbn [block_box block_set_box cbox_set_csize cx cy cz csize].
  set (c := newCube x y z cubeSize).
  set (pick :=
    if (Qltb (cy (block_box b)) (cx (block_box b)) && Qltb (cz (block_box b)) (cx (block_box b)))
       || (Qltb (cx (block_box b)) (cy (block_box b)) && Qltb (cx (block_box b)) (cz (block_box b)))
    then panelSort gosort 1 0 0 4 c
    else if (Qltb (cx (block_box b)) (cy (block_box b)) && Qltb (cz (block_box b)) (cy (block_box b)))
            || (Qltb (cy (block_box b)) (cx (block_box b)) && Qltb (cy (block_box b)) (cz (block_box b)))
    then panelSort gosort 0 1 0 4 c
    else if (Qltb (cx (block_box b)) (cz (block_box b)) && Qltb (cy (block_box b)) (cz (block_box b)))
            || (Qltb (cz (block_box b)) (cx (block_box b)) && Qltb (cz (block_box b)) (cy (block_box b)))
    then panelSort gosort 0 0 1 4 c
    else Some c).
  assert (Hpick : exists c1, pick = Some c1 /\ cube_ok c1 /\ ccnt (box c1) = 4).
  { unfold dominant in Hd. change (box b) with (block_box b) in Hd.
    unfold pick.
    destruct ((Qltb (cy (block_box b)) (cx (block_box b)) && Qltb (cz (block_box b)) (cx (block_box b)))
              || (Qltb (cx (block_box b)) (cy (block_box b)) && Qltb (cx (block_box b)) (cz (block_box b)))).
    - apply panelSort_four.
    - destruct ((Qltb (cx (block_box b)) (cy (block_box b)) && Qltb (cz (block_box b)) (cy (block_box b)))
                || (Qltb (cy (block_box b)) (cx (block_box b)) && Qltb (cy (block_box b)) (cz (block_box b)))).
      + apply panelSort_four.
      + destruct ((Qltb (cx (block_box b)) (cz (block_box b)) && Qltb (cy (block_box b)) (cz (block_box b)))
                  || (Qltb (cz (block_box b)) (cx (block_box b)) && Qltb (cz (block_box b)) (cy (block_box b)))).
        * apply panelSort_four.
        * discriminate Hd. }
  destruct Hpick as (c1 & Hp & Hok & H4). rewrite Hp.
  eexists. split; [reflexivity |].
  unfold panel_filling.
  cbn [box block_Box block_box block_set_cubes block_set_ccnt block_set_box
       cbox_set_ccnt cbox_set_csize ccnt cmax cubes slab].
  change (box b) with (block_box b) in Hm, Hc, Hd.
  split; [exact Hm |]. split; [rewrite Hc, wrap_add; f_equal; lia |].
  split; [exact Hd |].
  split; [rewrite length_app; cbn [length]; lia |].
  split; [| exact Hs].
  apply Forall_app. split; [exact Hcs |]. constructor; [auto | constructor].
Qed.

Lemma with_panel_filling level cnt k0 x y z cubeSize tr :
  (k0 < 6)%nat -> panels_filling level cnt tr ->
  exists tr', with_panel k0 (addCube gosort x y z cubeSize) tr = Some tr' /\
    panels_filling level
      (fun k => cnt k + if Nat.eqb k k0 then 1 else 0) tr'.
Proof.
  intros Hk0 [Hp Hq]. unfold with_panel.
  destruct (Hp k0 Hk0) as (b & Hn & Hf). rewrite Hn.
  destruct (addCube_filling level (cnt k0) x y z cubeSize b Hf) as (b' & Ha & Hf').
  rewrite Ha. eexists. split; [reflexivity |].
  assert (Hlen : (k0 < length (bits tr))%nat)
    by (apply nth_error_Some; congruence).
  split; cbn [bits trooper_set_bits].
  - intros k Hk. destruct (Nat.eqb_spec k k0) as [-> | Hne].
    + exists b'. split; [apply nth_error_list_set_eq, Hlen | exact Hf'].
    + destruct (Hp k Hk) as (bk & Hnk & Hfk). exists bk.
      rewrite nth_error_list_set_neq by congruence.
      rewrite Z.add_0_r. auto.
  - intros k bk Hnk. destruct (Nat.eq_dec k0 k) as [<- | Hne].
    + exact Hk0.
    + rewrite nth_error_list_set_neq in Hnk by exact Hne. apply (Hq k bk Hnk).
Qed.

End Panels.

Section Lattice.
Variable gosort : (V3 -> V3 -> bool) -> list V3 -> list V3.
Hypothesis gosort_perm : sort_permutes gosort.
Variable level : Z.
Hypothesis level_pos : 1 <= level.
Variables cubeSize co : Q.
Hypothesis co_pos : (0 < co)%Q.

Lemma place_filling cnt cx cy cz mx my mz tr :
  0 <= cx <= level -> 0 <= cy <= level -> 0 <= cz <= level ->
  (mx == inject_Z (2 * cx - level))%Q ->
  (my == inject_Z (2 * cy - level))%Q ->
  (mz == inject_Z (2 * cz - level))%Q ->
  panels_filling level cnt tr ->
  exists tr', place gosort level cubeSize co cx cy cz mx my mz tr = Some tr' /\
    panels_filling level (fun k => cnt k + hit level k cx cy cz) tr'.
Proof.
  intros Hx Hy Hz Hmx Hmy Hmz Hp.
  pose proof (scaled_lt co _ _ _ _ co_pos Hmx Hmy) as Lxy.
  pose proof (scaled_lt co _ _ _ _ co_pos Hmx Hmz) as Lxz.
  pose proof (scaled_lt co _ _ _ _ co_pos Hmy Hmx) as Lyx.
  pose proof (scaled_lt co _ _ _ _ co_pos Hmy Hmz) as Lyz.
  pose proof (scaled_lt co _ _ _ _ co_pos Hmz Hmx) as Lzx.
  pose proof (scaled_lt co _ _ _ _ co_pos Hmz Hmy) as Lzy.
  assert (Hnone : forall hits : nat -> Z,
    (forall k, (k < 6)%nat -> hits k = 0) ->
    forall tr', panels_filling level cnt tr' ->
      panels_filling level (fun k => cnt k + hits k) tr').
  { intros hits H0 tr' Hp'. apply (panels_filling_ext level cnt); [| exact Hp'].
    intros k Hk. rewrite (H0 k Hk). lia. }
  unfold place.
  destruct (coord_cases level cx level_pos Hx)
    as [(Ex0 & ExL & Exi & Ex) | [(Ex0 & ExL & Exi & Ex) | (Ex0 & ExL & Exi & Ex)]];
  destruct (coord_cases level cy level_pos Hy)
    as [(Ey0 & EyL & Eyi & Ey) | [(Ey0 & EyL & Eyi & Ey) | (Ey0 & EyL & Eyi & Ey)]];
  destruct (coord_cases level cz level_pos Hz)
    as [(Ez0 & EzL & Ezi & Ez) | [(Ez0 & EzL & Ezi & Ez) | (Ez0 & EzL & Ezi & Ez)]];
  rewrite ?Ex0, ?ExL, ?Ey0, ?EyL, ?Ez0, ?EzL; cbn [andb orb];
  rewrite ?Lxy, ?Lxz, ?Lyx, ?Lyz, ?Lzx, ?Lzy by lia; cbn [andb orb].
  all: try (
    (* a corner or an edge: a cube of its own *)
    match goal with
    | |- context [edgeSort gosort ?k (newCube ?x ?y ?z ?s)] =>
        destruct (sorted_reset_ok gosort gosort_perm csort_Less k x y z s)
          as (c & Hr & _);
        unfold edgeSort; rewrite Hr
    end;
    eexists; split; [reflexivity |];
    apply Hnone; [| apply panels_filling_append, Hp];
    intros k Hk; unfold hit;
    do 6 (destruct k as [| k];
          [cbn [panel_tests]; rewrite ?Ex0, ?ExL, ?Exi, ?Ey0, ?EyL, ?Eyi, ?Ez0, ?EzL, ?Ezi;
           reflexivity |]);
    lia).
  all: try (
    (* the inside of a face: a cube of a panel *)
    match goal with
    | |- context [with_panel ?k0 (addCube gosort ?x ?y ?z ?s) ?t] =>
        destruct (with_panel_filling gosort gosort_perm level cnt k0 x y z s t
                    ltac:(lia) Hp) as (tr' & Hw & Hp');
        rewrite Hw
    end;
    eexists; split; [reflexivity |];
    refine (panels_filling_ext level _ _ _ _ Hp');
    intros k Hk; unfold hit;
    do 6 (destruct k as [| k];
          [cbn [panel_tests Nat.eqb];
           rewrite ?Ex0, ?ExL, ?Exi, ?Ey0, ?EyL, ?Eyi, ?Ez0, ?EzL, ?Ezi;
           reflexivity |]);
    lia).
  (* the interior *)
  eexists. split; [reflexivity |].
  apply Hnone; [| exact Hp].
  intros k Hk. unfold hit.
  do 6 (destruct k as [| k];
        [cbn [panel_tests]; rewrite ?Ex0, ?ExL, ?Exi, ?Ey0, ?EyL, ?Eyi, ?Ez0, ?EzL, ?Ezi;
         reflexivity |]).
  lia.
Qed.

End Lattice.

(** ** The three loops of newTrooper *)

Lemma for_lattice_sum {S : Type} (P : (nat -> Z) -> S -> Prop) (level : Z)
    (body : Z -> Q -> S -> option S) (f : nat -> Z -> Z) :
  (forall cnt cnt' s, (forall k, (k < 6)%nat -> cnt k = cnt' k) -> P cnt s -> P cnt' s) ->
  forall n i m s cnt,
    (m == inject_Z (2 * i - level))%Q ->
    P cnt s ->
    (forall i' m' s' cnt',
       i <= i' < i + Z.of_nat n ->
       (m' == inject_Z (2 * i' - level))%Q ->
       P cnt' s' ->
       exists s'', body i' m' s' = Some s'' /\ P (fun k => cnt' k + f k i') s'') ->
    exists s', for_lattice n body i m s = Some s' /\
      P (fun k => cnt k + sumz (f k) i n) s'.
Proof.
  intros Pext. induction n as [| n IH]; intros i m s cnt Hm Hp Hbody;
    cbn [for_lattice sumz].
  - exists s. split; [reflexivity |].
    apply (Pext cnt); [intros; lia | exact Hp].
  - destruct (Hbody i m s cnt ltac:(lia) Hm Hp) as (s1 & Hb & Hp1).
    rewrite Hb.
    destruct (IH (i + 1) (m + 2)%Q s1 (fun k => cnt k + f k i)) as (s' & Hf & Hp').
    + rewrite Hm. replace (2 * (i + 1) - level) with ((2 * i - level) + 2) by lia.
      rewrite inject_Z_plus. reflexivity.
    + exact Hp1.
    + intros i' m' s'' cnt' Hi'. apply Hbody. lia.
    + exists s'. split; [exact Hf |].
      apply (Pext (fun k => cnt k + f k i + sumz (f k) (i + 1) n));
        [intros; lia | exact Hp'].
Qed.

Lemma dominant_axes (p : Q) (n m : Z) (s : Q) :
  (0 < p)%Q ->
  dominant (mkCbox n m p 0 0 s) = true /\
  dominant (mkCbox n m (- p) 0 0 s) = true /\
  dominant (mkCbox n m 0 p 0 s) = true /\
  dominant (mkCbox n m 0 (- p) 0 s) = true /\
  dominant (mkCbox n m 0 0 p s) = true /\
  dominant (mkCbox n m 0 0 (- p) s) = true.
Proof.
  intros Hp.
  assert (H1 : Qltb 0 p = true) by (apply Qltb_true; exact Hp).
  assert (H2 : Qltb p 0 = false) by (apply Qltb_false, Qlt_le_weak; exact Hp).
  assert (Hn : (- p < 0)%Q).
  { apply (Qplus_lt_l _ _ p). ring_simplify. exact Hp. }
  assert (H3 : Qltb (- p) 0 = true) by (apply Qltb_true; exact Hn).
  assert (H4 : Qltb 0 (- p) = false) by (apply Qltb_false, Qlt_le_weak; exact Hn).
  assert (H0 : Qltb 0 0 = false) by reflexivity.
  unfold dominant. cbn [cx cy cz].
  rewrite H0, H1, H2, H3, H4. cbn [andb orb]. repeat split.
Qed.

(** C10. For every level [L >= 2] whose panel capacity [8 (L-1)²] is an
    [int], the trooper that [newTrooper] makes has its panels in the first
    six bits and nowhere else, and each of them has capacity [8 (L-1)²],
    count [4 (L-1)²], half of the capacity and below it, and [(L-1)²]
    cubes of four cells each: [addCube] seeds every cube with four cells
    and adds four to the count of the panel. *)
Theorem panels_start_half_full
    (gosort : (V3 -> V3 -> bool) -> list V3 -> list V3) (L : Z) :
  sort_permutes gosort -> 2 <= L -> 8 * (L - 1) ^ 2 <= int_max ->
  exists tr, newTrooper gosort L = Some tr /\
    (forall k b, nth_error (bits tr) k = Some (BBlock b) -> (k < 6)%nat) /\
    (forall k, (k < 6)%nat ->
       exists b, nth_error (bits tr) k = Some (BBlock b) /\
         cmax (box b) = 8 * (L - 1) ^ 2 /\
         ccnt (box b) = 4 * (L - 1) ^ 2 /\
         2 * ccnt (box b) = cmax (box b) /\
         ccnt (box b) < cmax (box b) /\
         Z.of_nat (length (cubes b)) = (L - 1) ^ 2 /\
         Forall (fun c => ccnt (box c) = 4) (cubes b) /\
         block_ok b).
Proof.
  intros Hperm HL Hmax.
  assert (Hmax' : 8 * (L - 1) ^ 2 <= 9223372036854775807) by exact Hmax.
  assert (Hsq : L - 1 <= (L - 1) ^ 2) by nia.
  assert (Hw1 : isub L 1 = L - 1).
  { apply wrap_small. unfold int_min, int_max. lia. }
  assert (Hw2 : iadd L 1 = L + 1).
  { apply wrap_small. unfold int_min, int_max. lia. }
  assert (Hw3 : imul (imul (L - 1) (L - 1)) 8 = 8 * (L - 1) ^ 2).
  { unfold imul. rewrite (wrap_small ((L - 1) * (L - 1))).
    - rewrite wrap_small; unfold int_min, int_max; nia.
    - unfold int_min, int_max. nia. }
  unfold newTrooper. cbn [lvl trooper_set_bits bits neo center mid app].
  replace (L =? 0) with false by (symmetry; apply Z.eqb_neq; lia).
  rewrite Hw2.
  set (cubeSize := (1 / inject_Z (L + 1))%Q).
  set (co := (cubeSize * (1 # 2))%Q).
  set (pc := (inject_Z L * co)%Q).
  set (n := Z.to_nat (L + 1)).
  assert (Hco : (0 < co)%Q).
  { unfold co, cubeSize. apply Qmult_lt_0_compat; [| reflexivity].
    unfold Qdiv. rewrite Qmult_1_l. apply Qinv_lt_0_compat.
    change 0%Q with (inject_Z 0). rewrite <- Zlt_Qlt. lia. }
  assert (Hpc : (0 < pc)%Q).
  { unfold pc. apply Qmult_lt_0_compat; [| exact Hco].
    change 0%Q with (inject_Z 0). rewrite <- Zlt_Qlt. lia. }
  set (tr0 := trooper_set_bits _ _).
  assert (Hstart : (inject_Z (- L) == inject_Z (2 * 0 - L))%Q)
    by (replace (2 * 0 - L) with (- L) by lia; reflexivity).
  assert (H0 : panels_filling L (fun _ => 0) tr0).
  { destruct (dominant_axes pc 0 (8 * (L - 1) ^ 2) 0 Hpc)
      as (D0 & D1 & D2 & D3 & D4 & D5).
    split.
    - intros k Hk. unfold tr0, trooper_set_bits. unfold newBlock. cbn [bits].
      rewrite Hw1, Hw3.
      do 6 (destruct k as [| k];
            [eexists; split; [reflexivity |];
             unfold panel_filling;
             cbn [box block_Box block_box cubes slab length ccnt cmax];
             repeat split; first [assumption | reflexivity | constructor] |]).
      lia.
    - intros k b Hn.
      assert (Hlt : (k < length (bits tr0))%nat)
        by (apply nth_error_Some; congruence).
      exact Hlt. }
  destruct (for_lattice_sum (panels_filling L) L
              (fun cx mx =>
                 for_lattice n (fun cy my =>
                   for_lattice n (fun cz mz =>
                     place gosort L cubeSize co cx cy cz mx my mz)
                     0 (inject_Z (- L)))
                   0 (inject_Z (- L)))
              (fun k cx => sumz (fun cy =>
                 sumz (fun cz => hit L k cx cy cz) 0 n) 0 n)
              (panels_filling_ext L) n 0 (inject_Z (- L)) tr0 (fun _ => 0)
              Hstart H0) as (tr1 & Hloop & Hp1).
  { intros cx mx s1 cnt1 Hcx Hmx Hs1.
    apply (for_lattice_sum (panels_filling L) L _
             (fun k cy => sumz (fun cz => hit L k cx cy cz) 0 n)
             (panels_filling_ext L) n 0 (inject_Z (- L)) s1 cnt1 Hstart Hs1).
    intros cy my s2 cnt2 Hcy Hmy Hs2.
    apply (for_lattice_sum (panels_filling L) L _
             (fun k cz => hit L k cx cy cz)
             (panels_filling_ext L) n 0 (inject_Z (- L)) s2 cnt2 Hstart Hs2).
    intros cz mz s3 cnt3 Hcz Hmz Hs3.
    apply (place_filling gosort Hperm L ltac:(lia) cubeSize co Hco);
      try assumption; unfold n in *; lia. }
  rewrite Hloop. eexists. split; [reflexivity |].
  assert (Hbits : bits (addCenter tr1) = bits tr1)
    by (unfold addCenter; destruct (lvl tr1 >? 0); reflexivity).
  rewrite Hbits. destruct Hp1 as [Hp Hq]. split; [exact Hq |].
  intros k Hk. destruct (Hp k Hk) as (b & Hn & Hm & Hc & Hd & Hl & Hcs & Hs).
  cbn beta in Hc, Hl. unfold n in Hc, Hl.
  rewrite (sumz_hit L k ltac:(lia) Hk) in Hc, Hl.
  rewrite Z.add_0_l in Hc, Hl.
  rewrite wrap_small in Hc by (unfold int_min, int_max; lia).
  exists b. split; [exact Hn |]. split; [exact Hm |]. split; [exact Hc |].
  split; [lia |]. split; [lia |]. split; [exact Hl |].
  split; [eapply Forall_impl; [| exact Hcs]; intros c Hcc; apply Hcc |].
  unfold block_ok. split; [lia |].
  split; [eapply Forall_impl; [| exact Hcs]; intros c Hcc; apply Hcc |].
  split; [| intros _; exact Hs].
  intros E. rewrite E in Hl. cbn in Hl. lia.
Qed.

Lemma panels_start_half_full_witness :
  exists tr, newTrooper insertion_sort 2 = Some tr /\
    (forall k b, nth_error (bits tr) k = Some (BBlock b) -> (k < 6)%nat) /\
    (forall k, (k < 6)%nat ->
       exists b, nth_error (bits tr) k = Some (BBlock b) /\
         cmax (box b) = 8 * (2 - 1) ^ 2 /\
         ccnt (box b) = 4 * (2 - 1) ^ 2 /\
         2 * ccnt (box b) = cmax (box b) /\
         ccnt (box b) < cmax (box b) /\
         Z.of_nat (length (cubes b)) = (2 - 1) ^ 2 /\
         Forall (fun c => ccnt (box c) = 4) (cubes b) /\
         block_ok b).
Proof.
  apply (panels_start_half_full insertion_sort 2).
  - intros less l. apply insertion_sort_perm.
  - lia.
  - vm_compute. discriminate.
Defined.


(** * Further properties of the code *)

(** ** trash *)

Lemma cube_reset_zero (c : cube) : reset 0 c = Some (wipe_cube c).
Proof.
  unfold reset. change (trashc ?x) with (cube_trash x).
  rewrite cube_trash_empties.
  set (c1 := set_ccnt 0 (cube_set_cells [] c)).
  assert (E : Z.to_nat (if 0 >? cmax (box c1) then cmax (box c1) else 0) = 0%nat).
  { destruct (Z.gtb_spec 0 (cmax (box c1))); [lia | reflexivity]. }
  rewrite E. reflexivity.
Qed.

Lemma reset_cubes_wipes cs : reset_cubes cs = Some (map wipe_cube cs).
Proof.
  induction cs as [| c cs IH]; cbn [reset_cubes map].
  - reflexivity.
  - rewrite cube_reset_zero, IH. reflexivity.
Qed.

Lemma block_trash_wipes b : block_trash b = Some (wipe_block b).
Proof.
  unfold block_trash, wipe_block.
  destruct b as [l [p |] cs bx]; cbn [slab cubes block_set_slab block_lvl block_box];
    rewrite reset_cubes_wipes; reflexivity.
Qed.

Lemma bit_trash_wipes b : bit_trash b = Some (wipe_bit b).
Proof.
  destruct b as [c | p]; cbn [bit_trash wipe_bit].
  - rewrite cube_trash_empties. reflexivity.
  - rewrite block_trash_wipes. reflexivity.
Qed.

Lemma trash_bits_wipes bs : trash_bits bs = Some (map wipe_bit bs).
Proof.
  induction bs as [| b bs IH]; cbn [trash_bits map].
  - reflexivity.
  - rewrite bit_trash_wipes, IH. reflexivity.
Qed.

Lemma trooper_trash_wipes tr :
  trooper_trash tr =
  Some (mkTrooper (lvl tr) None (map wipe_bit (bits tr)) None (mid tr)).
Proof.
  unfold trooper_trash. rewrite trash_bits_wipes. reflexivity.
Qed.

Lemma wipe_cube_twice c : wipe_cube (wipe_cube c) = wipe_cube c.
Proof. destruct c as [cs ctr [n m x y z s]]. reflexivity. Qed.

Lemma wipe_bit_twice b : wipe_bit (wipe_bit b) = wipe_bit b.
Proof.
  destruct b as [c | p]; cbn [wipe_bit].
  - reflexivity.
  - unfold wipe_block. cbn [block_lvl cubes block_box].
    rewrite map_map.
    rewrite (map_ext _ wipe_cube) by (intros c; apply wipe_cube_twice).
    reflexivity.
Qed.

Lemma wipe_bit_box b : bit_box (wipe_bit b) = bit_box b.
Proof. destruct b as [c | p]; reflexivity. Qed.

Lemma wipe_bit_parts b : bit_parts (wipe_bit b) = [].
Proof.
  destruct b as [c | p]; cbn [wipe_bit bit_parts]; [reflexivity |].
  unfold block_parts, wipe_block. cbn [slab cubes opt_part app].
  induction (cubes p) as [| c cs IH]; cbn; [reflexivity | exact IH].
Qed.

Lemma health_fold bs acc :
  fold_left (fun total b => iadd total (ccnt (bit_box b))) bs (wrap acc) =
  wrap (acc + sum_ccnt bs).
Proof.
  unfold sum_ccnt.
  revert acc. induction bs as [| b bs IH]; intros acc; cbn [fold_left fold_right].
  - rewrite Z.add_0_r. reflexivity.
  - rewrite wrap_add, IH. f_equal. lia.
Qed.

Lemma health_sum tr : health tr = wrap (sum_ccnt (bits tr)).
Proof.
  unfold health. change 0 with (wrap 0) at 1. rewrite health_fold. reflexivity.
Qed.

Lemma sum_ccnt_ext bs bs' :
  map bit_box bs = map bit_box bs' -> sum_ccnt bs = sum_ccnt bs'.
Proof.
  revert bs'. induction bs as [| b bs IH]; intros [| b' bs'] E; cbn [map] in E;
    try discriminate; [reflexivity |].
  injection E as E1 E2. unfold sum_ccnt in *. cbn [fold_right].
  rewrite E1, (IH bs' E2). reflexivity.
Qed.

Lemma wiped_bits_parts bs : flat_map bit_parts (map wipe_bit bs) = [].
Proof.
  induction bs as [| b bs IH]; cbn [map flat_map]; [reflexivity |].
  rewrite wipe_bit_parts, IH. reflexivity.
Qed.

(** X1. [trash] on a trooper never panics, whatever state the trooper is
    in: it leaves the trooper without any part and without [neo] and
    [center], keeps the [cbox] of every bit (so [health] is what it was),
    and a second [trash] changes nothing. *)
Theorem trooper_trash_clears (tr : trooper) :
  exists tr1, trooper_trash tr = Some tr1 /\
    trooper_parts tr1 = [] /\ neo tr1 = None /\ center tr1 = None /\
    map bit_box (bits tr1) = map bit_box (bits tr) /\
    health tr1 = health tr /\
    trooper_trash tr1 = Some tr1.
Proof.
  rewrite trooper_trash_wipes. eexists. split; [reflexivity |].
  assert (Hbox : map bit_box (map wipe_bit (bits tr)) = map bit_box (bits tr)).
  { rewrite map_map. apply map_ext. intros b. apply wipe_bit_box. }
  split; [| split; [reflexivity | split; [reflexivity | split; [exact Hbox | split]]]].
  - unfold trooper_parts. cbn [neo center bits opt_part app].
    apply wiped_bits_parts.
  - rewrite !health_sum. cbn [bits]. f_equal. apply sum_ccnt_ext, Hbox.
  - rewrite trooper_trash_wipes. cbn [lvl bits mid]. f_equal. f_equal.
    rewrite map_map. apply map_ext. intros b. apply wipe_bit_twice.
Qed.

(** ** How a panel spreads its cells over its cubes *)

Lemma addCell_scan_none addeven cs :
  (forall d, In d cs -> addeven < ccnt (box d)) ->
  addCell_scan addeven cs = Some (cs, false).
Proof.
  induction cs as [| c cs IH]; intros Hall; cbn [addCell_scan].
  - reflexivity.
  - replace (ccnt (box c) <=? addeven) with false
      by (symmetry; apply Z.leb_gt; apply Hall; left; reflexivity).
    rewrite IH by (intros d Hd; apply Hall; right; exact Hd). reflexivity.
Qed.

Lemma addCell_scan_first addeven l1 c l2 :
  (forall d, In d l1 -> addeven < ccnt (box d)) ->
  ccnt (box c) <= addeven ->
  addCell_scan addeven (l1 ++ c :: l2) =
  ('(c1, _) <- attach c ;; Some (l1 ++ c1 :: l2, true)).
Proof.
  intros Hl1 Hc. induction l1 as [| d l1 IH]; cbn [addCell_scan app].
  - replace (ccnt (box c) <=? addeven) with true
      by (symmetry; apply Z.leb_le; exact Hc).
    reflexivity.
  - replace (ccnt (box d) <=? addeven) with false
      by (symmetry; apply Z.leb_gt; apply Hl1; left; reflexivity).
    rewrite IH by (intros e He; apply Hl1; right; exact He).
    destruct (attach c) as [[c1 r] |]; reflexivity.
Qed.

Lemma addCell_rounds_first fuel addeven l1 c l2 :
  (forall d, In d l1 -> ccnt (box c) < ccnt (box d)) ->
  (forall d, In d l2 -> ccnt (box c) <= ccnt (box d)) ->
  addeven <= ccnt (box c) < addeven + Z.of_nat fuel ->
  addCell_rounds fuel addeven (l1 ++ c :: l2) =
  ('(c1, _) <- attach c ;; Some (l1 ++ c1 :: l2)).
Proof.
  intros Hl1 Hl2. revert addeven.
  induction fuel as [| fuel IH]; intros addeven Ha; [lia |].
  cbn [addCell_rounds].
  destruct (Z.eq_dec (ccnt (box c)) addeven) as [E | E].
  - rewrite addCell_scan_first; [| intros d Hd; specialize (Hl1 d Hd); lia | lia].
    destruct (attach c) as [[c1 r] |]; reflexivity.
  - rewrite addCell_scan_none.
    + apply IH. lia.
    + intros d Hd. apply in_app_or in Hd.
      destruct Hd as [Hd | [<- | Hd]];
        [specialize (Hl1 d Hd) | | specialize (Hl2 d Hd)]; lia.
Qed.

(** X2. [addCell] of a panel gives the cell to the first cube that holds
    the fewest cells: when the cube [c] has fewer than 8 cells, the cubes
    before it hold more and the cubes after it at least as many, [c] is the
    one that [addCell] attaches to, and no other cube changes. *)
Theorem addCell_first_least (b : block) (l1 l2 : list cube) (c : cube) :
  cubes b = l1 ++ c :: l2 ->
  Forall cube_ok (cubes b) ->
  ccnt (box c) < 8 ->
  (forall d, In d l1 -> ccnt (box c) < ccnt (box d)) ->
  (forall d, In d l2 -> ccnt (box c) <= ccnt (box d)) ->
  exists c1, attach c = Some (c1, true) /\
    ccnt (box c1) = ccnt (box c) + 1 /\
    block_addCell b = Some (block_set_cubes (l1 ++ c1 :: l2) b).
Proof.
  intros Hcs Hok Hlt Hl1 Hl2.
  assert (Hc : cube_ok c).
  { rewrite Hcs in Hok. rewrite Forall_forall in Hok. apply Hok.
    apply in_or_app. right. left. reflexivity. }
  pose proof (law_range cube_ok cube_laws c Hc) as Hr.
  assert (Hc8 : cmax (box c) = 8) by apply Hc.
  destruct (attach_room cube_ok cube_laws c Hc ltac:(lia)) as (c1 & Ha & Hb & _).
  exists c1. split; [exact Ha |]. split; [rewrite Hb; reflexivity |].
  unfold block_addCell.
  destruct (cubes b) as [| c0 cs0] eqn:Ecs.
  { destruct l1; discriminate Hcs. }
  assert (H0 : cmax (box c0) = 8) by (inversion Hok as [| ? ? Hc0 _]; apply Hc0).
  rewrite H0, Hcs.
  rewrite (addCell_rounds_first _ 0 l1 c l2 Hl1 Hl2) by lia.
  rewrite Ha. reflexivity.
Qed.

Lemma removeCell_scan_first l1 c l2 :
  (forall d, In d l1 -> ccnt (box d) <= 0) ->
  removeCell_scan (l1 ++ c :: l2) =
  ('(c1, done) <- detach c ;;
   if done then Some (l1 ++ c1 :: l2)
   else cs1 <- removeCell_scan l2 ;; Some (l1 ++ c1 :: cs1)).
Proof.
  intros Hl1. induction l1 as [| d l1 IH]; cbn [removeCell_scan app].
  - destruct (detach c) as [[c1 [|]] |]; reflexivity.
  - assert (Hd : detach d = Some (d, false)).
    { unfold detach.
      replace (ccnt (box d) >? 0) with false
        by (symmetry; rewrite Z.gtb_ltb; apply Z.ltb_ge; apply Hl1; left; reflexivity).
      reflexivity. }
    rewrite Hd, IH by (intros e He; apply Hl1; right; exact He).
    destruct (detach c) as [[c1 [|]] |]; try reflexivity.
    destruct (removeCell_scan l2); reflexivity.
Qed.

(** X3. [removeCell] of a panel takes the cell from the first cube that
    holds one: when the cubes before the well-formed cube [c] are empty and
    [c] is not, [c] is the one that [removeCell] detaches from, and no
    other cube changes. *)
Theorem removeCell_first_nonempty (b : block) (l1 l2 : list cube) (c : cube) :
  cubes b = l1 ++ c :: l2 ->
  cube_ok c ->
  0 < ccnt (box c) ->
  (forall d, In d l1 -> ccnt (box d) <= 0) ->
  exists c1, detach c = Some (c1, true) /\
    ccnt (box c1) = ccnt (box c) - 1 /\
    block_removeCell b = Some (block_set_cubes (l1 ++ c1 :: l2) b).
Proof.
  intros Hcs Hc Hpos Hl1.
  destruct (detach_box cube_ok cube_laws c Hc Hpos) as (c1 & Hd & _ & Hb).
  exists c1. split; [exact Hd |]. split; [rewrite Hb; reflexivity |].
  unfold block_removeCell. rewrite Hcs, (removeCell_scan_first l1 c l2 Hl1), Hd.
  reflexivity.
Qed.

Lemma panel3_cubes_ok : Forall cube_ok (cubes panel3).
Proof.
  unfold cube_ok. vm_compute.
  repeat constructor; discriminate.
Qed.

Lemma addCell_first_least_witness :
  exists c1, attach (nth 1 (cubes panel3) sample_cube) = Some (c1, true) /\
    ccnt (box c1) = ccnt (box (nth 1 (cubes panel3) sample_cube)) + 1 /\
    block_addCell panel3 =
    Some (block_set_cubes (firstn 1 (cubes panel3) ++ c1 :: skipn 2 (cubes panel3)) panel3).
Proof.
  apply (addCell_first_least panel3 (firstn 1 (cubes panel3)) (skipn 2 (cubes panel3))).
  - vm_compute. reflexivity.
  - apply panel3_cubes_ok.
  - vm_compute. reflexivity.
  - intros d [<- | []]. vm_compute. reflexivity.
  - intros d [<- | [<- | []]]; vm_compute; discriminate.
Defined.

Lemma removeCell_first_nonempty_witness :
  exists c1, detach (nth 0 (cubes panel3) sample_cube) = Some (c1, true) /\
    ccnt (box c1) = ccnt (box (nth 0 (cubes panel3) sample_cube)) - 1 /\
    block_removeCell panel3 =
    Some (block_set_cubes ([] ++ c1 :: skipn 1 (cubes panel3)) panel3).
Proof.
  apply (removeCell_first_nonempty panel3 [] (skipn 1 (cubes panel3))).
  - vm_compute. reflexivity.
  - unfold cube_ok. vm_compute.
    split; [reflexivity |]. split; [reflexivity |].
    split; [split; discriminate | reflexivity].
  - vm_compute. reflexivity.
  - intros d [].
Defined.

(** ** A panel stays in step with its cubes *)

Lemma cube_total_app l1 l2 :
  cube_total (l1 ++ l2) = cube_total l1 + cube_total l2.
Proof.
  unfold cube_total. induction l1 as [| c l1 IH]; cbn [app fold_right].
  - reflexivity.
  - rewrite IH. lia.
Qed.

Lemma cube_total_cons c l : cube_total (c :: l) = ccnt (box c) + cube_total l.
Proof. reflexivity. Qed.

Lemma cube_total_wiped cs : cube_total (map wipe_cube cs) = 0.
Proof.
  induction cs as [| c cs IH]; [reflexivity |].
  cbn [map]. rewrite cube_total_cons, IH. reflexivity.
Qed.

Lemma wiped_cubes_empty cs :
  Forall (fun c => ccnt (box c) = 0 /\ cells c = []) (map wipe_cube cs).
Proof.
  induction cs as [| c cs IH]; cbn [map]; constructor; auto.
Qed.

Lemma cube_total_zero cs :
  Forall (fun c => ccnt (box c) = 0 /\ cells c = []) cs -> cube_total cs = 0.
Proof.
  induction 1 as [| c cs [Hc _] _ IH]; [reflexivity |].
  rewrite cube_total_cons, Hc, IH. reflexivity.
Qed.

Lemma cube_total_lower m cs :
  (forall d, In d cs -> m <= ccnt (box d)) ->
  m * Z.of_nat (length cs) <= cube_total cs.
Proof.
  induction cs as [| c cs IH]; intros Hall.
  - cbn. lia.
  - rewrite cube_total_cons. cbn [length].
    specialize (IH (fun d Hd => Hall d (or_intror Hd))).
    specialize (Hall c (or_introl eq_refl)). lia.
Qed.

Lemma first_least_split (cs : list cube) :
  cs <> [] ->
  exists l1 c l2, cs = l1 ++ c :: l2 /\
    (forall d, In d l1 -> ccnt (box c) < ccnt (box d)) /\
    (forall d, In d l2 -> ccnt (box c) <= ccnt (box d)).
Proof.
  induction cs as [| c cs IH]; intros Hne; [congruence |].
  destruct cs as [| c' cs'].
  - exists [], c, []. split; [reflexivity |]. split; intros d [].
  - destruct (IH ltac:(discriminate)) as (l1 & m & l2 & E & H1 & H2).
    destruct (Z_le_gt_dec (ccnt (box c)) (ccnt (box m))) as [Hle | Hgt].
    + exists [], c, (c' :: cs'). split; [reflexivity |]. split; [intros d [] |].
      intros d Hd. rewrite E in Hd. apply in_app_or in Hd.
      destruct Hd as [Hd | [<- | Hd]];
        [specialize (H1 d Hd) | | specialize (H2 d Hd)]; lia.
    + exists (c :: l1), m, l2. split; [rewrite E; reflexivity |].
      split; [| exact H2].
      intros d [<- | Hd]; [lia | apply H1, Hd].
Qed.

Lemma first_nonempty_split (cs : list cube) :
  (forall d, In d cs -> 0 <= ccnt (box d)) ->
  0 < cube_total cs ->
  exists l1 c l2, cs = l1 ++ c :: l2 /\
    (forall d, In d l1 -> ccnt (box d) <= 0) /\ 0 < ccnt (box c).
Proof.
  induction cs as [| c cs IH]; intros Hall Hpos.
  - cbn in Hpos. lia.
  - rewrite cube_total_cons in Hpos.
    destruct (Z_lt_le_dec 0 (ccnt (box c))) as [Hc | Hc].
    + exists [], c, cs. split; [reflexivity |]. split; [intros d [] | exact Hc].
    + destruct (IH (fun d Hd => Hall d (or_intror Hd)) ltac:(lia))
        as (l1 & m & l2 & E & H1 & Hm).
      exists (c :: l1), m, l2. split; [rewrite E; reflexivity |].
      split; [| exact Hm].
      intros d [<- | Hd]; [exact Hc | apply H1, Hd].
Qed.

Lemma length_middle {A : Type} (l1 l2 : list A) (a b : A) :
  length (l1 ++ a :: l2) = length (l1 ++ b :: l2).
Proof. rewrite !length_app. reflexivity. Qed.

Lemma block_sync_laws : BoxLaws block_sync.
Proof.
  constructor.
  - intros b (Hok & _). apply (law_range block_ok block_laws b Hok).
  - reflexivity.
  - (* merge *)
    intros b (Hok & Hm & Hlt & Hfull) Hf.
    destruct (law_mergec block_ok block_laws b Hok Hf) as (b' & Hmg & Hb & Hok').
    exists b'. split; [exact Hmg |]. split; [exact Hb |].
    change (mergec ?x) with (block_merge x) in Hmg. unfold block_merge in Hmg.
    rewrite block_trash_wipes in Hmg. injection Hmg as <-.
    split; [exact Hok' |].
    cbn [box block_Box block_box block_set_slab wipe_block cubes slab block_lvl
         set_ccnt block_set_ccnt block_set_box] in *.
    rewrite length_map.
    split; [exact Hm |]. split; [intros; cbn [ccnt cmax cbox_set_ccnt] in *; lia |].
    intros _. split; [apply wiped_cubes_empty | intros _; discriminate].
  - (* addCell *)
    intros b (Hok & Hm & Hlt & Hfull) Hf.
    pose proof (law_range block_ok block_laws b Hok) as Hr.
    destruct (law_addc block_ok block_laws b Hok Hf) as (b' & Ha & Hb & Hok').
    exists b'. split; [exact Ha |]. split; [exact Hb |]. split; [exact Hok' |].
    specialize (Hlt ltac:(lia)).
    assert (Hcs : Forall cube_ok (cubes b)) by apply Hok.
    assert (Hne : cubes b <> []).
    { intros E. rewrite E in Hm. cbn [length] in Hm. lia. }
    destruct (first_least_split (cubes b) Hne) as (l1 & c & l2 & E & H1 & H2).
    assert (Hc8 : ccnt (box c) < 8).
    { destruct (Z_lt_le_dec (ccnt (box c)) 8) as [H | H]; [exact H |].
      pose proof (cube_total_lower 8 (cubes b)) as Hlow.
      assert (forall d, In d (cubes b) -> 8 <= ccnt (box d)).
      { intros d Hd. rewrite E in Hd. apply in_app_or in Hd.
        destruct Hd as [Hd | [<- | Hd]];
          [specialize (H1 d Hd) | | specialize (H2 d Hd)]; lia. }
      specialize (Hlow H0). lia. }
    destruct (addCell_first_least (block_set_ccnt (ccnt (box b) + 1) b) l1 l2 c E Hcs Hc8 H1 H2)
      as (c1 & _ & Hc1 & Hadd).
    change (addc (set_ccnt ?n ?x)) with (block_addCell (block_set_ccnt n x)) in Ha.
    rewrite Hadd in Ha.
    injection Ha as <-.
    cbn [box block_Box block_box block_set_cubes cubes slab block_lvl
         set_ccnt block_set_ccnt block_set_box ccnt cmax cbox_set_ccnt] in *.
    rewrite (length_middle l1 l2 c1 c), <- E.
    split; [exact Hm |]. split; [| intros; lia].
    intros _. rewrite E in Hlt.
    rewrite cube_total_app, cube_total_cons in Hlt |- *. lia.
  - (* removeCell *)
    intros b (Hok & Hm & Hlt & Hfull) Hf.
    destruct (law_remc block_ok block_laws b Hok Hf) as (b' & Ha & Hb & Hok').
    exists b'. split; [exact Ha |]. split; [exact Hb |]. split; [exact Hok' |].
    specialize (Hlt ltac:(lia)).
    assert (Hcs : Forall cube_ok (cubes b)) by apply Hok.
    rewrite Forall_forall in Hcs.
    destruct (first_nonempty_split (cubes b)) as (l1 & c & l2 & E & H1 & Hc).
    { intros d Hd. apply (law_range cube_ok cube_laws d (Hcs d Hd)). }
    { lia. }
    assert (Hcok : cube_ok c).
    { apply Hcs. rewrite E. apply in_or_app. right. left. reflexivity. }
    destruct (removeCell_first_nonempty b l1 l2 c E Hcok Hc H1)
      as (c1 & _ & Hc1 & Hrem).
    change (remc ?x) with (block_removeCell x) in Ha. rewrite Hrem in Ha.
    injection Ha as <-.
    cbn [box block_Box block_box block_set_cubes cubes slab block_lvl
         set_ccnt block_set_ccnt block_set_box ccnt cmax cbox_set_ccnt] in *.
    rewrite (length_middle l1 l2 c1 c), <- E.
    split; [exact Hm |]. split; [| intros; lia].
    intros _. rewrite E in Hlt.
    rewrite cube_total_app, cube_total_cons in Hlt |- *. lia.
  - (* trash *)
    intros b (Hok & Hm & Hlt & Hfull).
    pose proof (law_range block_ok block_laws b Hok) as Hr.
    destruct (law_trashc block_ok block_laws b Hok) as (b' & Ha & Hb & Hok').
    exists b'. split; [exact Ha |]. split; [exact Hb |]. split; [exact Hok' |].
    change (trashc ?x) with (block_trash x) in Ha.
    rewrite block_trash_wipes in Ha. injection Ha as <-.
    cbn [box block_Box block_box wipe_block cubes slab block_lvl
         set_ccnt block_set_ccnt block_set_box ccnt cmax cbox_set_ccnt] in *.
    rewrite length_map.
    split; [exact Hm |]. split; [intros _; apply cube_total_wiped |].
    intros E0. split; [apply wiped_cubes_empty | intros; lia].
Qed.

(** X4. A panel in step with its cubes stays so through every run of
    [attach], [detach] and [reset]: below capacity its count is the sum of
    the counts of its cubes and it has no slab; at capacity its cubes are
    empty and it shows the slab. *)
Theorem panel_in_step (b : block) (os : list op) :
  block_sync b ->
  exists b', run os b = Some b' /\ block_sync b' /\
    (ccnt (box b') < cmax (box b') ->
       cube_total (cubes b') = ccnt (box b') /\ slab b' = None) /\
    (0 < cmax (box b') -> ccnt (box b') = cmax (box b') ->
       cube_total (cubes b') = 0 /\ slab b' <> None).
Proof.
  intros Hs.
  destruct (run_inv block_sync block_sync_laws os b Hs) as (b' & Hr & Hs' & _).
  exists b'. split; [exact Hr |]. split; [exact Hs' |].
  destruct Hs' as (Hok & Hm & Hlt & Hfull). split.
  - intros H. split; [apply Hlt, H |]. apply Hok, H.
  - intros Hpos H. destruct (Hfull H) as [Hz Hsl].
    split; [apply cube_total_zero, Hz | apply Hsl, Hpos].
Qed.

Lemma sample_panel_sync : block_sync sample_panel.
Proof.
  split; [apply sample_panel_ok |]. vm_compute.
  split; [reflexivity |]. split; [reflexivity |].
  intros H. discriminate H.
Qed.

Lemma panel_in_step_witness :
  exists b', run [Reset 8; Detach; Attach; Detach; Detach] sample_panel = Some b' /\
    block_sync b' /\
    (ccnt (box b') < cmax (box b') ->
       cube_total (cubes b') = ccnt (box b') /\ slab b' = None) /\
    (0 < cmax (box b') -> ccnt (box b') = cmax (box b') ->
       cube_total (cubes b') = 0 /\ slab b' <> None).
Proof.
  apply (panel_in_step sample_panel).
  apply sample_panel_sync.
Defined.

(** ** attach and detach on the trooper *)

Lemma bit_attach_full b : bit_full b -> bit_attach b = Some (b, false).
Proof.
  unfold bit_full. destruct b as [c | p]; cbn [bit_box bit_attach]; intros E.
  - rewrite (attach_full (fun _ => True) c I E). reflexivity.
  - rewrite (attach_full (fun _ => True) p I E). reflexivity.
Qed.

Lemma bit_attach_room b :
  bit_ok b -> ~ bit_full b ->
  exists b', bit_attach b = Some (b', true) /\ bit_ok b' /\
    bit_box b' = cbox_set_ccnt (ccnt (bit_box b) + 1) (bit_box b).
Proof.
  unfold bit_full. destruct b as [c | p]; cbn [bit_box bit_attach bit_ok]; intros Hok Hnf.
  - pose proof (law_range cube_ok cube_laws c Hok) as Hr.
    destruct (attach_room cube_ok cube_laws c Hok ltac:(lia)) as (c' & Ha & Hb & Hok' & _).
    rewrite Ha. exists (BCube c'). auto.
  - pose proof (law_range block_ok block_laws p Hok) as Hr.
    destruct (attach_room block_ok block_laws p Hok ltac:(lia)) as (p' & Ha & Hb & Hok' & _).
    rewrite Ha. exists (BBlock p'). auto.
Qed.

Lemma attach_scan_full bs :
  Forall bit_full bs -> attach_scan bs = Some (bs, false).
Proof.
  induction 1 as [| b bs Hb _ IH]; cbn [attach_scan].
  - reflexivity.
  - rewrite (bit_attach_full b Hb), IH. reflexivity.
Qed.

Lemma attach_scan_first l1 b l2 :
  Forall bit_full l1 ->
  attach_scan (l1 ++ b :: l2) =
  ('(b1, done) <- bit_attach b ;;
   if done then Some (l1 ++ b1 :: l2, true)
   else '(bs1, r) <- attach_scan l2 ;; Some (l1 ++ b1 :: bs1, r)).
Proof.
  induction 1 as [| d l1 Hd _ IH]; cbn [attach_scan app].
  - destruct (bit_attach b) as [[b1 [|]] |]; reflexivity.
  - rewrite (bit_attach_full d Hd), IH.
    destruct (bit_attach b) as [[b1 [|]] |]; try reflexivity.
    destruct (attach_scan l2) as [[bs1 r] |]; reflexivity.
Qed.

Lemma sum_ccnt_app l1 l2 : sum_ccnt (l1 ++ l2) = sum_ccnt l1 + sum_ccnt l2.
Proof.
  unfold sum_ccnt. induction l1 as [| b l1 IH]; cbn [app fold_right].
  - reflexivity.
  - rewrite IH. lia.
Qed.

Lemma sum_ccnt_cons b l : sum_ccnt (b :: l) = ccnt (bit_box b) + sum_ccnt l.
Proof. reflexivity. Qed.

Lemma sum_cmax_app l1 l2 : sum_cmax (l1 ++ l2) = sum_cmax l1 + sum_cmax l2.
Proof.
  unfold sum_cmax. induction l1 as [| b l1 IH]; cbn [app fold_right].
  - reflexivity.
  - rewrite IH. lia.
Qed.

Lemma sum_cmax_cons b l : sum_cmax (b :: l) = cmax (bit_box b) + sum_cmax l.
Proof. reflexivity. Qed.

(** X5. [attach] on the trooper gives the cell to the first bit that has
    room: when the bits before the well-formed bit [b] are full and [b] is
    not, [b] alone changes, its count and [health] grow by one (in [int]
    arithmetic) and no signal is raised. *)
Theorem trooper_attach_first_room (tr : trooper) (l1 l2 : list bit) (b : bit) :
  bits tr = l1 ++ b :: l2 ->
  Forall bit_full l1 -> bit_ok b -> ~ bit_full b ->
  exists b', bit_attach b = Some (b', true) /\ bit_ok b' /\
    ccnt (bit_box b') = ccnt (bit_box b) + 1 /\
    cmax (bit_box b') = cmax (bit_box b) /\
    trooper_attach tr = Some (trooper_set_bits (l1 ++ b' :: l2) tr, []) /\
    health (trooper_set_bits (l1 ++ b' :: l2) tr) = iadd (health tr) 1.
Proof.
  intros Hbits Hfull Hok Hroom.
  destruct (bit_attach_room b Hok Hroom) as (b' & Ha & Hok' & Hb).
  exists b'. split; [exact Ha |]. split; [exact Hok' |].
  split; [rewrite Hb; reflexivity |]. split; [rewrite Hb; reflexivity |].
  split.
  - unfold trooper_attach. rewrite Hbits, (attach_scan_first l1 b l2 Hfull), Ha.
    reflexivity.
  - rewrite !health_sum, wrap_add. cbn [bits trooper_set_bits]. rewrite Hbits.
    rewrite !sum_ccnt_app, !sum_ccnt_cons, Hb. cbn [ccnt cbox_set_ccnt].
    f_equal. lia.
Qed.

Lemma trooper_attach_first_room_witness :
  exists b', bit_attach (nth 0 (bits trooper2) (BCube sample_cube)) = Some (b', true) /\
    bit_ok b' /\
    ccnt (bit_box b') = ccnt (bit_box (nth 0 (bits trooper2) (BCube sample_cube))) + 1 /\
    cmax (bit_box b') = cmax (bit_box (nth 0 (bits trooper2) (BCube sample_cube))) /\
    trooper_attach trooper2 =
    Some (trooper_set_bits ([] ++ b' :: skipn 1 (bits trooper2)) trooper2, []) /\
    health (trooper_set_bits ([] ++ b' :: skipn 1 (bits trooper2)) trooper2) =
    iadd (health trooper2) 1.
Proof.
  apply (trooper_attach_first_room trooper2 [] (skipn 1 (bits trooper2))).
  - vm_compute. reflexivity.
  - constructor.
  - unfold bit_ok, block_ok, cube_ok. vm_compute.
    split; [split; discriminate |]. split; [| split; [discriminate | reflexivity]].
    repeat constructor; discriminate.
  - unfold bit_full. vm_compute. discriminate.
Defined.

(** X6. When every bit is full, [attach] on the trooper changes no count
    and raises the evolve signal.  If [neo] is not there yet the trooper
    collapses: every bit is trashed, [neo] is made, and the trooper owns
    [neo] and (above level 0) the center and nothing else.  A collapsed
    trooper is left as it is by every further [attach], which raises the
    signal again. *)
Theorem trooper_attach_all_full (tr : trooper) :
  Forall bit_full (bits tr) ->
  exists tr', trooper_attach tr = Some (tr', [Evolve]) /\
    health tr' = health tr /\
    (neo tr <> None -> tr' = tr) /\
    (neo tr = None ->
       neo tr' = Some (SetFacade "flat" "cube" "blue" AddPart) /\
       bits tr' = map wipe_bit (bits tr) /\
       trooper_parts tr' = opt_part (neo tr') ++ opt_part (center tr') /\
       (center tr' <> None <-> 0 < lvl tr)) /\
    trooper_attach tr' = Some (tr', [Evolve]).
Proof.
  intros Hfull.
  assert (Hstay : forall t, Forall bit_full (bits t) -> neo t <> None ->
            trooper_attach t = Some (t, [Evolve])).
  { intros t Hf Hn. unfold trooper_attach. rewrite (attach_scan_full _ Hf).
    unfold evolve. destruct t as [l [p |] bs c m]; cbn [neo] in *;
      [reflexivity | congruence]. }
  destruct (neo tr) as [p |] eqn:En.
  - exists tr. rewrite (Hstay tr Hfull) by congruence.
    split; [reflexivity |]. split; [reflexivity |]. split; [reflexivity |].
    split; [discriminate | reflexivity].
  - unfold trooper_attach at 1. rewrite (attach_scan_full _ Hfull).
    assert (Eset : trooper_set_bits (bits tr) tr = tr) by (destruct tr; reflexivity).
    rewrite Eset. unfold evolve. rewrite En. unfold trooper_merge.
    rewrite trooper_trash_wipes.
    eexists. split; [reflexivity |].
    assert (Hbits : forall t, bits (addCenter t) = bits t)
      by (intros t; unfold addCenter; destruct (lvl t >? 0); reflexivity).
    assert (Hneo : forall t, neo (addCenter t) = neo t)
      by (intros t; unfold addCenter; destruct (lvl t >? 0); reflexivity).
    assert (Hbox : map bit_box (map wipe_bit (bits tr)) = map bit_box (bits tr)).
    { rewrite map_map. apply map_ext. intros b. apply wipe_bit_box. }
    split; [| split; [intros H; exfalso; apply H; reflexivity | split]].
    + rewrite !health_sum, Hbits. cbn [bits trooper_set_neo]. f_equal.
      apply sum_ccnt_ext, Hbox.
    + intros _. rewrite Hneo, Hbits. cbn [neo bits trooper_set_neo].
      split; [reflexivity |]. split; [reflexivity |].
      split.
      * unfold trooper_parts. rewrite Hneo, Hbits. cbn [neo bits trooper_set_neo].
        rewrite wiped_bits_parts, app_nil_r. reflexivity.
      * unfold addCenter. cbn [lvl trooper_set_neo].
        destruct (Z.gtb_spec (lvl tr) 0); cbn [center trooper_set_center trooper_set_neo];
          split; intros Hx; try congruence; try lia; discriminate.
    + apply Hstay.
      * rewrite Hbits. cbn [bits trooper_set_neo].
        rewrite Forall_forall in Hfull |- *. intros b Hb.
        apply in_map_iff in Hb. destruct Hb as (b0 & <- & Hb0).
        unfold bit_full. rewrite wipe_bit_box. apply (Hfull b0 Hb0).
      * rewrite Hneo. discriminate.
Qed.

Lemma trooper_attach_all_full_witness :
  exists tr', trooper_attach (mkTrooper 1 None [BCube full_cube; BBlock full_panel] None 8)
              = Some (tr', [Evolve]) /\
    health tr' = health (mkTrooper 1 None [BCube full_cube; BBlock full_panel] None 8) /\
    (neo (mkTrooper 1 None [BCube full_cube; BBlock full_panel] None 8) <> None ->
       tr' = mkTrooper 1 None [BCube full_cube; BBlock full_panel] None 8) /\
    (neo (mkTrooper 1 None [BCube full_cube; BBlock full_panel] None 8) = None ->
       neo tr' = Some (SetFacade "flat" "cube" "blue" AddPart) /\
       bits tr' = map wipe_bit
                    (bits (mkTrooper 1 None [BCube full_cube; BBlock full_panel] None 8)) /\
       trooper_parts tr' = opt_part (neo tr') ++ opt_part (center tr') /\
       (center tr' <> None <->
        0 < lvl (mkTrooper 1 None [BCube full_cube; BBlock full_panel] None 8))) /\
    trooper_attach tr' = Some (tr', [Evolve]).
Proof.
  apply (trooper_attach_all_full
           (mkTrooper 1 None [BCube full_cube; BBlock full_panel] None 8)).
  repeat constructor.
Defined.

Lemma wrap_sub a b : isub (wrap a) b = wrap (a - b).
Proof.
  unfold isub, wrap.
  replace ((a + 2 ^ 63) mod 2 ^ 64 - 2 ^ 63 - b + 2 ^ 63)
    with ((a + 2 ^ 63) mod 2 ^ 64 - b) by lia.
  rewrite Zminus_mod_idemp_l. f_equal. f_equal. lia.
Qed.

Lemma bit_detach_empty b : bit_empty b -> bit_detach b = Some (b, false).
Proof.
  unfold bit_empty. destruct b as [c | p]; cbn [bit_box bit_detach]; intros E.
  - rewrite (detach_empty (fun _ => True) c I E). reflexivity.
  - rewrite (detach_empty (fun _ => True) p I E). reflexivity.
Qed.

Lemma bit_detach_some b :
  bit_ok b -> 0 < ccnt (bit_box b) ->
  exists b', bit_detach b = Some (b', true) /\ bit_ok b' /\
    bit_box b' = cbox_set_ccnt (ccnt (bit_box b) - 1) (bit_box b).
Proof.
  destruct b as [c | p]; cbn [bit_box bit_detach bit_ok]; intros Hok Hpos.
  - destruct (detach_box cube_ok cube_laws c Hok Hpos) as (c' & Hd & Hok' & Hb).
    rewrite Hd. exists (BCube c'). auto.
  - destruct (detach_box block_ok block_laws p Hok Hpos) as (p' & Hd & Hok' & Hb).
    rewrite Hd. exists (BBlock p'). auto.
Qed.

Lemma detach_scan_empty bs :
  Forall bit_empty bs -> detach_scan bs = Some (bs, false).
Proof.
  induction 1 as [| b bs Hb _ IH]; cbn [detach_scan].
  - reflexivity.
  - rewrite (bit_detach_empty b Hb), IH. reflexivity.
Qed.

Lemma detach_scan_first l1 b l2 :
  Forall bit_empty l1 ->
  detach_scan (l1 ++ b :: l2) =
  ('(b1, done) <- bit_detach b ;;
   if done then Some (l1 ++ b1 :: l2, true)
   else '(bs1, r) <- detach_scan l2 ;; Some (l1 ++ b1 :: bs1, r)).
Proof.
  induction 1 as [| d l1 Hd _ IH]; cbn [detach_scan app].
  - destruct (bit_detach b) as [[b1 [|]] |]; reflexivity.
  - rewrite (bit_detach_empty d Hd), IH.
    destruct (bit_detach b) as [[b1 [|]] |]; try reflexivity.
    destruct (detach_scan l2) as [[bs1 r] |]; reflexivity.
Qed.

(** X7. [detach] on a trooper that is not collapsed takes the cell from
    the first bit that holds one: when the bits before the well-formed bit
    [b] are empty and [b] is not, [b] alone changes, its count and [health]
    drop by one and no signal is raised.  When every bit is empty the
    trooper is left as it is and the devolve signal is raised. *)
Theorem trooper_detach_first_cell (tr : trooper) :
  neo tr = None ->
  (forall l1 b l2,
     bits tr = l1 ++ b :: l2 ->
     Forall bit_empty l1 -> bit_ok b -> 0 < ccnt (bit_box b) ->
     exists b', bit_detach b = Some (b', true) /\ bit_ok b' /\
       ccnt (bit_box b') = ccnt (bit_box b) - 1 /\
       cmax (bit_box b') = cmax (bit_box b) /\
       trooper_detach tr = Some (trooper_set_bits (l1 ++ b' :: l2) tr, []) /\
       health (trooper_set_bits (l1 ++ b' :: l2) tr) = isub (health tr) 1) /\
  (Forall bit_empty (bits tr) -> trooper_detach tr = Some (tr, [Devolve])).
Proof.
  intros Hneo. split.
  - intros l1 b l2 Hbits Hempty Hok Hpos.
    destruct (bit_detach_some b Hok Hpos) as (b' & Hd & Hok' & Hb).
    exists b'. split; [exact Hd |]. split; [exact Hok' |].
    split; [rewrite Hb; reflexivity |]. split; [rewrite Hb; reflexivity |].
    split.
    + unfold trooper_detach. rewrite Hneo, Hbits, (detach_scan_first l1 b l2 Hempty), Hd.
      reflexivity.
    + rewrite !health_sum. cbn [bits trooper_set_bits]. rewrite Hbits.
      rewrite !sum_ccnt_app, !sum_ccnt_cons, Hb. cbn [ccnt cbox_set_ccnt].
      rewrite wrap_sub. f_equal. lia.
  - intros Hempty. unfold trooper_detach. rewrite Hneo, (detach_scan_empty _ Hempty).
    unfold devolve. destruct tr; reflexivity.
Qed.

Lemma trooper_detach_first_cell_witness :
  (forall l1 b l2,
     bits trooper2 = l1 ++ b :: l2 ->
     Forall bit_empty l1 -> bit_ok b -> 0 < ccnt (bit_box b) ->
     exists b', bit_detach b = Some (b', true) /\ bit_ok b' /\
       ccnt (bit_box b') = ccnt (bit_box b) - 1 /\
       cmax (bit_box b') = cmax (bit_box b) /\
       trooper_detach trooper2 = Some (trooper_set_bits (l1 ++ b' :: l2) trooper2, []) /\
       health (trooper_set_bits (l1 ++ b' :: l2) trooper2) = isub (health trooper2) 1) /\
  (Forall bit_empty (bits trooper2) -> trooper_detach trooper2 = Some (trooper2, [Devolve])).
Proof.
  apply (trooper_detach_first_cell trooper2).
  reflexivity.
Defined.

(** ** detach on a collapsed trooper *)

Lemma cube_frame_wipe c : cube_frame c -> cube_ok (wipe_cube c).
Proof.
  destruct c as [cs ctr [n m x y z s]]. intros (Hm & Hl & _).
  unfold cube_ok, cube_cells. cbn in *. subst m.
  split; [reflexivity |]. split; [exact Hl |]. split; [lia | reflexivity].
Qed.

Lemma cube_ok_frame c : cube_ok c -> cube_frame c.
Proof. intros (Hm & Hl & Hr & _). repeat split; auto; lia. Qed.

Lemma cube_reset_wiped k (c : cube) : reset k c = reset k (wipe_cube c).
Proof.
  unfold reset. change (trashc ?x) with (cube_trash x).
  rewrite !cube_trash_empties. destruct c as [cs ctr [n m x y z s]]. reflexivity.
Qed.

Lemma cube_reset_frame k c :
  cube_frame c ->
  exists c', reset k c = Some c' /\ cube_ok c' /\
    box c' = cbox_set_ccnt (Z.max 0 (Z.min k 8)) (box c).
Proof.
  intros Hf. pose proof (cube_frame_wipe c Hf) as Hok.
  destruct (reset_inv cube_ok cube_laws k _ Hok) as (c' & Hr & Hok' & Hb).
  exists c'. rewrite cube_reset_wiped. split; [exact Hr |]. split; [exact Hok' |].
  rewrite Hb. destruct Hf as (Hm & _).
  destruct c as [cs ctr [n m x y z s]]. cbn in *. subst m. reflexivity.
Qed.

Lemma block_ok_wipe p : block_ok p -> block_ok (wipe_block p).
Proof.
  intros (Hr & Hcs & Hne & Hs). unfold block_ok, wipe_block.
  cbn [box block_Box block_box cubes slab].
  split; [exact Hr |]. split; [| split; [| reflexivity]].
  - rewrite Forall_forall in Hcs |- *. intros c Hc.
    apply in_map_iff in Hc. destruct Hc as (c0 & <- & Hc0).
    apply cube_frame_wipe, cube_ok_frame, Hcs, Hc0.
  - intros E. apply Hne. destruct (cubes p); [reflexivity | discriminate E].
Qed.

Lemma bit_frame_wipe b : bit_frame b -> bit_frame (wipe_bit b).
Proof.
  destruct b as [c | p]; cbn [bit_frame wipe_bit].
  - destruct c as [cs ctr bx]. exact (fun H => H).
  - apply block_ok_wipe.
Qed.

Lemma bit_ok_frame b : bit_ok b -> bit_frame b.
Proof.
  destruct b as [c | p]; cbn [bit_ok bit_frame]; [apply cube_ok_frame | exact (fun H => H)].
Qed.

Lemma bit_reset_full b :
  bit_frame b ->
  exists b', bit_reset (cmax (bit_box b)) b = Some b' /\ bit_ok b' /\
    bit_box b' = cbox_set_ccnt (cmax (bit_box b)) (bit_box b).
Proof.
  destruct b as [c | p]; cbn [bit_frame bit_reset bit_box bit_ok]; intros Hf.
  - destruct (cube_reset_frame (cmax (box c)) c Hf) as (c' & Hr & Hok & Hb).
    rewrite Hr. exists (BCube c'). split; [reflexivity |]. split; [exact Hok |].
    cbn [bit_box]. rewrite Hb. destruct Hf as (Hm & _). rewrite Hm. reflexivity.
  - pose proof (law_range block_ok block_laws p Hf) as Hr.
    destruct (reset_inv block_ok block_laws (cmax (box p)) p Hf) as (p' & Hre & Hok & Hb).
    rewrite Hre. exists (BBlock p'). split; [reflexivity |]. split; [exact Hok |].
    cbn [bit_box]. rewrite Hb. f_equal. lia.
Qed.

Lemma reset_bits_full bs :
  Forall bit_frame bs ->
  exists bs', reset_bits bs = Some bs' /\ Forall bit_ok bs' /\
    map bit_box bs' = map (fun b => cbox_set_ccnt (cmax (bit_box b)) (bit_box b)) bs.
Proof.
  induction 1 as [| b bs Hb _ IH]; cbn [reset_bits map].
  - exists []. auto.
  - destruct (bit_reset_full b Hb) as (b' & Hr & Hok & Hbx). rewrite Hr.
    destruct IH as (bs' & Hrs & Hoks & Hbxs). rewrite Hrs.
    exists (b' :: bs'). cbn [map]. rewrite Hbx, Hbxs. auto.
Qed.

Lemma full_boxes bs' bs :
  map bit_box bs' = map (fun b => cbox_set_ccnt (cmax (bit_box b)) (bit_box b)) bs ->
  Forall bit_full bs' /\ sum_ccnt bs' = sum_cmax bs /\
  map (fun b => cmax (bit_box b)) bs' = map (fun b => cmax (bit_box b)) bs.
Proof.
  revert bs'. induction bs as [| b bs IH]; intros [| b' bs'] E; cbn [map] in E;
    try discriminate.
  - repeat split. constructor.
  - injection E as E1 E2. destruct (IH bs' E2) as (Hf & Hs & Hm).
    split; [constructor; [unfold bit_full; rewrite E1; reflexivity | exact Hf] |].
    split.
    + rewrite sum_ccnt_cons, sum_cmax_cons, Hs, E1. reflexivity.
    + cbn [map]. rewrite Hm, E1. reflexivity.
Qed.

Lemma demerge_rebuilds (tr : trooper) (b0 : bit) (rest : list bit) :
  neo tr <> None -> bits tr = b0 :: rest -> Forall bit_frame (bits tr) ->
  exists tr' b0' rest',
    trooper_detach tr = Some (tr', []) /\
    neo tr' = None /\ (center tr' <> None <-> 0 < lvl tr) /\
    bits tr' = b0' :: rest' /\
    Forall bit_ok (bits tr') /\ Forall bit_full rest' /\
    map (fun b => cmax (bit_box b)) (bits tr') = map (fun b => cmax (bit_box b)) (bits tr) /\
    ccnt (bit_box b0') =
      cmax (bit_box b0) - (if 0 <? cmax (bit_box b0) then 1 else 0) /\
    health tr' =
      wrap (sum_cmax (bits tr) - (if 0 <? cmax (bit_box b0) then 1 else 0)).
Proof.
  intros Hneo Hbits Hframe.
  unfold trooper_detach. destruct (neo tr) as [p |] eqn:En; [| congruence].
  unfold demerge. rewrite trooper_trash_wipes.
  set (t1 := mkTrooper (lvl tr) None (map wipe_bit (bits tr)) None (mid tr)).
  assert (Hb1 : bits (addCenter t1) = map wipe_bit (bits tr))
    by (unfold addCenter; destruct (lvl t1 >? 0); reflexivity).
  assert (Hn1 : neo (addCenter t1) = None)
    by (unfold addCenter; destruct (lvl t1 >? 0); reflexivity).
  assert (Hc1 : center (addCenter t1) <> None <-> 0 < lvl tr).
  { unfold addCenter. cbn [lvl t1].
    destruct (Z.gtb_spec (lvl tr) 0); cbn [center trooper_set_center t1];
      split; intros Hx; try congruence; try lia; discriminate. }
  assert (Hwf : Forall bit_frame (map wipe_bit (bits tr))).
  { rewrite Forall_forall in Hframe |- *. intros b Hb.
    apply in_map_iff in Hb. destruct Hb as (b1 & <- & Hb1').
    apply bit_frame_wipe, Hframe, Hb1'. }
  rewrite Hb1.
  destruct (reset_bits_full _ Hwf) as (bs & Hrs & Hoks & Hbx).
  rewrite Hrs.
  assert (Hbx' : map bit_box bs =
            map (fun b => cbox_set_ccnt (cmax (bit_box b)) (bit_box b)) (bits tr)).
  { rewrite Hbx, map_map. apply map_ext. intros b. rewrite wipe_bit_box. reflexivity. }
  clear Hbx. rename Hbx' into Hbx.
  destruct (full_boxes bs (bits tr) Hbx) as (Hfull & Hsum & Hmax).
  rewrite Hbits in Hbx, Hsum, Hmax |- *.
  destruct bs as [| f bs]; [discriminate Hbx |].
  cbn [map] in Hbx, Hmax. injection Hbx as Hf Hbx. injection Hmax as Hm0 Hmax.
  inversion Hoks as [| ? ? Hokf Hokbs]. subst.
  inversion Hfull as [| ? ? Hff Hfbs]. subst.
  assert (Hrange : 0 <= ccnt (bit_box f) <= cmax (bit_box f)).
  { destruct f as [c | q]; cbn [bit_ok bit_box] in *;
      [apply (law_range cube_ok cube_laws c Hokf)
      | apply (law_range block_ok block_laws q Hokf)]. }
  rewrite sum_ccnt_cons, sum_cmax_cons in Hsum.
  unfold bit_full in Hff.
  destruct (Z.ltb_spec 0 (cmax (bit_box b0))) as [Hpos | Hzero].
  - destruct (bit_detach_some f Hokf ltac:(lia)) as (f' & Hd & Hokf' & Hbf').
    rewrite Hd. exists (trooper_set_bits (f' :: bs) (addCenter t1)), f', bs.
    split; [reflexivity |]. cbn [neo center bits trooper_set_bits].
    split; [exact Hn1 |]. split; [exact Hc1 |]. split; [reflexivity |].
    split; [constructor; assumption |]. split; [exact Hfbs |].
    split; [cbn [map]; rewrite Hbf', Hmax; cbn [cmax cbox_set_ccnt]; rewrite Hm0; reflexivity |].
    split; [rewrite Hbf'; cbn [ccnt cbox_set_ccnt]; lia |].
    rewrite health_sum. cbn [bits trooper_set_bits].
    rewrite sum_ccnt_cons, sum_cmax_cons, Hbf'. cbn [ccnt cbox_set_ccnt]. f_equal. lia.
  - rewrite (bit_detach_empty f) by (unfold bit_empty; lia).
    exists (trooper_set_bits (f :: bs) (addCenter t1)), f, bs.
    split; [reflexivity |]. cbn [neo center bits trooper_set_bits].
    split; [exact Hn1 |]. split; [exact Hc1 |]. split; [reflexivity |].
    split; [constructor; assumption |]. split; [exact Hfbs |].
    split; [cbn [map]; rewrite Hmax, Hm0; reflexivity |].
    split; [lia |].
    rewrite health_sum. cbn [bits trooper_set_bits].
    rewrite sum_ccnt_cons, sum_cmax_cons. f_equal. lia.
Qed.

(** X8. [detach] on a collapsed trooper (one with [neo]) rebuilds it: [neo]
    goes, every bit is reset to its capacity and one cell is detached from
    the first bit.  That bit ends one below its capacity, unless its
    capacity is zero (the first panel of a level 1 trooper), in which case
    nothing is detached and [health] is the whole capacity. *)
Theorem trooper_detach_collapsed (tr : trooper) (b0 : bit) (rest : list bit) :
  neo tr <> None -> bits tr = b0 :: rest -> Forall bit_frame (bits tr) ->
  exists tr' b0' rest',
    trooper_detach tr = Some (tr', []) /\
    neo tr' = None /\ (center tr' <> None <-> 0 < lvl tr) /\
    bits tr' = b0' :: rest' /\
    Forall bit_ok (bits tr') /\ Forall bit_full rest' /\
    map (fun b => cmax (bit_box b)) (bits tr') = map (fun b => cmax (bit_box b)) (bits tr) /\
    ccnt (bit_box b0') =
      cmax (bit_box b0) - (if 0 <? cmax (bit_box b0) then 1 else 0) /\
    health tr' =
      wrap (sum_cmax (bits tr) - (if 0 <? cmax (bit_box b0) then 1 else 0)).
Proof. apply demerge_rebuilds. Qed.

Lemma trooper_detach_collapsed_witness :
  exists tr' b0' rest',
    trooper_detach collapsed1 = Some (tr', []) /\
    neo tr' = None /\ (center tr' <> None <-> 0 < lvl collapsed1) /\
    bits tr' = b0' :: rest' /\
    Forall bit_ok (bits tr') /\ Forall bit_full rest' /\
    map (fun b => cmax (bit_box b)) (bits tr') =
      map (fun b => cmax (bit_box b)) (bits collapsed1) /\
    ccnt (bit_box b0') =
      cmax (bit_box (nth 0 (bits collapsed1) (BCube sample_cube)))
      - (if 0 <? cmax (bit_box (nth 0 (bits collapsed1) (BCube sample_cube)))
         then 1 else 0) /\
    health tr' =
      wrap (sum_cmax (bits collapsed1)
            - (if 0 <? cmax (bit_box (nth 0 (bits collapsed1) (BCube sample_cube)))
               then 1 else 0)).
Proof.
  apply (trooper_detach_collapsed collapsed1 _ (skipn 1 (bits collapsed1))).
  - discriminate.
  - reflexivity.
  - unfold bit_frame, block_ok, cube_frame. vm_compute.
    repeat constructor; discriminate.
Defined.

(** ** The whole lattice scan of newTrooper *)

Lemma sumz_add g h i n :
  sumz (fun c => g c + h c) i n = sumz g i n + sumz h i n.
Proof.
  revert i. induction n as [| n IH]; intros i; cbn [sumz].
  - reflexivity.
  - rewrite IH. lia.
Qed.

Lemma sum3_ext n g h :
  (forall x y z, g x y z = h x y z) -> sum3 n g = sum3 n h.
Proof.
  intros E. unfold sum3.
  apply sumz_ext. intros x. apply sumz_ext. intros y. apply sumz_ext. intros z.
  apply E.
Qed.

Lemma sum3_add n g h :
  sum3 n (fun x y z => g x y z + h x y z) = sum3 n g + sum3 n h.
Proof.
  unfold sum3.
  rewrite <- sumz_add. apply sumz_ext. intros x.
  rewrite <- sumz_add. apply sumz_ext. intros y.
  apply sumz_add.
Qed.

Lemma sum3_zero n : sum3 n (fun _ _ _ => 0) = 0.
Proof.
  unfold sum3.
  rewrite (sumz_ext _ (fun _ => 0)); [apply sumz_zero |].
  intros x. rewrite (sumz_ext _ (fun _ => 0)); [apply sumz_zero |].
  intros y. apply sumz_zero.
Qed.

Lemma sum3_test n w (A B C : Z -> bool) :
  sum3 n (fun x y z => if A x && B y && C z then w else 0) =
  w * (count_if A n * (count_if B n * count_if C n)).
Proof.
  unfold sum3, count_if.
  set (sC := sumz (fun c => if C c then 1 else 0) 0 n).
  set (sB := sumz (fun c => if B c then 1 else 0) 0 n).
  rewrite (sumz_ext _ (fun x => if A x then w * (sB * sC) else 0)).
  - rewrite sumz_scale. lia.
  - intros x.
    rewrite (sumz_ext _ (fun y => if A x && B y then w * sC else 0)).
    + destruct (A x); cbn [andb].
      * rewrite sumz_scale. fold sB. lia.
      * apply sumz_zero.
    + intros y. destruct (A x && B y); cbn [andb].
      * rewrite sumz_scale. reflexivity.
      * apply sumz_zero.
Qed.

Lemma sum3_weigh n ws : sum3 n (weigh ws) = weigh_total n ws.
Proof.
  induction ws as [| [[[w A] B] C] ws IH].
  - apply sum3_zero.
  - cbn [weigh_total fold_right]. fold (weigh_total n ws). rewrite <- IH.
    rewrite <- sum3_test, <- sum3_add. apply sum3_ext. intros x y z. reflexivity.
Qed.

Lemma count_on_face level :
  1 <= level -> count_if (on_face level) (Z.to_nat (level + 1)) = 2.
Proof.
  intros Hl. unfold count_if.
  rewrite (sumz_ext _ (fun c => (if c =? 0 then 1 else 0) + (if c =? level then 1 else 0))).
  - rewrite sumz_add, !sumz_eq.
    destruct (Z.leb_spec 0 level), (Z.ltb_spec level (0 + Z.of_nat (Z.to_nat (level + 1)))),
      (Z.ltb_spec 0 (0 + Z.of_nat (Z.to_nat (level + 1)))); cbn [andb Z.leb Z.compare]; lia.
  - intros c. unfold on_face.
    destruct (Z.eqb_spec c 0), (Z.eqb_spec c level); cbn [orb]; lia.
Qed.

Lemma sumz_negb (A : Z -> bool) i n :
  sumz (fun c => if negb (A c) then 1 else 0) i n =
  Z.of_nat n - sumz (fun c => if A c then 1 else 0) i n.
Proof.
  revert i. induction n as [| n IH]; intros i; cbn [sumz].
  - reflexivity.
  - rewrite IH. destruct (A i); cbn [negb]; lia.
Qed.

Lemma count_negb (A : Z -> bool) n :
  count_if (fun c => negb (A c)) n = Z.of_nat n - count_if A n.
Proof. apply sumz_negb. Qed.

Lemma count_off_face level :
  1 <= level ->
  count_if (fun c => negb (on_face level c)) (Z.to_nat (level + 1)) = level - 1.
Proof.
  intros Hl. rewrite count_negb, count_on_face by exact Hl. lia.
Qed.

Lemma gain_weigh level x y z :
  gain level x y z =
  weigh [ (1, on_face level, on_face level, on_face level);
          (2, on_face level, on_face level, fun c => negb (on_face level c));
          (2, on_face level, (fun c => negb (on_face level c)), on_face level);
          (2, (fun c => negb (on_face level c)), on_face level, on_face level);
          (4, on_face level, (fun c => negb (on_face level c)),
              fun c => negb (on_face level c));
          (4, (fun c => negb (on_face level c)), on_face level,
              fun c => negb (on_face level c));
          (4, (fun c => negb (on_face level c)),
              (fun c => negb (on_face level c)), on_face level) ] x y z.
Proof.
  unfold gain, weigh. cbn [fold_right].
  destruct (on_face level x), (on_face level y), (on_face level z); reflexivity.
Qed.

Lemma born_weigh level x y z :
  born level x y z =
  weigh [ (1, on_face level, on_face level, on_face level);
          (1, on_face level, on_face level, fun c => negb (on_face level c));
          (1, on_face level, (fun c => negb (on_face level c)), on_face level);
          (1, (fun c => negb (on_face level c)), on_face level, on_face level) ] x y z.
Proof.
  unfold born, weigh. cbn [fold_right].
  destruct (on_face level x), (on_face level y), (on_face level z); reflexivity.
Qed.

Lemma sum3_gain level :
  1 <= level ->
  sum3 (Z.to_nat (level + 1)) (gain level) = 8 * level ^ 3 - 8 * (level - 1) ^ 3.
Proof.
  intros Hl. rewrite (sum3_ext _ _ _ (gain_weigh level)), sum3_weigh.
  cbn [weigh_total fold_right].
  rewrite !(count_off_face level Hl), !(count_on_face level Hl). ring.
Qed.

Lemma sum3_born level :
  1 <= level ->
  sum3 (Z.to_nat (level + 1)) (born level) = 12 * level - 4.
Proof.
  intros Hl. rewrite (sum3_ext _ _ _ (born_weigh level)), sum3_weigh.
  cbn [weigh_total fold_right].
  rewrite !(count_off_face level Hl), !(count_on_face level Hl). ring.
Qed.

Lemma hit_outside level k x y z : (6 <= k)%nat -> hit level k x y z = 0.
Proof.
  intros Hk. unfold hit.
  do 6 (destruct k as [| k]; [lia |]). reflexivity.
Qed.

Lemma sum3_tally level k :
  1 <= level ->
  sum3 (Z.to_nat (level + 1)) (tally level k) =
  if (k <? 6)%nat then (level - 1) ^ 2
  else if Nat.eqb k 6 then 8 * level ^ 3 - 8 * (level - 1) ^ 3
  else if Nat.eqb k 7 then 12 * level - 4
  else 0.
Proof.
  intros Hl. destruct (Nat.ltb_spec k 6) as [Hk | Hk].
  - rewrite (sum3_ext _ _ (hit level k)).
    + apply (sumz_hit level k Hl Hk).
    + intros x y z. unfold tally.
      replace (Nat.eqb k 6) with false by (symmetry; apply Nat.eqb_neq; lia).
      replace (Nat.eqb k 7) with false by (symmetry; apply Nat.eqb_neq; lia).
      lia.
  - destruct (Nat.eqb_spec k 6) as [-> | H6].
    + rewrite (sum3_ext _ _ (gain level)); [apply sum3_gain, Hl |].
      intros x y z. unfold tally. rewrite hit_outside by lia. cbn [Nat.eqb]. lia.
    + destruct (Nat.eqb_spec k 7) as [-> | H7].
      * rewrite (sum3_ext _ _ (born level)); [apply sum3_born, Hl |].
        intros x y z. unfold tally. rewrite hit_outside by lia. cbn [Nat.eqb]. lia.
      * rewrite (sum3_ext _ _ (fun _ _ _ => 0)); [apply sum3_zero |].
        intros x y z. unfold tally. rewrite hit_outside by lia.
        replace (Nat.eqb k 6) with false by (symmetry; apply Nat.eqb_neq; lia).
        replace (Nat.eqb k 7) with false by (symmetry; apply Nat.eqb_neq; lia).
        lia.
Qed.

Lemma wrap_inner a b : wrap (a + wrap b) = wrap (a + b).
Proof.
  rewrite Z.add_comm. change (wrap (wrap b + a)) with (iadd (wrap b) a).
  rewrite wrap_add. f_equal. lia.
Qed.

Lemma sum_ccnt_list_set bs k old new :
  nth_error bs k = Some old ->
  sum_ccnt (list_set k new bs) =
  sum_ccnt bs - ccnt (bit_box old) + ccnt (bit_box new).
Proof.
  revert k. induction bs as [| b bs IH]; intros [| k] Hn; cbn [nth_error] in Hn;
    try discriminate; cbn [list_set].
  - injection Hn as ->. rewrite !sum_ccnt_cons. lia.
  - rewrite !sum_ccnt_cons, (IH k Hn). lia.
Qed.

Lemma length_list_set {A : Type} (l : list A) k x :
  length (list_set k x l) = length l.
Proof.
  revert k. induction l as [| y l IH]; intros [| k]; cbn; try reflexivity.
  rewrite IH. reflexivity.
Qed.

Section Scan.
Variable gosort : (V3 -> V3 -> bool) -> list V3 -> list V3.
Hypothesis gosort_perm : sort_permutes gosort.
Variable level : Z.
Hypothesis level_pos : 1 <= level.
Variables cubeSize co : Q.
Hypothesis co_pos : (0 < co)%Q.

Lemma place_shape cnt cx cy cz mx my mz tr :
  0 <= cx <= level -> 0 <= cy <= level -> 0 <= cz <= level ->
  (mx == inject_Z (2 * cx - level))%Q ->
  (my == inject_Z (2 * cy - level))%Q ->
  (mz == inject_Z (2 * cz - level))%Q ->
  panels_filling level cnt tr ->
  exists bs, place gosort level cubeSize co cx cy cz mx my mz tr =
             Some (trooper_set_bits bs tr) /\
    ((exists c, bs = bits tr ++ [BCube c] /\ cube_ok c /\
        ccnt (box c) = gain level cx cy cz /\ born level cx cy cz = 1) \/
     (exists k b b', nth_error (bits tr) k = Some (BBlock b) /\
        bs = list_set k (BBlock b') (bits tr) /\
        ccnt (box b') = iadd (ccnt (box b)) 4 /\
        gain level cx cy cz = 4 /\ born level cx cy cz = 0) \/
     (bs = bits tr /\ gain level cx cy cz = 0 /\ born level cx cy cz = 0)).
Proof.
  intros Hx Hy Hz Hmx Hmy Hmz Hp.
  pose proof (scaled_lt co _ _ _ _ co_pos Hmx Hmy) as Lxy.
  pose proof (scaled_lt co _ _ _ _ co_pos Hmx Hmz) as Lxz.
  pose proof (scaled_lt co _ _ _ _ co_pos Hmy Hmx) as Lyx.
  pose proof (scaled_lt co _ _ _ _ co_pos Hmy Hmz) as Lyz.
  pose proof (scaled_lt co _ _ _ _ co_pos Hmz Hmx) as Lzx.
  pose proof (scaled_lt co _ _ _ _ co_pos Hmz Hmy) as Lzy.
  assert (Hpanel : forall k0 x y z, (k0 < 6)%nat ->
    exists b b', nth_error (bits tr) k0 = Some (BBlock b) /\
      with_panel k0 (addCube gosort x y z cubeSize) tr =
      Some (trooper_set_bits (list_set k0 (BBlock b') (bits tr)) tr) /\
      ccnt (box b') = iadd (ccnt (box b)) 4).
  { intros k0 x y z Hk0. destruct Hp as [Hp _].
    destruct (Hp k0 Hk0) as (b & Hn & Hf).
    destruct (addCube_filling gosort gosort_perm level (cnt k0) x y z cubeSize b Hf)
      as (b' & Ha & Hf').
    exists b, b'. split; [exact Hn |]. unfold with_panel. rewrite Hn, Ha.
    split; [reflexivity |].
    destruct Hf as (_ & Hc & _), Hf' as (_ & Hc' & _).
    rewrite Hc, Hc', wrap_add. f_equal. lia. }
  assert (Hself : trooper_set_bits (bits tr) tr = tr) by (destruct tr; reflexivity).
  unfold place, gain, born, on_face.
  destruct (coord_cases level cx level_pos Hx)
    as [(Ex0 & ExL & Exi & Ex) | [(Ex0 & ExL & Exi & Ex) | (Ex0 & ExL & Exi & Ex)]];
  destruct (coord_cases level cy level_pos Hy)
    as [(Ey0 & EyL & Eyi & Ey) | [(Ey0 & EyL & Eyi & Ey) | (Ey0 & EyL & Eyi & Ey)]];
  destruct (coord_cases level cz level_pos Hz)
    as [(Ez0 & EzL & Ezi & Ez) | [(Ez0 & EzL & Ezi & Ez) | (Ez0 & EzL & Ezi & Ez)]];
  rewrite ?Ex0, ?ExL, ?Ey0, ?EyL, ?Ez0, ?EzL; cbn [andb orb];
  rewrite ?Lxy, ?Lxz, ?Lyx, ?Lyz, ?Lzx, ?Lzy by lia; cbn [andb orb].
  all: try (
    match goal with
    | |- context [edgeSort gosort ?k (newCube ?x ?y ?z ?s)] =>
        destruct (sorted_reset_ok gosort gosort_perm csort_Less k x y z s)
          as (c & Hr & Hok & _ & Hb);
        unfold edgeSort; rewrite Hr
    end;
    eexists; split; [reflexivity |];
    left; exists c; split; [reflexivity |]; split; [exact Hok |];
    split; [rewrite Hb; reflexivity | reflexivity]).
  all: try (
    match goal with
    | |- context [with_panel ?k0 (addCube gosort ?x ?y ?z ?s) ?t] =>
        destruct (Hpanel k0 x y z ltac:(lia)) as (b & b' & Hn & Hw & Hc);
        rewrite Hw;
        eexists; split; [reflexivity |];
        right; left; exists k0, b, b'; split; [exact Hn |];
        split; [reflexivity |]; split; [exact Hc |]; split; reflexivity
    end).
  exists (bits tr). rewrite Hself. split; [reflexivity |].
  right. right. repeat split.
Qed.

Lemma place_scanning t0 cnt cx cy cz mx my mz tr :
  0 <= cx <= level -> 0 <= cy <= level -> 0 <= cz <= level ->
  (mx == inject_Z (2 * cx - level))%Q ->
  (my == inject_Z (2 * cy - level))%Q ->
  (mz == inject_Z (2 * cz - level))%Q ->
  scanning level t0 cnt tr ->
  exists tr', place gosort level cubeSize co cx cy cz mx my mz tr = Some tr' /\
    scanning level t0 (fun k => cnt k + tally level k cx cy cz) tr'.
Proof.
  intros Hx Hy Hz Hmx Hmy Hmz (Hp & Hcubes & Hsum & Hlen & Hframe).
  destruct (place_filling gosort gosort_perm level level_pos cubeSize co co_pos
              cnt cx cy cz mx my mz tr Hx Hy Hz Hmx Hmy Hmz Hp) as (tr' & Hpl & Hp').
  destruct (place_shape cnt cx cy cz mx my mz tr Hx Hy Hz Hmx Hmy Hmz Hp)
    as (bs & Hpl' & Hshape).
  rewrite Hpl in Hpl'. injection Hpl' as ->.
  exists (trooper_set_bits bs tr). split; [exact Hpl |].
  assert (H6 : forall x y z, tally level 6 x y z = gain level x y z)
    by (intros; unfold tally; rewrite hit_outside by lia; cbn [Nat.eqb]; lia).
  assert (H7 : forall x y z, tally level 7 x y z = born level x y z)
    by (intros; unfold tally; rewrite hit_outside by lia; cbn [Nat.eqb]; lia).
  split.
  { apply (panels_filling_ext level (fun k => cnt k + hit level k cx cy cz));
      [| exact Hp'].
    intros k Hk. unfold tally.
    replace (Nat.eqb k 6) with false by (symmetry; apply Nat.eqb_neq; lia).
    replace (Nat.eqb k 7) with false by (symmetry; apply Nat.eqb_neq; lia).
    lia. }
  cbn [bits trooper_set_bits]. rewrite H6, H7.
  split; [| split; [| split; [| destruct tr; exact Hframe]]].
  - intros k c Hn.
    destruct Hshape as [(c0 & -> & Hok & _) | [(k0 & b & b' & Hk0 & -> & _) | (-> & _)]].
    + destruct (Nat.lt_ge_cases k (length (bits tr))) as [Hlt | Hge].
      * rewrite nth_error_app1 in Hn by exact Hlt. apply (Hcubes k c Hn).
      * rewrite nth_error_app2 in Hn by exact Hge.
        destruct (k - length (bits tr))%nat as [| j]; cbn in Hn.
        -- injection Hn as <-. exact Hok.
        -- destruct j; discriminate Hn.
    + destruct (Nat.eq_dec k0 k) as [<- | Hne].
      * rewrite nth_error_list_set_eq in Hn
          by (apply nth_error_Some; congruence).
        discriminate Hn.
      * rewrite nth_error_list_set_neq in Hn by exact Hne. apply (Hcubes k c Hn).
    + apply (Hcubes k c Hn).
  - destruct Hshape as [(c0 & -> & _ & Hc & _) | [(k0 & b & b' & Hk0 & -> & Hc & Hg & _) | (-> & Hg & _)]].
    + rewrite sum_ccnt_app, sum_ccnt_cons. cbn [sum_ccnt fold_right bit_box].
      rewrite Hc, Z.add_0_r.
      rewrite <- (wrap_add (cnt 6%nat)), <- Hsum, wrap_add. reflexivity.
    + rewrite (sum_ccnt_list_set _ _ _ _ Hk0), Hg. cbn [bit_box]. rewrite Hc.
      unfold iadd. rewrite wrap_inner.
      rewrite <- (wrap_add (cnt 6%nat)), <- Hsum, wrap_add. f_equal. lia.
    + rewrite Hg, Z.add_0_r. exact Hsum.
  - destruct Hshape as [(c0 & -> & _ & _ & Hb) | [(k0 & b & b' & Hk0 & -> & _ & _ & Hb) | (-> & _ & Hb)]];
      rewrite Hb.
    + rewrite length_app. cbn [length]. lia.
    + rewrite length_list_set. lia.
    + lia.
Qed.

End Scan.

Lemma for_lattice_tally {S : Type} (P : (nat -> Z) -> S -> Prop) (level : Z)
    (body : Z -> Q -> S -> option S) (f : nat -> Z -> Z) :
  (forall cnt cnt' s, (forall k, cnt k = cnt' k) -> P cnt s -> P cnt' s) ->
  forall n i m s cnt,
    (m == inject_Z (2 * i - level))%Q ->
    P cnt s ->
    (forall i' m' s' cnt',
       i <= i' < i + Z.of_nat n ->
       (m' == inject_Z (2 * i' - level))%Q ->
       P cnt' s' ->
       exists s'', body i' m' s' = Some s'' /\ P (fun k => cnt' k + f k i') s'') ->
    exists s', for_lattice n body i m s = Some s' /\
      P (fun k => cnt k + sumz (f k) i n) s'.
Proof.
  intros Pext. induction n as [| n IH]; intros i m s cnt Hm Hp Hbody;
    cbn [for_lattice sumz].
  - exists s. split; [reflexivity |].
    apply (Pext cnt); [intros; lia | exact Hp].
  - destruct (Hbody i m s cnt ltac:(lia) Hm Hp) as (s1 & Hb & Hp1).
    rewrite Hb.
    destruct (IH (i + 1) (m + 2)%Q s1 (fun k => cnt k + f k i)) as (s' & Hf & Hp').
    + rewrite Hm. replace (2 * (i + 1) - level) with ((2 * i - level) + 2) by lia.
      rewrite inject_Z_plus. reflexivity.
    + exact Hp1.
    + intros i' m' s'' cnt' Hi'. apply Hbody. lia.
    + exists s'. split; [exact Hf |].
      apply (Pext (fun k => cnt k + f k i + sumz (f k) (i + 1) n));
        [intros; lia | exact Hp'].
Qed.

Lemma scanning_ext level t0 cnt cnt' tr :
  (forall k, cnt k = cnt' k) -> scanning level t0 cnt tr -> scanning level t0 cnt' tr.
Proof.
  intros E (Hp & Hc & Hs & Hl & Hf).
  split; [apply (panels_filling_ext level cnt); [intros; apply E | exact Hp] |].
  split; [exact Hc |]. rewrite <- !E. auto.
Qed.

Lemma cube_total_fours cs :
  Forall (fun c => cube_ok c /\ ccnt (box c) = 4) cs ->
  cube_total cs = 4 * Z.of_nat (length cs).
Proof.
  induction 1 as [| c cs [_ Hc] _ IH]; [reflexivity |].
  rewrite cube_total_cons, Hc, IH. cbn [length]. lia.
Qed.

Lemma panel_filled_sync level n b :
  0 <= n -> 8 * n <= int_max -> n = (level - 1) ^ 2 ->
  panel_filling level n b -> block_sync b.
Proof.
  intros Hn Hmax En (Hm & Hc & _ & Hl & Hcs & Hs).
  rewrite wrap_small in Hc by (unfold int_min, int_max in *; lia).
  assert (Hok : Forall cube_ok (cubes b))
    by (eapply Forall_impl; [| exact Hcs]; intros c Hcc; apply Hcc).
  split; [| split; [| split]].
  - unfold block_ok. split; [lia |]. split; [exact Hok |].
    split; [| intros _; exact Hs].
    intros E. rewrite E in Hl. cbn [length] in Hl. lia.
  - lia.
  - intros _. rewrite (cube_total_fours _ Hcs). lia.
  - intros E. assert (n = 0) by lia. subst n.
    destruct (cubes b); [| cbn [length] in Hl; lia].
    split; [constructor | intros; lia].
Qed.

Lemma panel_filled_spread level n b :
  0 <= n -> 8 * n <= int_max ->
  panel_filling level n b ->
  spread b /\ Z.of_nat (length (cubes b)) = n /\ ccnt (box b) = 4 * n.
Proof.
  intros Hn Hmax (_ & Hc & _ & Hl & Hcs & _).
  split; [| split; [exact Hl |
                    rewrite Hc; apply wrap_small; unfold int_min, int_max in *; lia]].
  unfold spread. intros i c Hi.
  assert (Hpos : 0 < n).
  { assert ((i < length (cubes b))%nat) by (apply nth_error_Some; congruence). lia. }
  rewrite Forall_forall in Hcs. destruct (Hcs c (nth_error_In _ _ Hi)) as [_ H4].
  rewrite H4, Hc, Hl, wrap_small by (unfold int_min, int_max in *; lia).
  rewrite Z.div_mul, Z.mod_mul by lia.
  replace (Z.of_nat i <? 0) with false by (symmetry; apply Z.ltb_ge; lia).
  reflexivity.
Qed.

Lemma newTrooper_scanned
    (gosort : (V3 -> V3 -> bool) -> list V3 -> list V3) (L : Z) :
  sort_permutes gosort -> 1 <= L -> 8 * L ^ 3 <= int_max ->
  exists tr, newTrooper gosort L = Some tr /\
    lvl tr = L /\ neo tr = None /\ center tr <> None /\
    mid tr = 8 * L ^ 3 - 8 * (L - 1) ^ 3 /\
    health tr = 8 * L ^ 3 - 8 * (L - 1) ^ 3 /\
    Z.of_nat (length (bits tr)) = 12 * L + 2 /\
    (forall k c, nth_error (bits tr) k = Some (BCube c) -> (6 <= k)%nat /\ cube_ok c) /\
    (forall k b, nth_error (bits tr) k = Some (BBlock b) ->
       (k < 6)%nat /\ block_sync b /\ cmax (box b) = 8 * (L - 1) ^ 2 /\
       spread b /\ Z.of_nat (length (cubes b)) = (L - 1) ^ 2 /\
       ccnt (box b) = 4 * (L - 1) ^ 2) /\
    (forall k, (k < 6)%nat -> exists b, nth_error (bits tr) k = Some (BBlock b)).
Proof.
  intros Hperm HL Hmax.
  assert (Hmax' : 8 * L ^ 3 <= 9223372036854775807) by exact Hmax.
  assert (Hcube : L ^ 3 = L * L * L) by ring.
  assert (Hp3 : (L - 1) ^ 3 = (L - 1) * (L - 1) * (L - 1)) by ring.
  assert (Hp2 : (L - 1) ^ 2 = (L - 1) * (L - 1)) by ring.
  assert (Hb1 : 0 <= (L - 1) * (L - 1) <= L * L) by nia.
  assert (Hb2 : L * L <= L * L * L) by nia.
  assert (Hb3 : 0 <= (L - 1) * (L - 1) * (L - 1) <= L * L * L) by nia.
  assert (Hb4 : L <= L * L) by nia.
  assert (Hw1 : isub L 1 = L - 1).
  { apply wrap_small. unfold int_min, int_max. lia. }
  assert (Hw2 : iadd L 1 = L + 1).
  { apply wrap_small. unfold int_min, int_max. lia. }
  assert (Hw3 : imul (imul (L - 1) (L - 1)) 8 = 8 * (L - 1) ^ 2).
  { unfold imul. rewrite (wrap_small ((L - 1) * (L - 1))).
    - rewrite wrap_small; unfold int_min, int_max; lia.
    - unfold int_min, int_max. lia. }
  assert (Hmid : isub (imul (imul (imul L L) L) 8)
                   (imul (imul (imul (L - 1) (L - 1)) (L - 1)) 8)
                 = 8 * L ^ 3 - 8 * (L - 1) ^ 3).
  { unfold imul, isub.
    rewrite (wrap_small (L * L)) by (unfold int_min, int_max; lia).
    rewrite (wrap_small (L * L * L)) by (unfold int_min, int_max; lia).
    rewrite (wrap_small (L * L * L * 8)) by (unfold int_min, int_max; lia).
    rewrite (wrap_small ((L - 1) * (L - 1))) by (unfold int_min, int_max; lia).
    rewrite (wrap_small ((L - 1) * (L - 1) * (L - 1))) by (unfold int_min, int_max; lia).
    rewrite (wrap_small ((L - 1) * (L - 1) * (L - 1) * 8)) by (unfold int_min, int_max; lia).
    rewrite wrap_small by (unfold int_min, int_max; lia). lia. }
  unfold newTrooper. cbn [lvl trooper_set_bits bits neo center mid app].
  replace (L =? 0) with false by (symmetry; apply Z.eqb_neq; lia).
  rewrite Hw1, Hw2, Hmid.
  set (cubeSize := (1 / inject_Z (L + 1))%Q).
  set (co := (cubeSize * (1 # 2))%Q).
  set (pc := (inject_Z L * co)%Q).
  set (n := Z.to_nat (L + 1)).
  assert (Hco : (0 < co)%Q).
  { unfold co, cubeSize. apply Qmult_lt_0_compat; [| reflexivity].
    unfold Qdiv. rewrite Qmult_1_l. apply Qinv_lt_0_compat.
    change 0%Q with (inject_Z 0). rewrite <- Zlt_Qlt. lia. }
  assert (Hpc : (0 < pc)%Q).
  { unfold pc. apply Qmult_lt_0_compat; [| exact Hco].
    change 0%Q with (inject_Z 0). rewrite <- Zlt_Qlt. lia. }
  set (tr0 := trooper_set_bits _ _).
  assert (Hstart : (inject_Z (- L) == inject_Z (2 * 0 - L))%Q)
    by (replace (2 * 0 - L) with (- L) by lia; reflexivity).
  assert (H0 : scanning L tr0 (fun k => if Nat.eqb k 7 then 6 else 0) tr0).
  { destruct (dominant_axes pc 0 (8 * (L - 1) ^ 2) 0 Hpc)
      as (D0 & D1 & D2 & D3 & D4 & D5).
    split; [split |].
    - intros k Hk. unfold tr0, trooper_set_bits. unfold newBlock. cbn [bits].
      rewrite Hw1, Hw3.
      do 6 (destruct k as [| k];
            [eexists; split; [reflexivity |];
             unfold panel_filling;
             cbn [box block_Box block_box cubes slab length ccnt cmax Nat.eqb];
             repeat split; first [assumption | reflexivity | constructor] |]).
      lia.
    - intros k b Hn.
      assert (Hlt : (k < length (bits tr0))%nat)
        by (apply nth_error_Some; congruence).
      exact Hlt.
    - split; [| split; [reflexivity | split; reflexivity]].
      intros k c Hn. unfold tr0, trooper_set_bits in Hn. cbn [bits] in Hn.
      do 6 (destruct k as [| k]; [discriminate Hn |]).
      destruct k; discriminate Hn. }
  destruct (for_lattice_tally (scanning L tr0) L
              (fun cx mx =>
                 for_lattice n (fun cy my =>
                   for_lattice n (fun cz mz =>
                     place gosort L cubeSize co cx cy cz mx my mz)
                     0 (inject_Z (- L)))
                   0 (inject_Z (- L)))
              (fun k cx => sumz (fun cy =>
                 sumz (fun cz => tally L k cx cy cz) 0 n) 0 n)
              (scanning_ext L tr0) n 0 (inject_Z (- L)) tr0 _
              Hstart H0) as (tr1 & Hloop & Hp1).
  { intros cx mx s1 cnt1 Hcx Hmx Hs1.
    apply (for_lattice_tally (scanning L tr0) L _
             (fun k cy => sumz (fun cz => tally L k cx cy cz) 0 n)
             (scanning_ext L tr0) n 0 (inject_Z (- L)) s1 cnt1 Hstart Hs1).
    intros cy my s2 cnt2 Hcy Hmy Hs2.
    apply (for_lattice_tally (scanning L tr0) L _
             (fun k cz => tally L k cx cy cz)
             (scanning_ext L tr0) n 0 (inject_Z (- L)) s2 cnt2 Hstart Hs2).
    intros cz mz s3 cnt3 Hcz Hmz Hs3.
    apply (place_scanning gosort Hperm L HL cubeSize co Hco);
      try assumption; unfold n in *; lia. }
  rewrite Hloop. eexists. split; [reflexivity |].
  cbn beta in Hp1.
  assert (Hcnt : forall k,
    (if Nat.eqb k 7 then 6 else 0)
    + sumz (fun cx => sumz (fun cy => sumz (fun cz => tally L k cx cy cz) 0 n) 0 n) 0 n
    = (if Nat.eqb k 7 then 6 else 0) + sum3 n (tally L k)) by reflexivity.
  destruct Hp1 as ([Hp Hq] & Hcubes & Hsum & Hlen & Hframe).
  rewrite Hcnt in Hsum, Hlen. unfold n in Hsum, Hlen.
  rewrite (sum3_tally L 6 HL) in Hsum. rewrite (sum3_tally L 7 HL) in Hlen.
  cbn [Nat.eqb Nat.ltb Nat.leb] in Hsum, Hlen.
  assert (Hfields : lvl tr1 = L /\ neo tr1 = None /\ center tr1 = None /\
                    mid tr1 = 8 * L ^ 3 - 8 * (L - 1) ^ 3).
  { destruct tr1 as [l1 n1 b1 c1 m1]. unfold tr0, trooper_set_bits in Hframe.
    cbn in Hframe. injection Hframe as -> -> -> ->. repeat split. }
  destruct Hfields as (Hlvl & Hneo & Hcen & Hmd).
  assert (Hadd : addCenter tr1 =
            trooper_set_center
              (Some (SetFacade "flat" "cube" "red"
                 (SetScale
                    (inject_Z (isub (lvl tr1) 1) * (1 / inject_Z (iadd (lvl tr1) 1)) * (9 # 10))
                    (inject_Z (isub (lvl tr1) 1) * (1 / inject_Z (iadd (lvl tr1) 1)) * (9 # 10))
                    (inject_Z (isub (lvl tr1) 1) * (1 / inject_Z (iadd (lvl tr1) 1)) * (9 # 10))
                    AddPart))) tr1).
  { unfold addCenter. rewrite Hlvl.
    replace (L >? 0) with true by (symmetry; apply Z.gtb_lt; lia). reflexivity. }
  rewrite Hadd. cbn [lvl neo center mid bits trooper_set_center].
  split; [exact Hlvl |]. split; [exact Hneo |]. split; [discriminate |].
  split; [exact Hmd |].
  split.
  { rewrite health_sum. cbn [bits trooper_set_center]. rewrite Hsum.
    apply wrap_small. unfold int_min, int_max. lia. }
  split; [lia |].
  split.
  { intros k c Hn. split; [| apply (Hcubes k c Hn)].
    destruct (Nat.lt_ge_cases k 6) as [Hk | Hk]; [| exact Hk].
    destruct (Hp k Hk) as (b & Hb & _). congruence. }
  split.
  { intros k b Hn. pose proof (Hq k b Hn) as Hk. split; [exact Hk |].
    destruct (Hp k Hk) as (b' & Hb & Hf). rewrite Hn in Hb. injection Hb as <-.
    cbn beta in Hf. rewrite Hcnt in Hf. unfold n in Hf.
    rewrite (sum3_tally L _ HL) in Hf.
    replace (Nat.eqb k 7) with false in Hf by (symmetry; apply Nat.eqb_neq; lia).
    replace (k <? 6)%nat with true in Hf by (symmetry; apply Nat.ltb_lt; exact Hk).
    rewrite Z.add_0_l in Hf.
    split; [| split; [apply Hf |]].
    - apply (panel_filled_sync L ((L - 1) ^ 2));
        [lia | unfold int_max; lia | reflexivity | exact Hf].
    - apply (panel_filled_spread L ((L - 1) ^ 2)); [lia | unfold int_max; lia | exact Hf]. }
  intros k Hk. destruct (Hp k Hk) as (b & Hb & _). exists b. exact Hb.
Qed.

(** X9. For every level [L >= 1] with [8 L³] an [int], the trooper that
    [newTrooper] makes has [health] equal to its field [mid], the level
    entry number of cells, and both are [8 L³ - 8 (L-1)³]: one cell per
    corner, two per edge and four per cube of a panel. *)
Theorem health_at_construction
    (gosort : (V3 -> V3 -> bool) -> list V3 -> list V3) (L : Z) :
  sort_permutes gosort -> 1 <= L -> 8 * L ^ 3 <= int_max ->
  exists tr, newTrooper gosort L = Some tr /\
    health tr = mid tr /\ health tr = 8 * L ^ 3 - 8 * (L - 1) ^ 3.
Proof.
  intros Hperm HL Hmax.
  destruct (newTrooper_scanned gosort L Hperm HL Hmax)
    as (tr & Hn & _ & _ & _ & Hmid & Hh & _).
  exists tr. split; [exact Hn |]. split; [congruence | exact Hh].
Qed.

Lemma health_at_construction_witness :
  exists tr, newTrooper insertion_sort 3 = Some tr /\
    health tr = mid tr /\ health tr = 8 * 3 ^ 3 - 8 * (3 - 1) ^ 3.
Proof.
  apply (health_at_construction insertion_sort 3).
  - intros less l. apply insertion_sort_perm.
  - lia.
  - vm_compute. discriminate.
Defined.

Lemma bits_all_ok tr (R : block -> Prop) :
  (forall k c, nth_error (bits tr) k = Some (BCube c) -> (6 <= k)%nat /\ cube_ok c) ->
  (forall k b, nth_error (bits tr) k = Some (BBlock b) ->
     (k < 6)%nat /\ block_sync b /\ R b) ->
  Forall bit_ok (bits tr).
Proof.
  intros Hc Hb. apply Forall_forall. intros b Hin.
  destruct (In_nth_error _ _ Hin) as (k & Hk).
  destruct b as [c | p]; cbn [bit_ok].
  - apply (Hc k c Hk).
  - apply (Hb k p Hk).
Qed.

(** X10. For every level [L >= 1] with [8 L³] an [int], [newTrooper] does
    not panic and makes a trooper without [neo], with a center, and with
    [12 L + 2] bits: the six panels first, each in step with its cubes,
    then the corner and edge cubes, all well formed. *)
Theorem trooper_at_construction
    (gosort : (V3 -> V3 -> bool) -> list V3 -> list V3) (L : Z) :
  sort_permutes gosort -> 1 <= L -> 8 * L ^ 3 <= int_max ->
  exists tr, newTrooper gosort L = Some tr /\
    lvl tr = L /\ neo tr = None /\ center tr <> None /\
    Z.of_nat (length (bits tr)) = 12 * L + 2 /\
    Forall bit_ok (bits tr) /\
    (forall k, (k < 6)%nat ->
       exists b, nth_error (bits tr) k = Some (BBlock b) /\ block_sync b) /\
    (forall k, (6 <= k < length (bits tr))%nat ->
       exists c, nth_error (bits tr) k = Some (BCube c) /\ cube_ok c).
Proof.
  intros Hperm HL Hmax.
  destruct (newTrooper_scanned gosort L Hperm HL Hmax)
    as (tr & Hn & Hl & Hneo & Hcen & _ & _ & Hlen & Hc & Hb & Hp).
  exists tr. split; [exact Hn |]. split; [exact Hl |]. split; [exact Hneo |].
  split; [exact Hcen |]. split; [exact Hlen |].
  split; [apply (bits_all_ok tr _ Hc Hb) |]. split.
  - intros k Hk. destruct (Hp k Hk) as (b & Hnb). exists b.
    split; [exact Hnb | apply (Hb k b Hnb)].
  - intros k [Hk6 Hk]. destruct (nth_error (bits tr) k) as [[c | p] |] eqn:E.
    + exists c. split; [reflexivity | apply (Hc k c E)].
    + destruct (Hb k p E) as [Hlt _]. lia.
    + apply nth_error_None in E. lia.
Qed.

Lemma trooper_at_construction_witness :
  exists tr, newTrooper insertion_sort 2 = Some tr /\
    lvl tr = 2 /\ neo tr = None /\ center tr <> None /\
    Z.of_nat (length (bits tr)) = 12 * 2 + 2 /\
    Forall bit_ok (bits tr) /\
    (forall k, (k < 6)%nat ->
       exists b, nth_error (bits tr) k = Some (BBlock b) /\ block_sync b) /\
    (forall k, (6 <= k < length (bits tr))%nat ->
       exists c, nth_error (bits tr) k = Some (BCube c) /\ cube_ok c).
Proof.
  apply (trooper_at_construction insertion_sort 2).
  - intros less l. apply insertion_sort_perm.
  - lia.
  - vm_compute. discriminate.
Defined.

(** ** Any series of key presses *)

Lemma bit_ok_range b : bit_ok b -> 0 <= ccnt (bit_box b) <= cmax (bit_box b).
Proof.
  destruct b as [c | p]; cbn [bit_ok bit_box]; intros Hok.
  - apply (law_range cube_ok cube_laws c Hok).
  - apply (law_range block_ok block_laws p Hok).
Qed.

Lemma bit_frame_range b : bit_frame b -> 0 <= ccnt (bit_box b) <= cmax (bit_box b).
Proof.
  destruct b as [c | p]; cbn [bit_frame bit_box].
  - intros (Hm & _ & Hr). rewrite Hm. exact Hr.
  - intros Hok. apply (law_range block_ok block_laws p Hok).
Qed.

Lemma sum_range bs :
  Forall (fun b => 0 <= ccnt (bit_box b) <= cmax (bit_box b)) bs ->
  0 <= sum_ccnt bs <= sum_cmax bs.
Proof.
  induction 1 as [| b bs Hb _ IH].
  - cbn. lia.
  - rewrite sum_ccnt_cons, sum_cmax_cons. lia.
Qed.

Lemma sum_cmax_ext bs bs' :
  map (fun b => cmax (bit_box b)) bs = map (fun b => cmax (bit_box b)) bs' ->
  sum_cmax bs = sum_cmax bs'.
Proof.
  revert bs'. induction bs as [| b bs IH]; intros [| b' bs'] E; cbn [map] in E;
    try discriminate; [reflexivity |].
  injection E as E1 E2. rewrite !sum_cmax_cons, E1, (IH bs' E2). reflexivity.
Qed.

Lemma attach_scan_ok bs :
  Forall bit_ok bs ->
  exists bs' r, attach_scan bs = Some (bs', r) /\ Forall bit_ok bs' /\
    map (fun b => cmax (bit_box b)) bs' = map (fun b => cmax (bit_box b)) bs /\
    (r = false -> bs' = bs /\ Forall bit_full bs).
Proof.
  induction 1 as [| b bs Hb Hbs IH]; cbn [attach_scan].
  - exists [], false. repeat split; constructor.
  - destruct (Z.eq_dec (ccnt (bit_box b)) (cmax (bit_box b))) as [E | E].
    + rewrite (bit_attach_full b E).
      destruct IH as (bs' & r & Hs & Hok & Hm & Hr). rewrite Hs.
      exists (b :: bs'), r. split; [reflexivity |].
      split; [constructor; assumption |]. split; [cbn [map]; rewrite Hm; reflexivity |].
      intros Er. destruct (Hr Er) as [-> Hf]. split; [reflexivity | constructor; assumption].
    + destruct (bit_attach_room b Hb E) as (b' & Ha & Hok' & Hbx). rewrite Ha.
      exists (b' :: bs), true. split; [reflexivity |].
      split; [constructor; assumption |].
      split; [cbn [map]; rewrite Hbx; reflexivity | discriminate].
Qed.

Lemma detach_scan_ok bs :
  Forall bit_ok bs ->
  exists bs' r, detach_scan bs = Some (bs', r) /\ Forall bit_ok bs' /\
    map (fun b => cmax (bit_box b)) bs' = map (fun b => cmax (bit_box b)) bs /\
    (r = false -> bs' = bs).
Proof.
  induction 1 as [| b bs Hb Hbs IH]; cbn [detach_scan].
  - exists [], false. repeat split; constructor.
  - pose proof (bit_ok_range b Hb) as Hr.
    destruct (Z.eq_dec (ccnt (bit_box b)) 0) as [E | E].
    + rewrite (bit_detach_empty b E).
      destruct IH as (bs' & r & Hs & Hok & Hm & Hrr). rewrite Hs.
      exists (b :: bs'), r. split; [reflexivity |].
      split; [constructor; assumption |]. split; [cbn [map]; rewrite Hm; reflexivity |].
      intros Er. rewrite (Hrr Er). reflexivity.
    + destruct (bit_detach_some b Hb ltac:(lia)) as (b' & Ha & Hok' & Hbx). rewrite Ha.
      exists (b' :: bs), true. split; [reflexivity |].
      split; [constructor; assumption |].
      split; [cbn [map]; rewrite Hbx; reflexivity | discriminate].
Qed.

Lemma press_ok k tr :
  trooper_ok tr ->
  exists tr' sig, press k tr = Some (tr', sig) /\ trooper_ok tr' /\
    lvl tr' = lvl tr /\
    map (fun b => cmax (bit_box b)) (bits tr') = map (fun b => cmax (bit_box b)) (bits tr).
Proof.
  intros [Hne [[Hneo Hok] | (Hneo & Hframe & Hfull)]]; destruct k; cbn [press].
  - (* attach, not collapsed *)
    unfold trooper_attach.
    destruct (attach_scan_ok _ Hok) as (bs & r & Hs & Hok' & Hm & Hr). rewrite Hs.
    assert (Hbs : bs <> []).
    { intros ->. destruct (bits tr); [congruence | discriminate Hm]. }
    destruct r.
    + eexists. eexists. split; [reflexivity |]. cbn [bits lvl trooper_set_bits].
      split; [| split; [reflexivity | exact Hm]].
      split; [exact Hbs |]. left. cbn [neo bits trooper_set_bits]. auto.
    + destruct (Hr eq_refl) as [-> Hf].
      unfold evolve. cbn [neo trooper_set_bits]. rewrite Hneo.
      unfold trooper_merge. rewrite trooper_trash_wipes.
      cbn [lvl bits mid trooper_set_bits trooper_set_neo].
      eexists. eexists. split; [reflexivity |].
      assert (Hb : forall t, bits (addCenter t) = bits t)
        by (intros t; unfold addCenter; destruct (lvl t >? 0); reflexivity).
      assert (Hn : forall t, neo (addCenter t) = neo t)
        by (intros t; unfold addCenter; destruct (lvl t >? 0); reflexivity).
      assert (Hl : forall t, lvl (addCenter t) = lvl t)
        by (intros t; unfold addCenter; destruct (lvl t >? 0); reflexivity).
      rewrite Hl. unfold trooper_ok. rewrite Hb, Hn. cbn [bits neo lvl].
      split; [| split; [reflexivity |]].
      * split; [destruct (bits tr); [congruence | discriminate] |].
        right. split; [discriminate |]. split.
        -- rewrite Forall_forall in Hok |- *. intros b Hin.
           apply in_map_iff in Hin. destruct Hin as (b0 & <- & Hb0).
           apply bit_frame_wipe, bit_ok_frame, Hok, Hb0.
        -- rewrite Forall_forall in Hf |- *. intros b Hin.
           apply in_map_iff in Hin. destruct Hin as (b0 & <- & Hb0).
           unfold bit_full. rewrite wipe_bit_box. apply (Hf b0 Hb0).
      * cbn [bits trooper_set_neo]. rewrite map_map. apply map_ext.
        intros b. rewrite wipe_bit_box. reflexivity.
  - (* detach, not collapsed *)
    unfold trooper_detach. rewrite Hneo.
    destruct (detach_scan_ok _ Hok) as (bs & r & Hs & Hok' & Hm & Hr). rewrite Hs.
    assert (Hbs : bs <> []).
    { intros ->. destruct (bits tr); [congruence | discriminate Hm]. }
    destruct r; cbn [devolve]; eexists; eexists; (split; [reflexivity |]);
      cbn [bits lvl trooper_set_bits];
      (split; [| split; [reflexivity | exact Hm]]);
      (split; [exact Hbs |]); left; cbn [neo bits trooper_set_bits]; auto.
  - (* attach, collapsed *)
    unfold trooper_attach. rewrite (attach_scan_full _ Hfull).
    unfold evolve. cbn [neo trooper_set_bits].
    destruct (neo tr) as [p |] eqn:En; [| congruence].
    eexists. eexists. split; [reflexivity |]. cbn [bits lvl trooper_set_bits].
    split; [| split; reflexivity].
    split; [exact Hne |]. right. cbn [neo bits trooper_set_bits]. rewrite En. auto.
  - (* detach, collapsed *)
    destruct (bits tr) as [| b0 rest] eqn:Eb; [congruence |].
    rewrite <- Eb in Hframe.
    destruct (demerge_rebuilds tr b0 rest Hneo Eb Hframe)
      as (tr' & b0' & rest' & Hd & Hneo' & _ & Hb' & Hok' & _ & Hm & _).
    exists tr', []. split; [exact Hd |].
    split; [| split; [| rewrite <- Eb; exact Hm]].
    + split; [rewrite Hb'; discriminate |]. left. auto.
    + unfold trooper_detach in Hd. destruct (neo tr); [| congruence].
      unfold demerge in Hd. rewrite trooper_trash_wipes in Hd.
      destruct (reset_bits _) as [[| f bs] |]; try discriminate Hd.
      destruct (bit_detach f) as [[f' r] |]; [| discriminate Hd].
      injection Hd as <-. cbn [lvl trooper_set_bits].
      unfold addCenter. destruct (_ >? 0); reflexivity.
Qed.

Lemma presses_ok ks tr :
  trooper_ok tr ->
  exists tr' sigs, presses ks tr = Some (tr', sigs) /\ trooper_ok tr' /\
    lvl tr' = lvl tr /\
    map (fun b => cmax (bit_box b)) (bits tr') = map (fun b => cmax (bit_box b)) (bits tr).
Proof.
  revert tr. induction ks as [| k ks IH]; intros tr Hok; cbn [presses].
  - exists tr, []. auto.
  - destruct (press_ok k tr Hok) as (tr1 & s1 & Hp & Hok1 & Hl1 & Hm1). rewrite Hp.
    destruct (IH tr1 Hok1) as (tr2 & s2 & Hps & Hok2 & Hl2 & Hm2). rewrite Hps.
    exists tr2, (s1 ++ s2). split; [reflexivity |]. split; [exact Hok2 |].
    split; congruence.
Qed.

Lemma trooper_ok_range tr :
  trooper_ok tr -> 0 <= sum_ccnt (bits tr) <= sum_cmax (bits tr).
Proof.
  intros [_ [[_ Hok] | (_ & Hframe & _)]]; apply sum_range.
  - eapply Forall_impl; [| exact Hok]. apply bit_ok_range.
  - eapply Forall_impl; [| exact Hframe]. apply bit_frame_range.
Qed.

(** X11. No series of attach and detach key presses makes a well-formed
    trooper panic: every press returns, the trooper stays well formed, the
    capacities of its bits and its level stay what they were, and the sum
    of the counts stays between 0 and the total capacity, so that [health]
    does too when the capacity is an [int]. *)
Theorem presses_never_panic (ks : list key) (tr : trooper) :
  trooper_ok tr ->
  exists tr' sigs, presses ks tr = Some (tr', sigs) /\ trooper_ok tr' /\
    lvl tr' = lvl tr /\
    map (fun b => cmax (bit_box b)) (bits tr') = map (fun b => cmax (bit_box b)) (bits tr) /\
    0 <= sum_ccnt (bits tr') <= sum_cmax (bits tr) /\
    (sum_cmax (bits tr) <= int_max -> 0 <= health tr' <= sum_cmax (bits tr)).
Proof.
  intros Hok.
  destruct (presses_ok ks tr Hok) as (tr' & sigs & Hp & Hok' & Hl & Hm).
  exists tr', sigs. split; [exact Hp |]. split; [exact Hok' |].
  split; [exact Hl |]. split; [exact Hm |].
  pose proof (trooper_ok_range tr' Hok') as Hr.
  rewrite (sum_cmax_ext _ _ Hm) in Hr. split; [exact Hr |].
  intros Hmax. rewrite health_sum, wrap_small; [exact Hr |].
  unfold int_min, int_max in *. lia.
Qed.

Lemma trooper2_ok : trooper_ok trooper2.
Proof.
  split; [discriminate |]. left. split; [reflexivity |].
  unfold bit_ok, block_ok, cube_ok. vm_compute.
  repeat constructor; discriminate.
Qed.

Lemma presses_never_panic_witness :
  exists tr' sigs,
    presses [Shrink; Grow; Grow; Shrink; Shrink; Shrink] trooper2 = Some (tr', sigs) /\
    trooper_ok tr' /\ lvl tr' = lvl trooper2 /\
    map (fun b => cmax (bit_box b)) (bits tr') =
      map (fun b => cmax (bit_box b)) (bits trooper2) /\
    0 <= sum_ccnt (bits tr') <= sum_cmax (bits trooper2) /\
    (sum_cmax (bits trooper2) <= int_max -> 0 <= health tr' <= sum_cmax (bits trooper2)).
Proof.
  apply (presses_never_panic _ trooper2).
  apply trooper2_ok.
Defined.

(** ** From the level entry up to full, and down to empty *)

Lemma full_sum bs : Forall bit_full bs -> sum_ccnt bs = sum_cmax bs.
Proof.
  induction 1 as [| b bs Hb _ IH].
  - reflexivity.
  - rewrite sum_ccnt_cons, sum_cmax_cons, IH, Hb. reflexivity.
Qed.

Lemma empty_sum bs : Forall bit_empty bs -> sum_ccnt bs = 0.
Proof.
  induction 1 as [| b bs Hb _ IH].
  - reflexivity.
  - rewrite sum_ccnt_cons, IH, Hb. reflexivity.
Qed.

Lemma sum_eq_full bs :
  Forall (fun b => 0 <= ccnt (bit_box b) <= cmax (bit_box b)) bs ->
  sum_ccnt bs = sum_cmax bs -> Forall bit_full bs.
Proof.
  induction 1 as [| b bs Hb Hbs IH]; intros E.
  - constructor.
  - rewrite sum_ccnt_cons, sum_cmax_cons in E.
    pose proof (sum_range bs Hbs) as Hr.
    constructor; [unfold bit_full; lia | apply IH; lia].
Qed.

Lemma sum_zero_empty bs :
  Forall (fun b => 0 <= ccnt (bit_box b) <= cmax (bit_box b)) bs ->
  sum_ccnt bs = 0 -> Forall bit_empty bs.
Proof.
  induction 1 as [| b bs Hb Hbs IH]; intros E.
  - constructor.
  - rewrite sum_ccnt_cons in E.
    pose proof (sum_range bs Hbs) as Hr.
    constructor; [unfold bit_empty; lia | apply IH; lia].
Qed.

Lemma bits_ok_range bs :
  Forall bit_ok bs ->
  Forall (fun b => 0 <= ccnt (bit_box b) <= cmax (bit_box b)) bs.
Proof.
  intros Hok. eapply Forall_impl; [| exact Hok]. apply bit_ok_range.
Qed.

Lemma attach_scan_count bs :
  Forall bit_ok bs ->
  exists bs' r, attach_scan bs = Some (bs', r) /\ Forall bit_ok bs' /\
    sum_cmax bs' = sum_cmax bs /\
    sum_ccnt bs' = sum_ccnt bs + (if r then 1 else 0) /\
    (r = false -> Forall bit_full bs).
Proof.
  induction 1 as [| b bs Hb Hbs IH]; cbn [attach_scan].
  - exists [], false. repeat split; constructor.
  - destruct (Z.eq_dec (ccnt (bit_box b)) (cmax (bit_box b))) as [E | E].
    + rewrite (bit_attach_full b E).
      destruct IH as (bs' & r & Hs & Hok & Hm & Hc & Hr). rewrite Hs.
      exists (b :: bs'), r. split; [reflexivity |].
      split; [constructor; assumption |].
      rewrite !sum_cmax_cons, !sum_ccnt_cons, Hm, Hc.
      split; [reflexivity |]. split; [lia |].
      intros Er. constructor; [exact E | apply Hr, Er].
    + destruct (bit_attach_room b Hb E) as (b' & Ha & Hok' & Hbx). rewrite Ha.
      exists (b' :: bs), true. split; [reflexivity |].
      split; [constructor; assumption |].
      rewrite !sum_cmax_cons, !sum_ccnt_cons, Hbx. cbn [ccnt cmax cbox_set_ccnt].
      split; [reflexivity |]. split; [lia | discriminate].
Qed.

Lemma detach_scan_count bs :
  Forall bit_ok bs ->
  exists bs' r, detach_scan bs = Some (bs', r) /\ Forall bit_ok bs' /\
    sum_cmax bs' = sum_cmax bs /\
    sum_ccnt bs' = sum_ccnt bs - (if r then 1 else 0) /\
    (r = false -> bs' = bs /\ Forall bit_empty bs).
Proof.
  induction 1 as [| b bs Hb Hbs IH]; cbn [detach_scan].
  - exists [], false. repeat split; constructor.
  - pose proof (bit_ok_range b Hb) as Hrg.
    destruct (Z.eq_dec (ccnt (bit_box b)) 0) as [E | E].
    + rewrite (bit_detach_empty b E).
      destruct IH as (bs' & r & Hs & Hok & Hm & Hc & Hr). rewrite Hs.
      exists (b :: bs'), r. split; [reflexivity |].
      split; [constructor; assumption |].
      rewrite !sum_cmax_cons, !sum_ccnt_cons, Hm, Hc.
      split; [reflexivity |]. split; [lia |].
      intros Er. destruct (Hr Er) as [-> He].
      split; [reflexivity | constructor; [exact E | exact He]].
    + destruct (bit_detach_some b Hb ltac:(lia)) as (b' & Ha & Hok' & Hbx). rewrite Ha.
      exists (b' :: bs), true. split; [reflexivity |].
      split; [constructor; assumption |].
      rewrite !sum_cmax_cons, !sum_ccnt_cons, Hbx. cbn [ccnt cmax cbox_set_ccnt].
      split; [reflexivity |]. split; [lia | discriminate].
Qed.

Lemma grow_fills n : forall tr,
  neo tr = None -> Forall bit_ok (bits tr) ->
  sum_cmax (bits tr) - sum_ccnt (bits tr) = Z.of_nat n ->
  exists tr', presses (repeat Grow n) tr = Some (tr', []) /\
    neo tr' = None /\ Forall bit_ok (bits tr') /\ Forall bit_full (bits tr') /\
    sum_ccnt (bits tr') = sum_cmax (bits tr) /\
    trooper_set_bits [] tr' = trooper_set_bits [] tr.
Proof.
  induction n as [| n IH]; intros tr Hneo Hok Hn.
  - exists tr. split; [reflexivity |]. split; [exact Hneo |]. split; [exact Hok |].
    split; [| split; [lia | reflexivity]].
    apply sum_eq_full; [apply bits_ok_range, Hok | lia].
  - cbn [repeat presses press]. unfold trooper_attach.
    destruct (attach_scan_count _ Hok) as (bs & r & Hs & Hok' & Hm & Hc & Hr).
    rewrite Hs. destruct r.
    + destruct (IH (trooper_set_bits bs tr)) as (tr' & Hp & Hneo' & Hok2 & Hf & Hsum & Hfr).
      * exact Hneo.
      * exact Hok'.
      * cbn [bits trooper_set_bits]. lia.
      * rewrite Hp. exists tr'. split; [reflexivity |]. split; [exact Hneo' |].
        split; [exact Hok2 |]. split; [exact Hf |].
        cbn [bits trooper_set_bits] in Hsum. split; [lia |].
        rewrite Hfr. reflexivity.
    + pose proof (full_sum _ (Hr eq_refl)) as Hfull. lia.
Qed.

Lemma shrink_drains n : forall tr,
  neo tr = None -> Forall bit_ok (bits tr) ->
  sum_ccnt (bits tr) = Z.of_nat n ->
  exists tr', presses (repeat Shrink n) tr = Some (tr', []) /\
    neo tr' = None /\ Forall bit_ok (bits tr') /\ Forall bit_empty (bits tr') /\
    sum_cmax (bits tr') = sum_cmax (bits tr) /\
    trooper_set_bits [] tr' = trooper_set_bits [] tr.
Proof.
  induction n as [| n IH]; intros tr Hneo Hok Hn.
  - exists tr. split; [reflexivity |]. split; [exact Hneo |]. split; [exact Hok |].
    split; [| split; reflexivity].
    apply sum_zero_empty; [apply bits_ok_range, Hok | lia].
  - cbn [repeat presses press]. unfold trooper_detach. rewrite Hneo.
    destruct (detach_scan_count _ Hok) as (bs & r & Hs & Hok' & Hm & Hc & Hr).
    rewrite Hs. destruct r.
    + destruct (IH (trooper_set_bits bs tr)) as (tr' & Hp & Hneo' & Hok2 & Hf & Hsum & Hfr).
      * exact Hneo.
      * exact Hok'.
      * cbn [bits trooper_set_bits]. lia.
      * rewrite Hp. exists tr'. split; [reflexivity |]. split; [exact Hneo' |].
        split; [exact Hok2 |]. split; [exact Hf |].
        cbn [bits trooper_set_bits] in Hsum. split; [lia |].
        rewrite Hfr. reflexivity.
    + destruct (Hr eq_refl) as [_ He]. pose proof (empty_sum _ He) as H0. lia.
Qed.

Lemma attach_full_collapses tr :
  Forall bit_full (bits tr) -> neo tr = None ->
  exists tr', trooper_attach tr = Some (tr', [Evolve]) /\
    neo tr' <> None /\ health tr' = health tr.
Proof.
  intros Hfull Hneo. unfold trooper_attach. rewrite (attach_scan_full _ Hfull).
  unfold evolve. cbn [neo trooper_set_bits]. rewrite Hneo.
  unfold trooper_merge. rewrite trooper_trash_wipes.
  eexists. split; [reflexivity |].
  assert (Hb : forall t, bits (addCenter t) = bits t)
    by (intros t; unfold addCenter; destruct (lvl t >? 0); reflexivity).
  assert (Hn : forall t, neo (addCenter t) = neo t)
    by (intros t; unfold addCenter; destruct (lvl t >? 0); reflexivity).
  rewrite Hn. cbn [neo trooper_set_neo]. split; [discriminate |].
  rewrite !health_sum, Hb. cbn [bits trooper_set_neo trooper_set_center trooper_set_bits].
  f_equal. apply sum_ccnt_ext. rewrite map_map. apply map_ext.
  intros b. apply wipe_bit_box.
Qed.

(** The capacities of a list of bits whose first [m] have capacity [a] and
    whose others have capacity [c]. *)
Lemma sum_cmax_two a c : forall bs m,
  (forall k b, nth_error bs k = Some b ->
     cmax (bit_box b) = if (k <? m)%nat then a else c) ->
  sum_cmax bs = a * Z.of_nat (Nat.min m (length bs)) + c * Z.of_nat (length bs - m).
Proof.
  induction bs as [| b bs IH]; intros m Hk.
  - rewrite Nat.min_0_r. cbn. lia.
  - rewrite sum_cmax_cons. pose proof (Hk 0%nat b eq_refl) as H0.
    destruct m as [| m].
    + rewrite (IH 0%nat) by (intros k b' Hn; apply (Hk (S k) b' Hn)).
      cbn [Nat.ltb Nat.leb] in H0. rewrite H0.
      cbn [Nat.min length]. rewrite !Nat.sub_0_r, Nat2Z.inj_succ. lia.
    + rewrite (IH m).
      * cbn [Nat.ltb Nat.leb] in H0. rewrite H0.
        cbn [Nat.min length Nat.sub]. rewrite Nat2Z.inj_succ. lia.
      * intros k b' Hn. rewrite (Hk (S k) b' Hn). reflexivity.
Qed.

Lemma newTrooper_sums
    (gosort : (V3 -> V3 -> bool) -> list V3 -> list V3) (L : Z) :
  sort_permutes gosort -> 1 <= L -> 8 * L ^ 3 <= int_max ->
  exists tr, newTrooper gosort L = Some tr /\
    neo tr = None /\ Forall bit_ok (bits tr) /\
    sum_cmax (bits tr) = 48 * L ^ 2 + 16 /\
    sum_ccnt (bits tr) = 8 * L ^ 3 - 8 * (L - 1) ^ 3.
Proof.
  intros Hperm HL Hmax.
  destruct (newTrooper_scanned gosort L Hperm HL Hmax)
    as (tr & Hn & _ & Hneo & _ & _ & Hh & Hlen & Hc & Hb & _).
  exists tr. split; [exact Hn |]. split; [exact Hneo |].
  assert (Hok : Forall bit_ok (bits tr)) by apply (bits_all_ok tr _ Hc Hb).
  split; [exact Hok |].
  assert (Hcap : sum_cmax (bits tr) = 48 * L ^ 2 + 16).
  { rewrite (sum_cmax_two (8 * (L - 1) ^ 2) 8 (bits tr) 6).
    - assert (Hl : (6 <= length (bits tr))%nat) by lia.
      rewrite (Nat.min_l _ _ Hl), Nat2Z.inj_sub by exact Hl. rewrite Hlen.
      change (Z.of_nat 6) with 6. ring.
    - intros k [c | p] Hk; cbn [bit_box].
      + destruct (Hc k c Hk) as [H6 (Hm & _)].
        replace (k <? 6)%nat with false by (symmetry; apply Nat.ltb_ge; exact H6).
        exact Hm.
      + destruct (Hb k p Hk) as [H6 (_ & Hm & _)].
        replace (k <? 6)%nat with true by (symmetry; apply Nat.ltb_lt; exact H6).
        exact Hm. }
  split; [exact Hcap |].
  pose proof (sum_range _ (bits_ok_range _ Hok)) as Hr.
  rewrite health_sum in Hh. rewrite <- Hh. symmetry. apply wrap_small.
  assert (Hsmall : L <= 1048576).
  { destruct (Z_le_gt_dec L 1048576) as [Hle | Hgt]; [exact Hle | exfalso].
    assert (H2 : 1048576 * 1048576 < L * L) by nia.
    assert (H3 : 1048576 * 1048576 * 1048576 < L * L * L) by nia.
    assert (Hcube : L ^ 3 = L * L * L) by ring.
    unfold int_max in Hmax. lia. }
  assert (Hsq : L ^ 2 = L * L) by ring.
  assert (Hsq' : L * L <= 1048576 * 1048576) by nia.
  unfold int_min, int_max. lia.
Qed.

(** X12. A trooper newly made at level [L >= 1] takes exactly
    [8 (L+1)³ - 8 L³] calls of [attach] without a signal: after them every
    bit is full, [neo] is still absent and [health] is the whole capacity
    [48 L² + 16].  The next [attach] raises the evolve signal, makes [neo]
    and leaves [health] as it is. *)
Theorem fill_then_evolve
    (gosort : (V3 -> V3 -> bool) -> list V3 -> list V3) (L : Z) :
  sort_permutes gosort -> 1 <= L -> 8 * (L + 1) ^ 3 <= int_max ->
  exists tr full top,
    newTrooper gosort L = Some tr /\
    presses (repeat Grow (Z.to_nat (8 * (L + 1) ^ 3 - 8 * L ^ 3))) tr = Some (full, []) /\
    neo full = None /\ Forall bit_full (bits full) /\
    health full = 48 * L ^ 2 + 16 /\
    press Grow full = Some (top, [Evolve]) /\
    neo top <> None /\ health top = health full.
Proof.
  intros Hperm HL Hmax.
  assert (Hup : (L + 1) ^ 3 = L ^ 3 + 3 * (L * L) + 3 * L + 1) by ring.
  assert (Hcap : 8 * (L + 1) ^ 3 = 48 * L ^ 2 + 16 + 8 * ((L - 1) * (L - 1) * (L - 1)))
    by ring.
  assert (Hpos : 0 <= (L - 1) * (L - 1) * (L - 1))
    by (apply Z.mul_nonneg_nonneg; [apply Z.mul_nonneg_nonneg |]; lia).
  assert (Hsq : 0 <= L * L) by nia.
  assert (Hmax' : 8 * L ^ 3 <= int_max) by lia.
  destruct (newTrooper_sums gosort L Hperm HL Hmax')
    as (tr & Hn & Hneo & Hok & Hcm & Hcc).
  destruct (grow_fills (Z.to_nat (8 * (L + 1) ^ 3 - 8 * L ^ 3)) tr Hneo Hok)
    as (full & Hp & Hneo' & Hok' & Hfull & Hsum & _).
  { rewrite Z2Nat.id by lia. rewrite Hcm, Hcc. ring. }
  destruct (attach_full_collapses full Hfull Hneo') as (top & Ha & Htop & Hh).
  exists tr, full, top. split; [exact Hn |]. split; [exact Hp |].
  split; [exact Hneo' |]. split; [exact Hfull |].
  split; [| split; [exact Ha | split; [exact Htop | exact Hh]]].
  rewrite health_sum, Hsum, Hcm. apply wrap_small.
  assert (Hsq2 : L ^ 2 = L * L) by ring.
  unfold int_min, int_max in *. lia.
Qed.

Lemma fill_then_evolve_witness :
  exists tr full top,
    newTrooper insertion_sort 1 = Some tr /\
    presses (repeat Grow (Z.to_nat (8 * (1 + 1) ^ 3 - 8 * 1 ^ 3))) tr = Some (full, []) /\
    neo full = None /\ Forall bit_full (bits full) /\
    health full = 48 * 1 ^ 2 + 16 /\
    press Grow full = Some (top, [Evolve]) /\
    neo top <> None /\ health top = health full.
Proof.
  apply (fill_then_evolve insertion_sort 1).
  - intros less l. apply insertion_sort_perm.
  - lia.
  - vm_compute. discriminate.
Defined.

(** X13. A trooper newly made at level [L >= 1] gives up exactly
    [8 L³ - 8 (L-1)³] cells, its level entry number, without a signal:
    after that many calls of [detach] every bit is empty and [health] is 0.
    The next [detach] raises the devolve signal and leaves the trooper as
    it is. *)
Theorem drain_then_devolve
    (gosort : (V3 -> V3 -> bool) -> list V3 -> list V3) (L : Z) :
  sort_permutes gosort -> 1 <= L -> 8 * L ^ 3 <= int_max ->
  exists tr low,
    newTrooper gosort L = Some tr /\
    presses (repeat Shrink (Z.to_nat (8 * L ^ 3 - 8 * (L - 1) ^ 3))) tr = Some (low, []) /\
    neo low = None /\ Forall bit_empty (bits low) /\ health low = 0 /\
    press Shrink low = Some (low, [Devolve]).
Proof.
  intros Hperm HL Hmax.
  destruct (newTrooper_sums gosort L Hperm HL Hmax)
    as (tr & Hn & Hneo & Hok & Hcm & Hcc).
  pose proof (sum_range _ (bits_ok_range _ Hok)) as Hr.
  destruct (shrink_drains (Z.to_nat (8 * L ^ 3 - 8 * (L - 1) ^ 3)) tr Hneo Hok)
    as (low & Hp & Hneo' & Hok' & Hempty & _ & _).
  { rewrite Z2Nat.id by lia. exact Hcc. }
  exists tr, low. split; [exact Hn |]. split; [exact Hp |].
  split; [exact Hneo' |]. split; [exact Hempty |]. split.
  - rewrite health_sum, (empty_sum _ Hempty). reflexivity.
  - cbn [press]. unfold trooper_detach.
    rewrite Hneo', (detach_scan_empty _ Hempty).
    unfold devolve. destruct low; reflexivity.
Qed.

Lemma drain_then_devolve_witness :
  exists tr low,
    newTrooper insertion_sort 2 = Some tr /\
    presses (repeat Shrink (Z.to_nat (8 * 2 ^ 3 - 8 * (2 - 1) ^ 3))) tr = Some (low, []) /\
    neo low = None /\ Forall bit_empty (bits low) /\ health low = 0 /\
    press Shrink low = Some (low, [Devolve]).
Proof.
  apply (drain_then_devolve insertion_sort 2).
  - intros less l. apply insertion_sort_perm.
  - lia.
  - vm_compute. discriminate.
Defined.

(** ** The slab of a panel *)

Ltac qltb_cases :=
  repeat match goal with
  | |- context [Qltb ?u ?v] =>
      let E := fresh "E" in
      destruct (Qltb u v) eqn:E;
      [apply Qltb_true in E | apply Qltb_false in E]
  end;
  cbn [andb orb]; try reflexivity; exfalso; lra.

(** X14. The cell that fills a panel turns it into one slab: [attach]
    empties every cube and makes a blue part at the center of the panel.
    When the center lies on one axis the slab is one cube thick along that
    axis and [lvl - 1] cubes wide along the other two; when the three
    coordinates of the center are equal no scale is set at all. *)
Theorem last_cell_makes_slab (b : block) :
  0 <= ccnt (box b) -> ccnt (box b) + 1 = cmax (box b) ->
  exists b' p, attach b = Some (b', true) /\
    slab b' = Some p /\
    cubes b' = map wipe_cube (cubes b) /\
    box b' = cbox_set_ccnt (cmax (box b)) (box b) /\
    (~ (cx (box b) == 0)%Q -> (cy (box b) == 0)%Q -> (cz (box b) == 0)%Q ->
       p = SetScale (csize (box b)) (slab_width b) (slab_width b) (slab_base b)) /\
    ((cx (box b) == 0)%Q -> ~ (cy (box b) == 0)%Q -> (cz (box b) == 0)%Q ->
       p = SetScale (slab_width b) (csize (box b)) (slab_width b) (slab_base b)) /\
    ((cx (box b) == 0)%Q -> (cy (box b) == 0)%Q -> ~ (cz (box b) == 0)%Q ->
       p = SetScale (slab_width b) (slab_width b) (csize (box b)) (slab_base b)) /\
    ((cx (box b) == cy (box b))%Q -> (cy (box b) == cz (box b))%Q ->
       p = slab_base b).
Proof.
  destruct b as [l s cs [n m x y z t]]. unfold slab_base, slab_width.
  cbn [box block_Box block_box ccnt cmax cx cy cz csize block_lvl cubes].
  intros Hn Hm. subst m.
  unfold attach.
  cbn [box block_Box block_box set_ccnt block_set_ccnt block_set_box cbox_set_ccnt
       ccnt cmax mergec block_lvl slab cubes].
  replace (0 <=? n) with true by (symmetry; apply Z.leb_le; lia).
  replace (n <? n + 1) with true by (symmetry; apply Z.ltb_lt; lia).
  rewrite Z.eqb_refl. cbn [andb].
  unfold block_merge. rewrite block_trash_wipes.
  cbn -[Qltb isub inject_Z Qmult].
  eexists. eexists. split; [reflexivity |].
  split; [reflexivity |]. split; [reflexivity |]. split; [reflexivity |].
  split; [| split; [| split]].
  - intros Hx Hy Hz. destruct (Q_dec x 0) as [[Hlt | Hgt] | Heq];
      [| | contradiction]; qltb_cases.
  - intros Hx Hy Hz. destruct (Q_dec y 0) as [[Hlt | Hgt] | Heq];
      [| | contradiction]; qltb_cases.
  - intros Hx Hy Hz. destruct (Q_dec z 0) as [[Hlt | Hgt] | Heq];
      [| | contradiction]; qltb_cases.
  - intros Hxy Hyz. qltb_cases.
Qed.

Lemma last_cell_makes_slab_witness :
  exists b' p, attach panel7 = Some (b', true) /\
    slab b' = Some p /\
    cubes b' = map wipe_cube (cubes panel7) /\
    box b' = cbox_set_ccnt (cmax (box panel7)) (box panel7) /\
    (~ (cx (box panel7) == 0)%Q -> (cy (box panel7) == 0)%Q -> (cz (box panel7) == 0)%Q ->
       p = SetScale (csize (box panel7)) (slab_width panel7) (slab_width panel7)
             (slab_base panel7)) /\
    ((cx (box panel7) == 0)%Q -> ~ (cy (box panel7) == 0)%Q -> (cz (box panel7) == 0)%Q ->
       p = SetScale (slab_width panel7) (csize (box panel7)) (slab_width panel7)
             (slab_base panel7)) /\
    ((cx (box panel7) == 0)%Q -> (cy (box panel7) == 0)%Q -> ~ (cz (box panel7) == 0)%Q ->
       p = SetScale (slab_width panel7) (slab_width panel7) (csize (box panel7))
             (slab_base panel7)) /\
    ((cx (box panel7) == cy (box panel7))%Q -> (cy (box panel7) == cz (box panel7))%Q ->
       p = slab_base panel7).
Proof.
  apply (last_cell_makes_slab panel7).
  - vm_compute. discriminate.
  - reflexivity.
Defined.

(** ** Cells are spread evenly over the cubes of a panel *)

Lemma addCell_gives_least (b : block) (l1 l2 : list cube) (c : cube) :
  cubes b = l1 ++ c :: l2 ->
  Forall cube_ok (cubes b) ->
  ccnt (box c) < 8 ->
  (forall d, In d l1 -> ccnt (box c) < ccnt (box d)) ->
  (forall d, In d l2 -> ccnt (box c) <= ccnt (box d)) ->
  exists c1, cube_ok c1 /\ ccnt (box c1) = ccnt (box c) + 1 /\
    block_addCell b = Some (block_set_cubes (l1 ++ c1 :: l2) b).
Proof.
  intros Hcs Hok Hlt Hl1 Hl2.
  assert (Hc : cube_ok c).
  { rewrite Hcs in Hok. rewrite Forall_forall in Hok. apply Hok.
    apply in_or_app. right. left. reflexivity. }
  pose proof (law_range cube_ok cube_laws c Hc) as Hr.
  assert (Hc8 : cmax (box c) = 8) by apply Hc.
  destruct (attach_room cube_ok cube_laws c Hc ltac:(lia)) as (c1 & Ha & Hb & Hok1 & _).
  exists c1. split; [exact Hok1 |]. split; [rewrite Hb; reflexivity |].
  unfold block_addCell.
  destruct (cubes b) as [| c0 cs0] eqn:Ecs.
  { destruct l1; discriminate Hcs. }
  assert (H0 : cmax (box c0) = 8) by (inversion Hok as [| ? ? Hc0 _]; apply Hc0).
  rewrite H0, Hcs.
  rewrite (addCell_rounds_first _ 0 l1 c l2 Hl1 Hl2) by lia.
  rewrite Ha. reflexivity.
Qed.

Lemma attach_spread b :
  block_ok b -> cmax (box b) = 8 * Z.of_nat (length (cubes b)) -> spread b ->
  ccnt (box b) + 1 < cmax (box b) ->
  exists b', attach b = Some (b', true) /\ block_ok b' /\ spread b' /\
    box b' = cbox_set_ccnt (ccnt (box b) + 1) (box b) /\
    length (cubes b') = length (cubes b).
Proof.
  intros Hok Hcap Hsp Hlt.
  pose proof (law_range block_ok block_laws b Hok) as Hr.
  destruct (attach_room block_ok block_laws b Hok ltac:(lia))
    as (b' & Ha & Hb & Hok' & Hif).
  replace (ccnt (box b) + 1 =? cmax (box b)) with false in Hif
    by (symmetry; apply Z.eqb_neq; lia).
  change (addc (set_ccnt ?n ?x)) with (block_addCell (block_set_ccnt n x)) in Hif.
  unfold spread in Hsp.
  remember (Z.of_nat (length (cubes b))) as n eqn:En.
  remember (ccnt (box b)) as k eqn:Ek.
  assert (Hn : 0 < n) by lia.
  pose proof (Z.div_mod k n ltac:(lia)) as Hdm.
  pose proof (Z.mod_pos_bound k n Hn) as Hj.
  remember (k / n) as q eqn:Eq. remember (k mod n) as j eqn:Ej.
  assert (Hq : 0 <= q < 8) by nia.
  destruct (nth_error (cubes b) (Z.to_nat j)) as [c |] eqn:Ec.
  2:{ apply nth_error_None in Ec. lia. }
  destruct (nth_error_split _ _ Ec) as (l1 & l2 & Hs & Hl1).
  assert (Hc : ccnt (box c) = q).
  { rewrite (Hsp _ c Ec).
    replace (Z.of_nat (Z.to_nat j) <? j) with false by (symmetry; apply Z.ltb_ge; lia).
    lia. }
  assert (H1 : forall d, In d l1 -> ccnt (box d) = q + 1).
  { intros d Hd. destruct (In_nth_error _ _ Hd) as (i & Hi).
    assert (Hlt1 : (i < length l1)%nat) by (apply nth_error_Some; congruence).
    rewrite (Hsp i d) by (rewrite Hs, nth_error_app1 by exact Hlt1; exact Hi).
    replace (Z.of_nat i <? j) with true by (symmetry; apply Z.ltb_lt; lia).
    reflexivity. }
  assert (H2 : forall d, In d l2 -> ccnt (box d) = q).
  { intros d Hd. destruct (In_nth_error _ _ Hd) as (i & Hi).
    rewrite (Hsp (length l1 + S i)%nat d).
    - replace (Z.of_nat (length l1 + S i) <? j) with false
        by (symmetry; apply Z.ltb_ge; lia).
      lia.
    - rewrite Hs, nth_error_app2 by lia.
      replace (length l1 + S i - length l1)%nat with (S i) by lia. exact Hi. }
  destruct (addCell_gives_least (block_set_ccnt (k + 1) b) l1 l2 c)
    as (c1 & Hok1 & Hc1 & Hadd).
  { exact Hs. }
  { apply Hok. }
  { lia. }
  { intros d Hd. rewrite (H1 d Hd). lia. }
  { intros d Hd. rewrite (H2 d Hd). lia. }
  rewrite Hadd in Hif. injection Hif as <-.
  exists (block_set_cubes (l1 ++ c1 :: l2) (block_set_ccnt (k + 1) b)).
  split; [exact Ha |]. split; [exact Hok' |].
  assert (Hlen : length (l1 ++ c1 :: l2) = length (cubes b)).
  { rewrite Hs, !length_app. reflexivity. }
  split; [| split; [exact Hb | exact Hlen]].
  unfold spread.
  cbn [cubes block_set_cubes box block_Box block_box block_set_ccnt block_set_box
       ccnt cbox_set_ccnt].
  rewrite Hlen, <- En.
  assert (Hdiv : (k + 1) / n = (if j + 1 <? n then q else q + 1) /\
                 (k + 1) mod n = (if j + 1 <? n then j + 1 else 0)).
  { destruct (Z.ltb_spec (j + 1) n) as [Hlt2 | Hge2].
    - split; symmetry.
      + apply (Z.div_unique (k + 1) n q (j + 1)); [left |]; lia.
      + apply (Z.mod_unique (k + 1) n q (j + 1)); [left |]; lia.
    - split; symmetry.
      + apply (Z.div_unique (k + 1) n (q + 1) 0); [left |]; lia.
      + apply (Z.mod_unique (k + 1) n (q + 1) 0); [left |]; lia. }
  destruct Hdiv as [Hd1 Hd2]. rewrite Hd1, Hd2.
  intros i d Hd.
  assert (Hi : (i < length (l1 ++ c1 :: l2))%nat) by (apply nth_error_Some; congruence).
  rewrite Hlen in Hi.
  destruct (lt_eq_lt_dec i (length l1)) as [[Hlt3 | Heq3] | Hgt3].
  - rewrite nth_error_app1 in Hd by exact Hlt3.
    rewrite (H1 d (nth_error_In _ _ Hd)).
    repeat match goal with
           | |- context [?u <? ?v] => destruct (Z.ltb_spec u v)
           end; lia.
  - rewrite nth_error_app2 in Hd by lia.
    replace (i - length l1)%nat with 0%nat in Hd by lia.
    cbn [nth_error] in Hd. injection Hd as <-. rewrite Hc1, Hc.
    repeat match goal with
           | |- context [?u <? ?v] => destruct (Z.ltb_spec u v)
           end; lia.
  - rewrite nth_error_app2 in Hd by lia.
    destruct (i - length l1)%nat as [| m] eqn:Em; [lia |].
    cbn [nth_error] in Hd.
    rewrite (H2 d (nth_error_In _ _ Hd)).
    repeat match goal with
           | |- context [?u <? ?v] => destruct (Z.ltb_spec u v)
           end; lia.
Qed.

Lemma attach_times_spread k : forall b,
  block_ok b -> cmax (box b) = 8 * Z.of_nat (length (cubes b)) -> spread b ->
  ccnt (box b) + Z.of_nat k < cmax (box b) ->
  exists b', attach_times k b = Some b' /\ block_ok b' /\ spread b' /\
    ccnt (box b') = ccnt (box b) + Z.of_nat k /\
    cmax (box b') = cmax (box b) /\
    length (cubes b') = length (cubes b).
Proof.
  induction k as [| k IH]; intros b Hok Hcap Hsp Hlt.
  - exists b. split; [reflexivity |]. split; [exact Hok |]. split; [exact Hsp |].
    split; [lia | split; reflexivity].
  - cbn [attach_times].
    destruct (attach_spread b Hok Hcap Hsp ltac:(lia)) as (b1 & Ha & Hok1 & Hsp1 & Hb1 & Hl1).
    rewrite Ha.
    destruct (IH b1 Hok1) as (b' & Ht & Hok' & Hsp' & Hc' & Hm' & Hl').
    + rewrite Hb1, Hl1. exact Hcap.
    + exact Hsp1.
    + rewrite Hb1. cbn [ccnt cmax cbox_set_ccnt]. lia.
    + exists b'. split; [exact Ht |]. split; [exact Hok' |]. split; [exact Hsp' |].
      rewrite Hb1 in Hc', Hm'. cbn [ccnt cmax cbox_set_ccnt] in Hc', Hm'.
      split; [lia |]. split; [exact Hm' | congruence].
Qed.

(** X15. Cells that a panel takes one after the other are spread evenly
    over its cubes.  When the counts of the cubes of a well-formed panel
    are even (cube [i] holds [k / n] cells, and one more when
    [i < k mod n], for [k] cells in [n] cubes), any number of calls of
    [attach] that stays below the capacity leaves them even: no two cubes
    ever differ by more than one cell. *)
Theorem attach_spreads_evenly (k : nat) (b : block) :
  block_ok b -> cmax (box b) = 8 * Z.of_nat (length (cubes b)) -> spread b ->
  ccnt (box b) + Z.of_nat k < cmax (box b) ->
  exists b', attach_times k b = Some b' /\ block_ok b' /\ spread b' /\
    ccnt (box b') = ccnt (box b) + Z.of_nat k /\
    cmax (box b') = cmax (box b) /\
    length (cubes b') = length (cubes b).
Proof. apply attach_times_spread. Qed.

Lemma panel3_spread : spread panel3.
Proof.
  unfold spread. intros i c Hn.
  do 4 (destruct i as [| i]; [injection Hn as <-; reflexivity |]).
  destruct i; discriminate Hn.
Qed.

Lemma panel3_ok : block_ok panel3.
Proof.
  split; [vm_compute; split; discriminate |].
  split; [apply panel3_cubes_ok |].
  split; [discriminate | reflexivity].
Qed.

Lemma attach_spreads_evenly_witness :
  exists b', attach_times 6 panel3 = Some b' /\ block_ok b' /\ spread b' /\
    ccnt (box b') = ccnt (box panel3) + Z.of_nat 6 /\
    cmax (box b') = cmax (box panel3) /\
    length (cubes b') = length (cubes panel3).
Proof.
  apply (attach_spreads_evenly 6 panel3).
  - apply panel3_ok.
  - reflexivity.
  - apply panel3_spread.
  - vm_compute. reflexivity.
Defined.

Lemma reset_spread (k : Z) (b : block) :
  block_ok b -> cmax (box b) = 8 * Z.of_nat (length (cubes b)) ->
  0 <= k < cmax (box b) ->
  exists b', reset k b = Some b' /\ block_ok b' /\ spread b' /\
    ccnt (box b') = k /\ cmax (box b') = cmax (box b) /\
    length (cubes b') = length (cubes b).
Proof.
  intros Hok Hcap Hk.
  pose proof (block_ok_wipe b Hok) as (Hr & Hcs & Hne & Hs).
  unfold reset. change (trashc b) with (block_trash b). rewrite block_trash_wipes.
  change (set_ccnt 0 (wipe_block b)) with (block_set_ccnt 0 (wipe_block b)).
  set (b0 := block_set_ccnt 0 (wipe_block b)).
  assert (Hbox : box b0 = cbox_set_ccnt 0 (box b)) by reflexivity.
  assert (Hcubes : cubes b0 = map wipe_cube (cubes b)) by reflexivity.
  rewrite Hbox. cbn [cmax cbox_set_ccnt].
  replace (k >? cmax (box b)) with false
    by (symmetry; rewrite Z.gtb_ltb; apply Z.ltb_ge; lia).
  destruct (attach_times_spread (Z.to_nat k) b0) as (b' & Ht & Hok' & Hsp' & Hc' & Hm' & Hl').
  - split; [rewrite Hbox; cbn [ccnt cmax cbox_set_ccnt]; lia |].
    split; [exact Hcs |]. split; [exact Hne | reflexivity].
  - rewrite Hbox, Hcubes, length_map. exact Hcap.
  - unfold spread. rewrite Hbox, Hcubes. cbn [ccnt cbox_set_ccnt].
    intros i c Hn. apply nth_error_In, in_map_iff in Hn.
    destruct Hn as (c0 & <- & _).
    rewrite Z.div_0_l, Z.mod_0_l by (rewrite length_map; lia).
    replace (Z.of_nat i <? 0) with false by (symmetry; apply Z.ltb_ge; lia).
    reflexivity.
  - rewrite Hbox. cbn [ccnt cmax cbox_set_ccnt]. lia.
  - exists b'. split; [exact Ht |]. split; [exact Hok' |]. split; [exact Hsp' |].
    rewrite Hbox in Hc', Hm'. cbn [ccnt cmax cbox_set_ccnt] in Hc', Hm'.
    rewrite Hcubes, length_map in Hl'.
    split; [lia |]. split; [exact Hm' | exact Hl'].
Qed.

(** X16. [reset] spreads the cells evenly too: on a well-formed panel of
    [n] cubes, [reset k] with [k] below the capacity leaves [k] cells, of
    which cube [i] holds [k / n], and one more when [i < k mod n].  So the
    [detach] that takes a cell from a full panel leaves every cube full
    except the last one, which holds 7 cells. *)
Theorem reset_spreads_evenly (b : block) :
  block_ok b -> cmax (box b) = 8 * Z.of_nat (length (cubes b)) ->
  (forall k, 0 <= k < cmax (box b) ->
     exists b', reset k b = Some b' /\ block_ok b' /\ spread b' /\
       ccnt (box b') = k /\ length (cubes b') = length (cubes b)) /\
  (0 < cmax (box b) -> ccnt (box b) = cmax (box b) ->
     exists b', detach b = Some (b', true) /\ block_ok b' /\
       ccnt (box b') = cmax (box b) - 1 /\
       length (cubes b') = length (cubes b) /\
       forall i c, nth_error (cubes b') i = Some c ->
         ccnt (box c) = if (S i <? length (cubes b))%nat then 8 else 7).
Proof.
  intros Hok Hcap. split.
  - intros k Hk.
    destruct (reset_spread k b Hok Hcap Hk) as (b' & Hr & Hok' & Hsp & Hc & _ & Hl).
    exists b'. auto.
  - intros Hpos Hfull.
    assert (Hc0 : 0 < ccnt (box b)) by lia.
    assert (Hk : 0 <= cmax (box b) - 1 < cmax (box b)) by lia.
    destruct (detach_full block_ok block_laws b Hok Hc0 Hfull)
      as (b' & Hd & Hr & _ & _).
    destruct (reset_spread (cmax (box b) - 1) b Hok Hcap Hk)
      as (b2 & Hr2 & Hok' & Hsp & Hc & _ & Hl).
    rewrite Hr in Hr2. injection Hr2 as ->.
    exists b2. split; [exact Hd |]. split; [exact Hok' |]. split; [exact Hc |].
    split; [exact Hl |].
    intros i c Hn. rewrite (Hsp i c Hn), Hc, Hl, Hcap.
    assert (Hi : (i < length (cubes b2))%nat) by (apply nth_error_Some; congruence).
    rewrite Hl in Hi.
    remember (Z.of_nat (length (cubes b))) as n eqn:En.
    assert (Hn0 : 0 < n) by lia.
    rewrite <- (Z.div_unique (8 * n - 1) n 7 (n - 1)) by (try left; lia).
    rewrite <- (Z.mod_unique (8 * n - 1) n 7 (n - 1)) by (try left; lia).
    destruct (Nat.ltb_spec (S i) (length (cubes b)));
      destruct (Z.ltb_spec (Z.of_nat i) (n - 1)); lia.
Qed.

Lemma reset_spreads_evenly_witness :
  (forall k, 0 <= k < cmax (box panel3) ->
     exists b', reset k panel3 = Some b' /\ block_ok b' /\ spread b' /\
       ccnt (box b') = k /\ length (cubes b') = length (cubes panel3)) /\
  (0 < cmax (box panel3) -> ccnt (box panel3) = cmax (box panel3) ->
     exists b', detach panel3 = Some (b', true) /\ block_ok b' /\
       ccnt (box b') = cmax (box panel3) - 1 /\
       length (cubes b') = length (cubes panel3) /\
       forall i c, nth_error (cubes b') i = Some c ->
         ccnt (box c) = if (S i <? length (cubes panel3))%nat then 8 else 7).
Proof.
  apply (reset_spreads_evenly panel3).
  - apply panel3_ok.
  - reflexivity.
Defined.

(** X17. The six panels of a new trooper fill evenly.  Each panel of the
    trooper that [newTrooper] makes at level [L] has [(L-1)²] cubes and
    [4 (L-1)²] cells, and any number [m < 4 (L-1)²] of calls of [attach]
    on it keeps the cells spread evenly over the cubes: with [k] cells in
    [n] cubes, cube [i] holds [k / n] cells, and one more when
    [i < k mod n]. *)
Theorem new_panels_fill_evenly
    (gosort : (V3 -> V3 -> bool) -> list V3 -> list V3) (L : Z) (k m : nat) :
  sort_permutes gosort -> 1 <= L -> 8 * L ^ 3 <= int_max ->
  (k < 6)%nat -> Z.of_nat m < 4 * (L - 1) ^ 2 ->
  exists tr b b',
    newTrooper gosort L = Some tr /\
    nth_error (bits tr) k = Some (BBlock b) /\
    Z.of_nat (length (cubes b)) = (L - 1) ^ 2 /\
    ccnt (box b) = 4 * (L - 1) ^ 2 /\ spread b /\
    attach_times m b = Some b' /\ spread b' /\
    ccnt (box b') = 4 * (L - 1) ^ 2 + Z.of_nat m /\
    length (cubes b') = length (cubes b).
Proof.
  intros Hperm HL Hmax Hk Hm.
  destruct (newTrooper_scanned gosort L Hperm HL Hmax)
    as (tr & Hn & _ & _ & _ & _ & _ & _ & _ & Hb & Hp).
  destruct (Hp k Hk) as (b & Hnb).
  destruct (Hb k b Hnb) as (_ & Hsync & Hcap & Hsp & Hlen & Hcnt).
  destruct (attach_times_spread m b) as (b' & Ht & _ & Hsp' & Hc' & _ & Hl').
  - apply Hsync.
  - rewrite Hcap, Hlen. reflexivity.
  - exact Hsp.
  - rewrite Hcnt, Hcap. lia.
  - exists tr, b, b'. rewrite Hcnt in Hc'. auto 10.
Qed.

Lemma new_panels_fill_evenly_witness :
  exists tr b b',
    newTrooper insertion_sort 3 = Some tr /\
    nth_error (bits tr) 2 = Some (BBlock b) /\
    Z.of_nat (length (cubes b)) = (3 - 1) ^ 2 /\
    ccnt (box b) = 4 * (3 - 1) ^ 2 /\ spread b /\
    attach_times 7 b = Some b' /\ spread b' /\
    ccnt (box b') = 4 * (3 - 1) ^ 2 + Z.of_nat 7 /\
    length (cubes b') = length (cubes b).
Proof.
  apply (new_panels_fill_evenly insertion_sort 3 2 7).
  - intros less l. apply insertion_sort_perm.
  - lia.
  - vm_compute. discriminate.
  - lia.
  - vm_compute. reflexivity.
Defined.

(** ** Any series of keys, from the start of the program *)

Lemma newTrooper_ok
    (gosort : (V3 -> V3 -> bool) -> list V3 -> list V3) (L : Z) :
  sort_permutes gosort -> 0 <= L -> 8 * L ^ 3 <= int_max ->
  exists tr, newTrooper gosort L = Some tr /\ trooper_ok tr /\ lvl tr = L /\
    sum_cmax (bits tr) = capacity L.
Proof.
  intros Hperm HL Hmax. destruct (Z.eq_dec L 0) as [-> | Hne].
  - destruct (level0_cube gosort Hperm)
      as (v0 & v1 & v2 & v3 & v4 & v5 & v6 & v7 & E).
    rewrite E. eexists. split; [reflexivity |].
    split; [| split; reflexivity].
    split; [discriminate |]. left. split; [reflexivity |].
    constructor; [| constructor].
    cbn [bit_ok]. unfold cube_ok, cube_cells. cbn.
    split; [reflexivity |]. split; [reflexivity |]. split; [lia | reflexivity].
  - assert (H1 : 1 <= L) by lia.
    destruct (newTrooper_scanned gosort L Hperm H1 Hmax)
      as (tr & Hn & Hl & Hneo & _ & _ & _ & Hlen & Hc & Hb & _).
    destruct (newTrooper_sums gosort L Hperm H1 Hmax)
      as (tr' & Hn' & _ & Hok & Hcap & _).
    rewrite Hn in Hn'. injection Hn' as <-.
    exists tr. split; [exact Hn |]. split; [| split; [exact Hl |]].
    + split; [| left; split; [exact Hneo | exact Hok]].
      intros E. rewrite E in Hlen. cbn [length] in Hlen. lia.
    + unfold capacity. replace (L =? 0) with false by (symmetry; apply Z.eqb_neq; exact Hne).
      exact Hcap.
Qed.

Lemma react_ok
    (gosort : (V3 -> V3 -> bool) -> list V3 -> list V3) (e : event) (tr : trooper) :
  sort_permutes gosort ->
  trooper_ok tr -> 0 <= lvl tr <= 5 -> sum_cmax (bits tr) = capacity (lvl tr) ->
  exists tr', react gosort e tr = Some tr' /\
    trooper_ok tr' /\ 0 <= lvl tr' <= 5 /\ sum_cmax (bits tr') = capacity (lvl tr').
Proof.
  intros Hperm Hok Hl Hcap. destruct e as [| | d down |]; cbn [react].
  - destruct (press_ok Grow tr Hok) as (tr' & sig & Hp & Hok' & Hl' & Hm).
    cbn [press] in Hp. rewrite Hp. exists tr'. split; [reflexivity |].
    split; [exact Hok' |]. rewrite Hl', (sum_cmax_ext _ _ Hm). auto.
  - destruct (press_ok Shrink tr Hok) as (tr' & sig & Hp & Hok' & Hl' & Hm).
    cbn [press] in Hp. rewrite Hp. exists tr'. split; [reflexivity |].
    split; [exact Hok' |]. rewrite Hl', (sum_cmax_ext _ _ Hm). auto.
  - unfold setTr. destruct (down =? 1).
    + rewrite trooper_trash_wipes.
      destruct (newTrooper_ok gosort (digit_level d) Hperm) as (tr' & Hn & Hok' & Hl' & Hc').
      * destruct d; cbn; lia.
      * destruct d; vm_compute; discriminate.
      * exists tr'. split; [exact Hn |]. split; [exact Hok' |].
        rewrite Hl'. split; [destruct d; cbn; lia | exact Hc'].
    + exists tr. auto.
  - exists tr. auto.
Qed.

Lemma updates_ok
    (gosort : (V3 -> V3 -> bool) -> list V3 -> list V3) (es : list event) :
  sort_permutes gosort -> forall tr,
  trooper_ok tr -> 0 <= lvl tr <= 5 -> sum_cmax (bits tr) = capacity (lvl tr) ->
  exists tr', updates gosort es tr = Some tr' /\
    trooper_ok tr' /\ 0 <= lvl tr' <= 5 /\ sum_cmax (bits tr') = capacity (lvl tr').
Proof.
  intros Hperm. induction es as [| e es IH]; intros tr Hok Hl Hcap; cbn [updates].
  - exists tr. auto.
  - destruct (react_ok gosort e tr Hperm Hok Hl Hcap) as (tr1 & Hr & Hok1 & Hl1 & Hc1).
    rewrite Hr. apply (IH tr1 Hok1 Hl1 Hc1).
Qed.

(** X18. From the start of the program no series of keys makes it panic:
    [create] makes the level 1 trooper, and whatever keys follow (attach,
    detach, a digit held for any number of updates, or another key) every
    reaction returns, the trooper stays well formed, its level stays
    between 0 and 5, its capacity is the one of its level (8 at level 0,
    [48 L² + 16] above) and [health] stays between 0 and that capacity. *)
Theorem keys_never_panic
    (gosort : (V3 -> V3 -> bool) -> list V3 -> list V3) (es : list event) :
  sort_permutes gosort ->
  exists tr0 tr, create gosort = Some tr0 /\ updates gosort es tr0 = Some tr /\
    trooper_ok tr /\ 0 <= lvl tr <= 5 /\
    sum_cmax (bits tr) = capacity (lvl tr) /\
    0 <= health tr <= capacity (lvl tr).
Proof.
  intros Hperm. unfold create.
  destruct (newTrooper_ok gosort 1 Hperm) as (tr0 & Hn & Hok0 & Hl0 & Hc0).
  { lia. }
  { vm_compute. discriminate. }
  destruct (updates_ok gosort es Hperm tr0 Hok0) as (tr & Hr & Hok & Hl & Hc).
  { rewrite Hl0. lia. }
  { rewrite Hl0. exact Hc0. }
  exists tr0, tr. split; [exact Hn |]. split; [exact Hr |]. split; [exact Hok |].
  split; [exact Hl |]. split; [exact Hc |].
  pose proof (trooper_ok_range tr Hok) as Hrg. rewrite Hc in Hrg.
  rewrite health_sum, wrap_small; [exact Hrg |].
  assert (Hcapb : capacity (lvl tr) <= 1216).
  { unfold capacity. destruct (lvl tr =? 0); [lia |].
    assert (lvl tr ^ 2 = lvl tr * lvl tr) by ring. nia. }
  unfold int_min, int_max. lia.
Qed.

Lemma keys_never_panic_witness :
  exists tr0 tr, create insertion_sort = Some tr0 /\
    updates insertion_sort [KPplus; Digit D2 1; KPminus; OtherKey; Digit D3 2; KPplus] tr0
      = Some tr /\
    trooper_ok tr /\ 0 <= lvl tr <= 5 /\
    sum_cmax (bits tr) = capacity (lvl tr) /\
    0 <= health tr <= capacity (lvl tr).
Proof.
  apply (keys_never_panic insertion_sort).
  intros less l. apply insertion_sort_perm.
Defined.
